(** * otfinst: classification and explosion of OpenType font variants

  A shallow embedding of the algorithmic core of [otfinst.py]: the
  list/string primitives [l2s] and [s2l], the stable [unique], the
  generator [breakout], the Berry series and shape builders, the
  classifier and the exploder.

  Conventions of the embedding.
  - Python [str] is [string]; a list of tokens is [list string].
  - A Python [dict] is an insertion-ordered association list ([odict]):
    iteration order is insertion order, assigning to a present key keeps
    its position, assigning to an absent key appends it.
  - An uncaught Python exception is a value of [exn] carried by [result];
    nothing in the program catches exceptions, so an [Err] ends the run.
  - A generator is the list of the values it yields, in order. *)

From Stdlib Require Import Strings.String Strings.Ascii Lists.List Bool.Bool.
From Stdlib Require Import Arith.PeanoNat micromega.Lia.
From Stdlib Require Import Sorting.Sorted Sorting.Permutation.
Import ListNotations.

Local Open Scope string_scope.
Local Open Scope list_scope.

(** ** Exceptions *)

Inductive exn : Type :=
| KeyError (key : string)      (* d[k] with k absent; the argument is k *)
| ValueError (what : string).  (* list.remove(x) with x absent *)

Inductive result (A : Type) : Type :=
| Ok (a : A)
| Err (e : exn).

Arguments Ok {A} a.
Arguments Err {A} e.

Definition bind {A B : Type} (m : result A) (k : A -> result B) : result B :=
  match m with
  | Ok a => k a
  | Err e => Err e
  end.

Notation "x <- m ;; k" := (bind m (fun x => k))
  (at level 61, m at next level, right associativity).

(** ** Python built-ins used by the program *)

(** [x in l] for a list of strings. *)
Fixpoint mem (x : string) (l : list string) : bool :=
  match l with
  | [] => false
  | y :: r => if String.eqb x y then true else mem x r
  end.

(** Truthiness of a string: [if s:] holds exactly for the non-empty ones. *)
Definition truthy (s : string) : bool :=
  match s with
  | EmptyString => false
  | String _ _ => true
  end.

(** [sep.join(l)]. *)
Fixpoint join (sp : string) (l : list string) : string :=
  match l with
  | [] => ""
  | x :: r =>
      match r with
      | [] => x
      | _ :: _ => (x ++ sp ++ join sp r)%string
      end
  end.

(** [s.split(c)] for a one-character separator: one more piece than there
    are separators, empty pieces kept. *)
Fixpoint split (c : ascii) (s : string) : list string :=
  match s with
  | EmptyString => [""]
  | String a r =>
      if Ascii.eqb a c then "" :: split c r
      else match split c r with
           | h :: t => String a h :: t
           | [] => [String a ""]
           end
  end.

(** [l.remove(x)]: drops the first occurrence, raises when there is none. *)
Fixpoint list_remove (x : string) (l : list string) : result (list string) :=
  match l with
  | [] => Err (ValueError x)
  | y :: r =>
      if String.eqb x y then Ok r
      else r' <- list_remove x r ;; Ok (y :: r')
  end.

(** ** list-to-string and string-to-list primitives *)

Definition sep_char : ascii := "-"%char.
Definition sep : string := String sep_char "".

Definition l2s (l : list string) : string := join sep l.

Definition s2l (s : string) : list string :=
  if truthy s then split sep_char s else [].

(** [has_sep s]: the separator occurs in [s]. *)
Fixpoint has_sep (s : string) : bool :=
  match s with
  | EmptyString => false
  | String a r => Ascii.eqb a sep_char || has_sep r
  end.

(** stable *)
Fixpoint unique_loop (s u ss : list string) : list string :=
  match s with
  | [] => ss
  | x :: r =>
      if mem x u then unique_loop r u ss
      else unique_loop r (u ++ [x]) (ss ++ [x])
  end.

Definition unique (s : list string) : list string := unique_loop s [] [].

(** ** Insertion-ordered dictionaries *)

Module Dict.

Definition odict (V : Type) : Type := list (string * V).

Definition empty {V : Type} : odict V := [].

(** [d.get(k)] *)
Fixpoint get {V : Type} (k : string) (d : odict V) : option V :=
  match d with
  | [] => None
  | (k', v) :: r => if String.eqb k k' then Some v else get k r
  end.

(** [d[k] = v]: a present key keeps its place, an absent one goes last. *)
Fixpoint set {V : Type} (k : string) (v : V) (d : odict V) : odict V :=
  match d with
  | [] => [(k, v)]
  | (k', v') :: r =>
      if String.eqb k k' then (k', v) :: r else (k', v') :: set k v r
  end.

(** [list(d.keys())] *)
Definition keys {V : Type} (d : odict V) : list string := map fst d.

(** [d[k]] as an expression: [KeyError(k)] when [k] is absent. *)
Definition getitem {V : Type} (k : string) (d : odict V) : result V :=
  match get k d with
  | Some v => Ok v
  | None => Err (KeyError k)
  end.

(** The idiom [if k not in list(d.keys()): d[k] = dflt] followed by an
    in-place change [f] of [d[k]]. *)
Definition upd {V : Type} (k : string) (dflt : V) (f : V -> V)
           (d : odict V) : odict V :=
  match get k d with
  | Some v => set k (f v) d
  | None => set k (f dflt) d
  end.

End Dict.

Import Dict.

(** ** User-settable variables *)

Definition encoding : string := "LY1".

Definition optionList : list (list string) :=
  [ ["kern"];
    ["liga"];
    ["lnum"; "onum"; "swsh"; "sinf"; "sups"; "pnum"; "fakenum"];
    ["smcp"; ""] ].

Definition globalOptionList : list string := ["kern"; "liga"].
Definition newFontFamilyOptionList : list string :=
  ["lnum"; "onum"; "swsh"; "sinf"; "sups"; "pnum"; "fakenum"].
Definition weightOptionList : list string := [].
Definition widthOptionList : list string := [].
Definition variantOptionList : list string := ["smcp"].
Definition fakeOptionList : list string := ["fakenum"].

Definition optionMappings : odict string :=
  [ ("lnum", "x"); ("onum", "j"); ("fakenum", "");
    ("swsh", "w"); ("sinf", "0"); ("sups", "1"); ("pnum", "2");
    ("smcp", "sc");
    ("thin", "ul"); ("extralight", "el"); ("light", "l"); ("book", "m");
    ("medium", "mb"); ("demibold", "db"); ("semibold", "sb"); ("bold", "b");
    ("extrabold", "eb"); ("black", "eb"); ("heavy", "eb");
    ("condensed", "c"); ("cond", "c"); ("cn", "c"); ("narrow", "n");
    ("semicondensed", "sc"); ("semiextended", "sx"); ("extended", "x");
    ("italic", "it"); ("it", "it"); ("slanted", "sl"); ("oblique", "sl");
    ("outline", "ol");
    ("regular", "") ].

(** ** Berry series and shape *)

Definition is_nil {A : Type} (l : list A) : bool :=
  match l with
  | [] => true
  | _ :: _ => false
  end.

(** The loop [for s in opts: acc += optionMappings[s]]. *)
Fixpoint append_codes (acc : string) (opts : list string) : result string :=
  match opts with
  | [] => Ok acc
  | s :: r =>
      c <- getitem s optionMappings ;;
      append_codes (acc ++ c)%string r
  end.

Definition buildSeries (weight width : string) : result string :=
  let seriesopts := unique (s2l weight ++ s2l width) in
  if String.eqb (l2s seriesopts) "regular" || is_nil seriesopts then Ok "m"
  else append_codes "" seriesopts.

Definition buildShape (variant : string) : result string :=
  let shapeopts := unique (s2l variant) in
  if String.eqb (l2s shapeopts) "regular" || is_nil shapeopts then Ok "n"
  else
    st <- (if mem "italic" shapeopts && mem "smcp" shapeopts then
             l1 <- list_remove "italic" shapeopts ;;
             l2 <- list_remove "smcp" l1 ;;
             Ok (l2, "si")
           else Ok (shapeopts, "")) ;;
    append_codes (snd st) (fst st).

(** ** The option explorer *)

(** break out all possibilities from a list; the generator is modelled by
    the list of the sequences it yields, in the order it yields them. *)
Fixpoint breakout (lyst : list (list string)) : list (list string) :=
  match lyst with
  | [] => [[]]
  | g :: rest =>
      flat_map (fun i => if truthy i
                         then map (fun j => i :: j) (breakout rest)
                         else breakout rest) g
  end.

(** ** Font records *)

(** One entry of [fonthash].  The program stores a dict per font; all of its
    keys are assigned before [classifyFont] runs, so it is a record here. *)
Record FontRecord : Type := mkFontRecord {
  fr_filename : string;
  fr_family : string;
  fr_subfamily : list string;
  fr_vendor : string;
  fr_opticalSize : list string;
  fr_weight : string;
  fr_width : string;
  fr_variant : string;
  fr_features : list string
}.

(** What [otfinfo] reported for one font file, after the textual clean-up of
    [addToFonthash]: the subfamily is already split into lowercase tokens,
    the optical size is already the list of decimal strings (or empty) and
    the feature report is already split into lines. *)
Record OtfInfo : Type := mkOtfInfo {
  oi_postScriptName : string;
  oi_font : string;
  oi_family : string;
  oi_subfamily : list string;
  oi_vendor : string;
  oi_opticalSize : list string;
  oi_featureLines : list string
}.

Definition weightNames : list string :=
  ["regular"; "thin"; "extralight"; "light"; "book"; "medium"; "regular";
   "demibold"; "semibold"; "bold"; "extrabold"; "black"; "heavy"].

Definition widthNames : list string :=
  ["regular"; "condensed"; "cond"; "cn"; "semicondensed"; "narrow";
   "semiextended"; "extended"].

Definition variantNames : list string :=
  ["regular"; "italic"; "it"; "slanted"; "oblique"; "outline"].

(** [l.sort()] on strings.  Strings that compare equal are identical, so the
    result does not depend on the sorting algorithm; insertion sort is used. *)
Fixpoint insert_sorted (x : string) (l : list string) : list string :=
  match l with
  | [] => [x]
  | y :: r => if String.leb x y then x :: y :: r else y :: insert_sorted x r
  end.

Definition list_sort (l : list string) : list string :=
  fold_right insert_sorted [] l.

(** The loop over the subfamily tokens that fills the three axis lists. *)
Fixpoint axes_loop (sub weight width variant : list string)
  : list string * list string * list string :=
  match sub with
  | [] => (weight, width, variant)
  | s :: r =>
      axes_loop r
        (if mem s weightNames then weight ++ [s] else weight)
        (if mem s widthNames then width ++ [s] else width)
        (if mem s variantNames then variant ++ [s] else variant)
  end.

(** The loop over the lines of [otfinfo --features].  [substring] counts
    the bytes of the model string; on a line of ASCII characters these are
    the characters Python's slices count. *)
Fixpoint features_loop (lines : list string) (numFeatureCount : nat)
         (features : list string) : nat * list string :=
  match lines with
  | [] => (numFeatureCount, features)
  | line :: r =>
      features_loop r
        (if String.eqb (substring 1 3 line) "num"
         then S numFeatureCount else numFeatureCount)
        (features ++ [substring 0 4 line])
  end.

Definition buildFontRecord (info : OtfInfo) : FontRecord :=
  let '(weight, width, variant) := axes_loop (oi_subfamily info) [] [] [] in
  let '(numFeatureCount, features) :=
    features_loop (oi_featureLines info) 0 [] in
  {| fr_filename := oi_font info;
     fr_family := oi_family info;
     fr_subfamily := oi_subfamily info;
     fr_vendor := oi_vendor info;
     fr_opticalSize := oi_opticalSize info;
     fr_weight := l2s (list_sort weight);
     fr_width := l2s (list_sort width);
     fr_variant := l2s (list_sort variant);
     fr_features := if Nat.eqb numFeatureCount 0
                    then features ++ ["fakenum"] else features |}.

(** ** The classifier *)

Definition Opticals : Type := list (string * list string).

Definition ClassifiedFonts : Type := odict (odict (odict (odict Opticals))).

Definition Fonthash : Type := odict FontRecord.

(** The leaf of a four-level index, if all four levels exist. *)
Definition get4 {V : Type} (k1 k2 k3 k4 : string)
           (d : odict (odict (odict (odict V)))) : option V :=
  match get k1 d with
  | Some d1 =>
      match get k2 d1 with
      | Some d2 =>
          match get k3 d2 with
          | Some d3 => get k4 d3
          | None => None
          end
      | None => None
      end
  | None => None
  end.

(** Create the missing levels, then change the leaf in place. *)
Definition upd4 {V : Type} (k1 k2 k3 k4 : string) (dflt : V) (f : V -> V)
           (d : odict (odict (odict (odict V))))
  : odict (odict (odict (odict V))) :=
  upd k1 empty (upd k2 empty (upd k3 empty (upd k4 dflt f))) d.

Definition classifyFont (fonthash : Fonthash) (postScriptName : string)
           (classifiedFonts : ClassifiedFonts) : result ClassifiedFonts :=
  fr <- getitem postScriptName fonthash ;;
  Ok (upd4 (fr_family fr) (fr_weight fr) (fr_width fr) (fr_variant fr) []
           (fun opticals => opticals ++ [(postScriptName, fr_opticalSize fr)])
           classifiedFonts).

(** [addToFonthash] on a report that has been read: the record is built
    and stored under the PostScript name, then classified.  Reading the
    reports, which can raise, is [readReport]; [addReport] is the function
    from the reports of otfinfo. *)
Definition addToFonthash (info : OtfInfo)
           (st : Fonthash * ClassifiedFonts)
  : result (Fonthash * ClassifiedFonts) :=
  let fonthash :=
    set (oi_postScriptName info) (buildFontRecord info) (fst st) in
  cf <- classifyFont fonthash (oi_postScriptName info) (snd st) ;;
  Ok (fonthash, cf).

(** ** The exploder *)

(** One leaf of [explodedFonts]: a dict from field name to string. *)
Definition ExplodedRecord : Type := odict string.

Definition ExplodedFonts : Type :=
  odict (odict (odict (odict ExplodedRecord))).

(** The identifiers that the loop over one combination carries along. *)
Record Extended : Type := mkExtended {
  xfamily : list string;
  xweight : string;
  xwidth : string;
  xvariant : string;
  cmdlineoptions : list string
}.

Definition add_cmdline (oo : string) (x : Extended) : Extended :=
  mkExtended (xfamily x) (xweight x) (xwidth x) (xvariant x)
             (cmdlineoptions x ++ [oo]).

Definition add_xfamily (oo : string) (x : Extended) : Extended :=
  mkExtended (xfamily x ++ [oo]) (xweight x) (xwidth x) (xvariant x)
             (cmdlineoptions x).

Definition set_xweight (s : string) (x : Extended) : Extended :=
  mkExtended (xfamily x) s (xwidth x) (xvariant x) (cmdlineoptions x).

Definition set_xwidth (s : string) (x : Extended) : Extended :=
  mkExtended (xfamily x) (xweight x) s (xvariant x) (cmdlineoptions x).

Definition set_xvariant (s : string) (x : Extended) : Extended :=
  mkExtended (xfamily x) (xweight x) (xwidth x) s (cmdlineoptions x).

(** [oo in l and oo not in fakeOptionList] *)
Definition selects (l : list string) (oo : string) : bool :=
  mem oo l && negb (mem oo fakeOptionList).

(** The body of [for oo in o]. *)
Definition option_step (weight width variant : string)
           (x : Extended) (oo : string) : Extended :=
  let x := if selects globalOptionList oo then add_cmdline oo x else x in
  let x := if selects newFontFamilyOptionList oo then add_xfamily oo x
           else x in
  let x := if selects weightOptionList oo
           then add_cmdline oo (set_xweight (l2s (s2l weight ++ [oo])) x)
           else x in
  let x := if selects widthOptionList oo
           then add_cmdline oo (set_xwidth (l2s (s2l width ++ [oo])) x)
           else x in
  let x := if selects variantOptionList oo
           then add_cmdline oo (set_xvariant (l2s (s2l variant ++ [oo])) x)
           else x in
  x.

Definition applyOptions (family weight width variant : string)
           (o : list string) : Extended :=
  fold_left (option_step weight width variant) o
            (mkExtended [family] weight width variant []).

(** The external name: encoding, font identifier, family-forming tokens,
    command-line tokens. *)
Definition fontname_tokens (name xfam : string) (cmdl : list string)
  : list string :=
  [encoding; name] ++ tl (s2l xfam) ++ cmdl.

(** The loop [for f in ...: leaf["cmdlineoptions"] += "-f%s " % f]. *)
Fixpoint flags_loop (fs : list string) (leaf : ExplodedRecord)
  : result ExplodedRecord :=
  match fs with
  | [] => Ok leaf
  | f :: r =>
      old <- getitem "cmdlineoptions" leaf ;;
      flags_loop r (set "cmdlineoptions" (old ++ "-f" ++ f ++ " ")%string leaf)
  end.

(** The five assignments to the leaf, in source order. *)
Definition writeRecord (fr : FontRecord) (name xfam : string)
           (cmdl : list string) (leaf : ExplodedRecord)
  : result ExplodedRecord :=
  let leaf := set "filename" (fr_filename fr) leaf in
  let leaf := set "family" (fr_family fr) leaf in
  let leaf := set "vendor" (fr_vendor fr) leaf in
  let leaf := set "fontname" (l2s (fontname_tokens name xfam cmdl)) leaf in
  let leaf := set "cmdlineoptions" "" leaf in
  flags_loop (tl (s2l xfam) ++ cmdl) leaf.

(** Insertion of one result record: the leaf found at the key (a fresh
    empty dict when a level is missing) is assigned to, in place. *)
Definition insertRecord (fr : FontRecord) (name xfam series shape : string)
           (cmdl : list string) (explodedFonts : ExplodedFonts)
  : result ExplodedFonts :=
  let optical := l2s (fr_opticalSize fr) in
  let leaf := match get4 xfam series shape optical explodedFonts with
              | Some l => l
              | None => empty
              end in
  leaf' <- writeRecord fr name xfam cmdl leaf ;;
  Ok (upd4 xfam series shape optical empty (fun _ => leaf') explodedFonts).

(** The body of [for o in breakout(myOptionList)]. *)
Definition explodeCombination (fonthash : Fonthash)
           (name weight width variant : string) (o : list string)
           (explodedFonts : ExplodedFonts) : result ExplodedFonts :=
  fr <- getitem name fonthash ;;
  let x := applyOptions (fr_family fr) weight width variant o in
  let xfam := l2s (xfamily x) in
  series <- buildSeries (xweight x) (xwidth x) ;;
  shape <- buildShape (xvariant x) ;;
  insertRecord fr name xfam series shape (cmdlineoptions x) explodedFonts.

(** The option groups of one font: each group of [optionList] cut down to
    its empty choice and the features the font has; emptied groups go. *)
Definition myOptionList (features : list string) : list (list string) :=
  flat_map (fun o =>
              let opt := filter (fun oo => negb (truthy oo) || mem oo features)
                                o in
              if is_nil opt then [] else [opt])
           optionList.

(** A [for] loop whose body may raise. *)
Fixpoint foldM {A S : Type} (body : S -> A -> result S) (l : list A) (s : S)
  : result S :=
  match l with
  | [] => Ok s
  | a :: r => s' <- body s a ;; foldM body r s'
  end.

(** [for k in list(d.keys()): ... d[k] ...] *)
Definition for_keys {V S : Type} (d : odict V)
           (body : S -> string -> V -> result S) (s : S) : result S :=
  foldM (fun s k => v <- getitem k d ;; body s k v) (keys d) s.

Definition explodeFont (fonthash : Fonthash) (weight width variant : string)
           (explodedFonts : ExplodedFonts) (font : string * list string)
  : result ExplodedFonts :=
  let name := fst font in
  fr <- getitem name fonthash ;;
  foldM (fun ef o => explodeCombination fonthash name weight width variant o ef)
        (breakout (myOptionList (fr_features fr))) explodedFonts.

Definition populateFontDataStructures (fonthash : Fonthash)
           (classifiedFonts : ClassifiedFonts) (explodedFonts : ExplodedFonts)
  : result ExplodedFonts :=
  for_keys classifiedFonts (fun ef family byWeight =>
    for_keys byWeight (fun ef weight byWidth =>
      for_keys byWidth (fun ef width byVariant =>
        for_keys byVariant (fun ef variant opticals =>
          foldM (explodeFont fonthash weight width variant) opticals ef)
        ef) ef) ef) explodedFonts.

(** ** Auxiliary definitions used to state the properties *)

(** The tokens of [s] not yet in [seen], first occurrences only. *)
Fixpoint fresh_tokens (seen s : list string) : list string :=
  match s with
  | [] => []
  | x :: r =>
      if mem x seen then fresh_tokens seen r
      else x :: fresh_tokens (seen ++ [x]) r
  end.

(** Concatenation of a list of codes. *)
Definition concat_all (cs : list string) : string :=
  fold_right String.append "" cs.


(** The tokens of a shape other than the pair that makes the combined
    code. *)
Definition other_tokens (shapeopts : list string) : list string :=
  filter (fun t => negb (mem t ["italic"; "smcp"])) shapeopts.

(** Every way of picking one choice from each group, the first group
    varying slowest. *)
Fixpoint choices (lyst : list (list string)) : list (list string) :=
  match lyst with
  | [] => [[]]
  | g :: rest => flat_map (fun i => map (fun j => i :: j) (choices rest)) g
  end.

(** The product of the group sizes. *)
Definition group_product (lyst : list (list string)) : nat :=
  fold_right (fun g n => length g * n) 1 lyst.

(** The order [list.sort] sorts strings by. *)
Definition str_le (a b : string) : Prop := String.leb a b = true.

(** The subfamily tokens that belong to the axis with the given names, in
    subfamily order, duplicates kept. *)
Definition axis_tokens (names sub : list string) : list string :=
  filter (fun s => mem s names) sub.

(** [d[k]] where a missing level reads as the empty dict. *)
Definition getd {V : Type} (k : string) (d : odict (odict V)) : odict V :=
  match get k d with
  | Some v => v
  | None => empty
  end.

(** The five fields of a result record, in the order they are assigned. *)
Definition record_fields : list string :=
  ["filename"; "family"; "vendor"; "fontname"; "cmdlineoptions"].

(** ["-f%s " % f] *)
Definition flag (f : string) : string := ("-f" ++ f ++ " ")%string.

(** The result record made of the new values only. *)
Definition new_record (fr : FontRecord) (name xfam : string)
           (cmdl : list string) : ExplodedRecord :=
  [ ("filename", fr_filename fr);
    ("family", fr_family fr);
    ("vendor", fr_vendor fr);
    ("fontname", l2s (fontname_tokens name xfam cmdl));
    ("cmdlineoptions", concat_all (map flag (tl (s2l xfam) ++ cmdl))) ].

(** Every leaf of the index is a result record: it has the five fields and
    no other. *)
Definition records_ok (ef : ExplodedFonts) : Prop :=
  forall (k1 k2 k3 k4 : string) (leaf : ExplodedRecord),
    get4 k1 k2 k3 k4 ef = Some leaf -> keys leaf = record_fields.

(** A dict holds each key once, and its values satisfy [P]. *)
Definition dict_ok {V : Type} (P : V -> Prop) (d : odict V) : Prop :=
  NoDup (keys d) /\ Forall (fun kv => P (snd kv)) d.

(** Each level of the index holds each of its keys once. *)
Definition unique_keys (ef : ExplodedFonts) : Prop :=
  dict_ok (dict_ok (dict_ok (dict_ok
    (fun leaf : ExplodedRecord => NoDup (keys leaf))))) ef.

(** The state of the index that every insertion keeps. *)
Definition index_ok (ef : ExplodedFonts) : Prop :=
  records_ok ef /\ unique_keys ef.

(** [t not in fakeOptionList] *)
Definition nonfake (t : string) : bool := negb (mem t fakeOptionList).

(** What the loop over a combination keeps true of the identifiers: the
    command-line tokens are real options, and the extended family is the
    family followed by real family-forming options. *)
Definition real_options (family : string) (x : Extended) : Prop :=
  Forall (fun t => nonfake t = true) (cmdlineoptions x)
  /\ exists toks : list string,
      xfamily x = family :: toks
      /\ Forall (fun t => nonfake t = true) toks
      /\ Forall (fun t => In t newFontFamilyOptionList) toks.

(** ** Sample data *)

Definition sample_regular : FontRecord :=
  {| fr_filename := "fonts/MinionPro-Regular.otf";
     fr_family := "Minion Pro";
     fr_subfamily := ["regular"];
     fr_vendor := "adobe";
     fr_opticalSize := [];
     fr_weight := "regular";
     fr_width := "regular";
     fr_variant := "regular";
     fr_features := ["kern"; "liga"; "onum"; "smcp"] |}.

Definition sample_fonthash : Fonthash :=
  [("MinionPro-Regular", sample_regular)].

Definition sample_italic : OtfInfo :=
  {| oi_postScriptName := "MinionPro-It";
     oi_font := "fonts/MinionPro-It.otf";
     oi_family := "Minion Pro";
     oi_subfamily := ["italic"];
     oi_vendor := "adobe";
     oi_opticalSize := [];
     oi_featureLines := ["kern"; "liga"; "onum"; "smcp"] |}.

Definition sample_bold_twice : OtfInfo :=
  {| oi_postScriptName := "Demo-BoldBold";
     oi_font := "fonts/Demo-BoldBold.otf";
     oi_family := "Demo";
     oi_subfamily := ["bold"; "bold"];
     oi_vendor := "generic";
     oi_opticalSize := [];
     oi_featureLines := ["kern"] |}.

Definition sample_classified : ClassifiedFonts :=
  [("Minion Pro",
    [("regular",
      [("regular",
        [("regular", [("MinionPro-Regular", [])])])])])].

(** A classification whose weight key holds a token that has no code. *)
Definition sample_unmapped : ClassifiedFonts :=
  [("Minion Pro",
    [("ultra",
      [("regular",
        [("regular", [("MinionPro-Regular", [])])])])])].

(** * Further parts of the program *)

(** ** Counting separators *)

(** The number of separators in a string. *)
Fixpoint count_sep (s : string) : nat :=
  match s with
  | EmptyString => 0
  | String a r => (if Ascii.eqb a sep_char then 1 else 0) + count_sep r
  end.

(** ** Reading the feature report *)

(** [line[1:4] == "num"] *)
Definition is_num_line (line : string) : bool :=
  String.eqb (substring 1 3 line) "num".

(** A line of ASCII characters: there a byte of the model is a character
    of the Python string, and [substring] slices as Python does. *)
Definition is_ascii (s : string) : bool :=
  forallb (fun a => Nat.ltb (nat_of_ascii a) 128) (list_ascii_of_string s).

(** ** The options of the shipped configuration, by what they do *)

(** The options that name a new font family. *)
Definition familyOptions : list string :=
  ["lnum"; "onum"; "swsh"; "sinf"; "sups"; "pnum"].

(** The options that go on the command line besides the family ones. *)
Definition commandOptions : list string := ["kern"; "liga"; "smcp"].

(** ** The whole run *)

(** The loop [for font in ...: addToFonthash(font)] of the program, on
    the reports of the font files. *)
Definition addFonts (infos : list OtfInfo)
           (st : Fonthash * ClassifiedFonts)
  : result (Fonthash * ClassifiedFonts) :=
  foldM (fun st info => addToFonthash info st) infos st.

(** The program up to the exploded index: all three indices start empty. *)
Definition run (infos : list OtfInfo) : result ExplodedFonts :=
  st <- addFonts infos (empty, empty) ;;
  populateFontDataStructures (fst st) (snd st) empty.

(** A key all of whose tokens are names of one axis. *)
Definition axis_key (names : list string) (s : string) : Prop :=
  Forall (fun t => In t names) (s2l s).

(** Every name is a non-empty token without separator that has a code,
    and only "regular" has the empty code. *)
Definition well_coded (names : list string) : bool :=
  forallb (fun t =>
             truthy t && negb (has_sep t)
             && match get t optionMappings with
                | Some c => String.eqb t "regular" || truthy c
                | None => false
                end) names.

(** What [addToFonthash] keeps true of the two indices it fills: the keys
    of the classification are axis keys, and every classified font has its
    record. *)
Definition classified_ok (fh : Fonthash) (cf : ClassifiedFonts) : Prop :=
  forall (k1 k2 k3 k4 : string) (opticals : Opticals),
    get4 k1 k2 k3 k4 cf = Some opticals ->
    axis_key weightNames k2 /\ axis_key widthNames k3
    /\ axis_key variantNames k4
    /\ Forall (fun font => exists fr, get (fst font) fh = Some fr) opticals.

(** ** Cleaning the subfamily tokens *)

(** [l.index(x)]; [None] stands for the [ValueError] of an absent [x],
    so [index_of x l] is [None] exactly when [x in l] is false. *)
Fixpoint index_of (x : string) (l : list string) : option nat :=
  match l with
  | [] => None
  | y :: r =>
      if String.eqb y x then Some 0
      else match index_of x r with
           | Some i => Some (S i)
           | None => None
           end
  end.

(** [l[i] = v]; [None] stands for the [IndexError] of an [i] out of
    range. *)
Fixpoint set_nth (i : nat) (v : string) (l : list string)
  : option (list string) :=
  match l, i with
  | [], _ => None
  | _ :: r, 0 => Some (v :: r)
  | y :: r, S i' =>
      match set_nth i' v r with
      | Some r' => Some (y :: r')
      | None => None
      end
  end.

(** replace 'roman' with 'regular': the first one only. *)
Definition replace_roman (sub : list string) : list string :=
  if mem "roman" sub then
    match index_of "roman" sub with
    | Some roman_id =>
        match set_nth roman_id "regular" sub with
        | Some sub' => sub'
        | None => sub
        end
    | None => sub
    end
  else sub.

(** How the loop over "extra" ends: with the cleaned tokens, with the
    [IndexError] of [sub[extra_id + 1]], with the [ValueError] of
    [sub.remove("extra")], or with the fuel of the model used up. *)
Inductive loop_end : Type :=
| Finished (sub : list string)
| IndexError
| RemoveError
| OutOfFuel.

(** The loop [while "extra" in sub]: the next token takes the prefix
    "extra" and the first "extra" goes; [sub[extra_id + 1]] raises when
    "extra" is the last token.  [fuel] bounds the number of rounds. *)
Fixpoint extra_loop (fuel : nat) (sub : list string) : loop_end :=
  match index_of "extra" sub with
  | None => Finished sub
  | Some extra_id =>
      match nth_error sub (S extra_id) with
      | None => IndexError
      | Some next =>
          match set_nth (S extra_id) ("extra" ++ next)%string sub with
          | None => IndexError
          | Some sub' =>
              match list_remove "extra" sub' with
              | Err _ => RemoveError
              | Ok sub'' =>
                  match fuel with
                  | 0 => OutOfFuel
                  | S fuel' => extra_loop fuel' sub''
                  end
              end
          end
      end
  end.

(** The tokens of the subfamily as [addToFonthash] stores them, from the
    lowercase tokens of the reported subfamily. *)
Definition clean_subfamily (tokens : list string) : loop_end :=
  let sub := replace_roman tokens in
  extra_loop (length sub) sub.

(** One pass from the left that joins every "extra" to the token after
    it; [None] when an "extra" has no token after it. *)
Fixpoint join_extra (l : list string) : option (list string) :=
  match l with
  | [] => Some []
  | x :: r =>
      if String.eqb x "extra" then
        match r with
        | [] => None
        | y :: r' =>
            match join_extra r' with
            | Some m => Some (("extra" ++ y)%string :: m)
            | None => None
            end
        end
      else
        match join_extra r with
        | Some m => Some (x :: m)
        | None => None
        end
  end.

(** ** Spelling out digits *)

(** [s.replace(old, new)] for a one-character [old]. *)
Fixpoint replace_char (old : ascii) (new : string) (s : string) : string :=
  match s with
  | EmptyString => EmptyString
  | String a r =>
      if Ascii.eqb a old then (new ++ replace_char old new r)%string
      else String a (replace_char old new r)
  end.

Definition letterize (s : string) : string :=
  let s := replace_char "0" "zero" s in
  let s := replace_char "1" "one" s in
  let s := replace_char "2" "two" s in
  let s := replace_char "3" "three" s in
  let s := replace_char "4" "four" s in
  let s := replace_char "5" "five" s in
  let s := replace_char "6" "six" s in
  let s := replace_char "7" "seven" s in
  let s := replace_char "8" "eight" s in
  let s := replace_char "9" "nine" s in
  s.

(** The characters "0" to "9". *)
Definition is_digit (a : ascii) : bool :=
  existsb (Ascii.eqb a)
          ["0"; "1"; "2"; "3"; "4"; "5"; "6"; "7"; "8"; "9"]%char.

(** Some character of the string is a digit. *)
Fixpoint has_digit (s : string) : bool :=
  match s with
  | EmptyString => false
  | String a r => is_digit a || has_digit r
  end.

(** ** Names of the font definition file *)

(** each font has a 3-letter designation *)
Definition berryname : odict string :=
  [ ("Minion Pro", "pmn"); ("Myriad Pro", "pmy");
    ("Adobe Garamond Pro", "pag"); ("Garamond Premier Pro", "pad");
    ("Adobe Caslon Pro", "pac"); ("Adobe Jenson Pro", "paj");
    ("Adobe Text Pro", "ptx"); ("Adobe Monospace", "pt9");
    ("Utopia Std", "put"); ("Warnock Pro", "pwp"); ("Kepler Std", "pkp");
    ("Prestige Elite Std", "ppe");
    ("Calibri", "jk0"); ("Cambria", "jk1"); ("Candara", "jk2");
    ("Consolas", "jk3"); ("Constantia", "jk4"); ("Corbel", "jk5");
    ("MetaPro", "0m2"); ("Arno Pro", "pa0"); ("ScalaSansPro", "0sa");
    ("Hypatia Sans Pro", "phy"); ("ITC Berkeley Oldstyle Std", "iby");
    ("Zapfino Extra LT Pro", "lzf"); ("Bickham Script Std", "pik");
    ("CaslonAntique", "9ca"); ("FlemishScript BT", "bf0");
    ("Liberation Sans", "fla"); ("Liberation Serif", "flr");
    ("Liberation Mono", "flm"); ("Montag", "fm9");
    ("Times NR MT Std", "mnt"); ("Bree", "fe3"); ("Ronnia", "fr5");
    ("Sabon LT Std", "lsb"); ("Inconsolata", "fi4");
    ("Inconsolata XL", "fix"); ("Hack", "fhk"); ("QuioscoOne", "fq1");
    ("TeX Gyre Bonum", "qbk"); ("TeX Gyre Pagella", "qpl");
    ("TeX Gyre Termes", "qtm"); ("TeX Gyre Heros", "qhv");
    ("TeX Gyre Heros Cn", "qhx"); ("TeX Gyre Cursor", "qcr");
    ("TeX Gyre Schola", "qcs"); ("TeX Gyre Adventor", "qag");
    ("TeX Gyre Chorus", "qzc") ].

(** [s.lower()] on the letters A to Z; the program applies it to the
    configured [encoding] only. *)
Definition lower_char (a : ascii) : ascii :=
  let n := nat_of_ascii a in
  if Nat.leb 65 n && Nat.leb n 90 then ascii_of_nat (n + 32) else a.

Fixpoint lower (s : string) : string :=
  match s with
  | EmptyString => EmptyString
  | String a r => String (lower_char a) (lower r)
  end.

Definition newline : string := String (ascii_of_nat 10) "".

(** What the program writes to the error stream before it exits. *)
Definition berry_error (fontbase : string) : string :=
  ("Error: The three-letter Berry ID for font '" ++ fontbase
   ++ "' must be" ++ newline
   ++ "  added to the 'berryname' hash. Please add it as '" ++ fontbase
   ++ "': 'xxx'," ++ newline
   ++ "  replacing 'xxx' with the three-letter Berry ID." ++ newline)%string.

(** How the head of the loop of [generateFDandSTY] ends for one key of
    [explodedFonts]: with the font name and the base name of the .fd
    file, with the [IndexError] of [s2l(family)[0]], with [sys.exit()]
    after the message, or with the exception of a table lookup. *)
Inductive fd_end : Type :=
| FdNames (fontname fdfilebase : string)
| FdIndexError
| FdExit (message : string)
| FdRaised (e : exn).

Definition fdNames (family : string) : fd_end :=
  match s2l family with
  | [] => FdIndexError
  | fontbase :: fontoptions =>
      match get fontbase berryname with
      | None => FdExit (berry_error fontbase)
      | Some berry =>
          match append_codes berry fontoptions with
          | Ok fontname => FdNames fontname (lower encoding ++ fontname)
          | Err e => FdRaised e
          end
      end
  end.

(** The exploded family keys of the known families: the family alone, or
    the family and one family option. *)
Definition family_keys : list (string * list string) :=
  flat_map (fun base =>
              map (fun toks => (base, toks))
                  ([] :: map (fun t => [t]) familyOptions))
           (keys berryname).

(** The font name of a key, the empty string when there is none. *)
Definition fd_fontname (family : string) : string :=
  match fdNames family with
  | FdNames fontname _ => fontname
  | _ => ""
  end.

(** No string occurs twice. *)
Fixpoint distinct (l : list string) : bool :=
  match l with
  | [] => true
  | x :: r => negb (mem x r) && distinct r
  end.

(** ** Substitutions in the font definition file *)

(** [list(explodedFonts[family][se].keys())]: the shapes of a series. *)
Definition shapes_of {V : Type} (se : string) (fam : odict (odict V))
  : list string :=
  keys (getd se fam).

(** One substituted font shape: the series and shape that are declared,
    and the series and shape that stand in for them. *)
Record Substitution : Type := mkSubstitution {
  new_series : string;
  new_shape : string;
  old_series : string;
  old_shape : string
}.

(** The three lines printed for one substitution. *)
Definition declare_substitution (fontname : string) (s : Substitution)
  : list string :=
  [ ("\DeclareFontShape{" ++ encoding ++ "}{" ++ fontname ++ "}{"
     ++ new_series s ++ "}{" ++ new_shape s ++ "}{")%string;
    ("  <->  sub * " ++ fontname ++ "/" ++ old_series s ++ "/"
     ++ old_shape s)%string;
    "}{}" ].

(** substitutes slanted with italic if slanted not available, and italic
    with slanted if italic not available; [sh] is (replacement, old). *)
Definition slant_substitutions {V : Type} (fam : odict (odict V))
  : list Substitution :=
  flat_map (fun sh : string * string =>
              flat_map (fun se =>
                          if mem (fst sh) (shapes_of se fam)
                             && negb (mem (snd sh) (shapes_of se fam))
                          then [mkSubstitution se (snd sh) se (fst sh)]
                          else [])
                       (keys fam))
           [("sl", "it"); ("it", "sl")].

(** substitutes bold extended with bold if bold extended not available *)
Definition bold_substitutions {V : Type} (fam : odict (odict V))
  : list Substitution :=
  if mem "b" (keys fam) && negb (mem "bx" (keys fam)) then
    map (fun sh => mkSubstitution "bx" sh "b" sh) (shapes_of "b" fam)
    ++ (if mem "it" (shapes_of "b" fam) && negb (mem "sl" (shapes_of "b" fam))
        then [mkSubstitution "bx" "sl" "b" "it"]
        else [])
  else [].

(** if there's sb but no b or bx, use sb in place of b and bx *)
Definition semibold_substitutions {V : Type} (fam : odict (odict V))
  : list Substitution :=
  if mem "sb" (keys fam) && negb (mem "b" (keys fam))
     && negb (mem "bx" (keys fam))
  then flat_map (fun bbx =>
                   map (fun sh => mkSubstitution bbx sh "sb" sh)
                       (shapes_of "sb" fam))
                ["b"; "bx"]
  else [].

(** The substitutions of one family, in the order they are printed. *)
Definition substitutions {V : Type} (fam : odict (odict V))
  : list Substitution :=
  slant_substitutions fam ++ bold_substitutions fam
  ++ semibold_substitutions fam.

(** The lines that the rest of the fd part prints for one family. *)
Definition fd_substitution_lines {V : Type} (fontname : string)
           (fam : odict (odict V)) : list string :=
  flat_map (declare_substitution fontname) (substitutions fam).

(** The series and shape that a substitution declares. *)
Definition declared (s : Substitution) : string * string :=
  (new_series s, new_shape s).

(** ** The loops of the exploder, level by level *)

(** [for font in classifiedFonts[family][weight][width][variant]] *)
Definition explodeFonts (fonthash : Fonthash)
           (weight width variant : string) (opticals : Opticals)
           (ef : ExplodedFonts) : result ExplodedFonts :=
  foldM (explodeFont fonthash weight width variant) opticals ef.

Definition explodeVariants (fonthash : Fonthash) (weight width : string)
           (byVariant : odict Opticals) (ef : ExplodedFonts)
  : result ExplodedFonts :=
  for_keys byVariant
           (fun ef variant opticals =>
              explodeFonts fonthash weight width variant opticals ef) ef.

Definition explodeWidths (fonthash : Fonthash) (weight : string)
           (byWidth : odict (odict Opticals)) (ef : ExplodedFonts)
  : result ExplodedFonts :=
  for_keys byWidth
           (fun ef width byVariant =>
              explodeVariants fonthash weight width byVariant ef) ef.

Definition explodeWeights (fonthash : Fonthash)
           (byWeight : odict (odict (odict Opticals))) (ef : ExplodedFonts)
  : result ExplodedFonts :=
  for_keys byWeight
           (fun ef weight byWidth =>
              explodeWidths fonthash weight byWidth ef) ef.

(** The index has a record at a key. *)
Definition has_record (j1 j2 j3 j4 : string) (ef : ExplodedFonts) : Prop :=
  exists leaf, get4 j1 j2 j3 j4 ef = Some leaf /\ keys leaf = record_fields.

(** Every leaf of the index is the record of one insertion: its key and
    its five fields are those of one combination of one font of
    [fonthash], none is left from another insertion. *)
Definition whole_records (fonthash : Fonthash) (ef : ExplodedFonts) : Prop :=
  forall (k1 k2 k3 k4 : string) (leaf : ExplodedRecord),
    get4 k1 k2 k3 k4 ef = Some leaf ->
    exists (name : string) (fr : FontRecord) (weight width variant : string)
           (o : list string),
      get name fonthash = Some fr
      /\ k1 = l2s (xfamily (applyOptions (fr_family fr) weight width variant o))
      /\ buildSeries
           (xweight (applyOptions (fr_family fr) weight width variant o))
           (xwidth (applyOptions (fr_family fr) weight width variant o))
         = Ok k2
      /\ buildShape
           (xvariant (applyOptions (fr_family fr) weight width variant o))
         = Ok k3
      /\ k4 = l2s (fr_opticalSize fr)
      /\ leaf
         = new_record fr name k1
             (cmdlineoptions
                (applyOptions (fr_family fr) weight width variant o)).

(** Exploding one font keeps [Q] true of the index. *)
Definition kept (fonthash : Fonthash) (Q : ExplodedFonts -> Prop) : Prop :=
  forall (weight width variant : string) (ef ef' : ExplodedFonts)
         (font : string * list string),
    Q ef -> explodeFont fonthash weight width variant ef font = Ok ef' ->
    Q ef'.

(** ** Reading the reports of otfinfo *)

(** A line of [otfinfo --info] as [addToFonthash] sees it.  What the
    regular expressions of the program find in the line is part of the
    input: the value of a family line, the lowercase tokens of a subfamily
    line (after the split at case changes), and for a vendor line the
    domain name [urlRE] finds in the address, if it finds one. *)
Inductive InfoLine : Type :=
| FamilyLine (value : string)
| SubfamilyLine (tokens : list string)
| VendorLine (found : option string)
| OtherLine.

(** The report of [otfinfo --optical-size]: no size range; a range, given
    by the two strings [str(float(..) + 0.1)]; or a range one of whose
    numbers [float] does not take. *)
Inductive OpticalReport : Type :=
| NoRange
| Range (low high : string)
| BadRange.

(** The reports of otfinfo on one font file. *)
Record Report : Type := mkReport {
  rp_postScriptName : string;
  rp_font : string;
  rp_info : list InfoLine;
  rp_optical : OpticalReport;
  rp_featureLines : list string
}.

(** The exceptions a run can end with: those of [exn], the
    [AttributeError] of [urlRE.search(..).group(1)] where nothing is
    found, the [ValueError] of [float], and the ends of the loop over
    "extra" other than the normal one. *)
Inductive raised : Type :=
| Raised (e : exn)
| AttributeError
| FloatError
| CleaningError (e : loop_end).

Inductive outcome (A : Type) : Type :=
| Done (a : A)
| Failed (e : raised).

Arguments Done {A} a.
Arguments Failed {A} e.

Definition lift {A : Type} (r : result A) : outcome A :=
  match r with
  | Ok a => Done a
  | Err e => Failed (Raised e)
  end.

(** The loop over the lines of [otfinfo --info]: the last family line and
    the last subfamily line count; every subfamily line is cleaned, every
    vendor line searched. *)
Fixpoint info_loop (lines : list InfoLine) (family : option string)
         (subfamily : option (list string)) (vendor : option string)
  : outcome (option string * option (list string) * option string) :=
  match lines with
  | [] => Done (family, subfamily, vendor)
  | FamilyLine value :: r => info_loop r (Some value) subfamily vendor
  | SubfamilyLine tokens :: r =>
      match clean_subfamily tokens with
      | Finished sub => info_loop r family (Some sub) vendor
      | e => Failed (CleaningError e)
      end
  | VendorLine (Some v) :: r => info_loop r family subfamily (Some v)
  | VendorLine None :: _ => Failed AttributeError
  | OtherLine :: r => info_loop r family subfamily vendor
  end.

(** The part of [addToFonthash] before the axis lists are filled: it
    raises where a line cannot be read; the vendor defaults to "generic";
    a record without subfamily raises [KeyError] at the loop over the
    subfamily, one without family at [classifyFont]. *)
Definition readReport (r : Report) : outcome OtfInfo :=
  match info_loop (rp_info r) None None None with
  | Failed e => Failed e
  | Done (family, subfamily, vendor) =>
      let vendor := match vendor with
                    | Some v => v
                    | None => "generic"
                    end in
      match rp_optical r with
      | BadRange => Failed FloatError
      | optical =>
          let opticalSize := match optical with
                             | Range low high => [low; high]
                             | _ => []
                             end in
          match subfamily with
          | None => Failed (Raised (KeyError "subfamily"))
          | Some sub =>
              match family with
              | None => Failed (Raised (KeyError "family"))
              | Some fam =>
                  Done {| oi_postScriptName := rp_postScriptName r;
                          oi_font := rp_font r;
                          oi_family := fam;
                          oi_subfamily := sub;
                          oi_vendor := vendor;
                          oi_opticalSize := opticalSize;
                          oi_featureLines := rp_featureLines r |}
              end
          end
      end
  end.

(** [addToFonthash(font)] from the reports of otfinfo on the font. *)
Definition addReport (r : Report) (st : Fonthash * ClassifiedFonts)
  : outcome (Fonthash * ClassifiedFonts) :=
  match readReport r with
  | Done info => lift (addToFonthash info st)
  | Failed e => Failed e
  end.

(** The loop [for font in ...: addToFonthash(font)]: the first exception
    ends it. *)
Fixpoint addReports (reports : list Report)
         (st : Fonthash * ClassifiedFonts)
  : outcome (Fonthash * ClassifiedFonts) :=
  match reports with
  | [] => Done st
  | r :: rest =>
      match addReport r st with
      | Done st' => addReports rest st'
      | Failed e => Failed e
      end
  end.

(** The program up to the exploded index, from the reports of otfinfo:
    all three indices start empty. *)
Definition runReports (reports : list Report) : outcome ExplodedFonts :=
  match addReports reports (empty, empty) with
  | Done st => lift (populateFontDataStructures (fst st) (snd st) empty)
  | Failed e => Failed e
  end.

(** A line that is read without exception: a subfamily line whose
    cleaning ends normally, a vendor line in which a domain is found, any
    other line. *)
Definition line_ok (l : InfoLine) : Prop :=
  match l with
  | SubfamilyLine tokens => exists sub, clean_subfamily tokens = Finished sub
  | VendorLine found => found <> None
  | _ => True
  end.

(** A report that [addToFonthash] reads without exception: every line is
    read, there is a family line and a subfamily line, and the numbers of
    the optical range, if any, are numbers. *)
Definition readable (r : Report) : Prop :=
  Forall line_ok (rp_info r)
  /\ (exists value, In (FamilyLine value) (rp_info r))
  /\ (exists tokens, In (SubfamilyLine tokens) (rp_info r))
  /\ rp_optical r <> BadRange.

(** ** The key of a font record in the classification *)

(** The four keys under which [classifyFont] files a record. *)
Definition class_key (fr : FontRecord)
  : string * string * string * string :=
  (fr_family fr, fr_weight fr, fr_width fr, fr_variant fr).

(** The list the classification holds under the key of a record, the
    empty list where a level is missing. *)
Definition classified_under (fr : FontRecord) (cf : ClassifiedFonts)
  : Opticals :=
  match get4 (fr_family fr) (fr_weight fr) (fr_width fr) (fr_variant fr)
             cf with
  | Some l => l
  | None => []
  end.

(** ** More sample data *)

(** A family with a medium and a bold series, upright and italic. *)
Definition sample_family : odict (odict (odict ExplodedRecord)) :=
  [ ("m", [("n", empty); ("it", empty)]);
    ("b", [("n", empty); ("it", empty)]) ].

Definition sample_bold : OtfInfo :=
  {| oi_postScriptName := "MinionPro-Bold";
     oi_font := "fonts/MinionPro-Bold.otf";
     oi_family := "Minion Pro";
     oi_subfamily := ["bold"];
     oi_vendor := "adobe";
     oi_opticalSize := [];
     oi_featureLines := ["kern"; "liga"; "onum"; "smcp"] |}.

(** A second font of the family "Minion Pro" with the same weight, width,
    variant and optical range as [sample_regular]. *)
Definition sample_display : FontRecord :=
  {| fr_filename := "fonts/MinionPro-Disp.otf";
     fr_family := "Minion Pro";
     fr_subfamily := ["regular"];
     fr_vendor := "adobe";
     fr_opticalSize := [];
     fr_weight := "regular";
     fr_width := "regular";
     fr_variant := "regular";
     fr_features := ["kern"; "liga"; "onum"; "smcp"] |}.

Definition sample_two_fonts : Fonthash :=
  [("MinionPro-Regular", sample_regular); ("MinionPro-Disp", sample_display)].

(** Both fonts classified under one key, "MinionPro-Disp" last. *)
Definition sample_two_classified : ClassifiedFonts :=
  [("Minion Pro",
    [("regular",
      [("regular",
        [("regular",
          [("MinionPro-Regular", []); ("MinionPro-Disp", [])])])])])].

(** A report whose feature lines are as otfinfo prints them: the tag, a
    tab and the description. *)
Definition sample_report : OtfInfo :=
  {| oi_postScriptName := "MinionPro-Regular";
     oi_font := "fonts/MinionPro-Regular.otf";
     oi_family := "Minion Pro";
     oi_subfamily := ["regular"];
     oi_vendor := "adobe";
     oi_opticalSize := [];
     oi_featureLines :=
       [ ("kern" ++ String (ascii_of_nat 9) "Kerning")%string;
         ("onum" ++ String (ascii_of_nat 9) "Oldstyle Figures")%string;
         ("smcp" ++ String (ascii_of_nat 9) "Small Capitals")%string ] |}.

(** A second report with the PostScript name of [sample_italic], for
    another weight and optical range. *)
Definition sample_italic_bold : OtfInfo :=
  {| oi_postScriptName := "MinionPro-It";
     oi_font := "fonts/bold/MinionPro-It.otf";
     oi_family := "Minion Pro";
     oi_subfamily := ["bold"; "italic"];
     oi_vendor := "adobe";
     oi_opticalSize := ["6.1"; "8.5"];
     oi_featureLines := ["kern"; "liga"] |}.

(** A second report with the PostScript name and the subfamily of
    [sample_italic], for another file and optical range. *)
Definition sample_italic_caption : OtfInfo :=
  {| oi_postScriptName := "MinionPro-It";
     oi_font := "fonts/caption/MinionPro-It.otf";
     oi_family := "Minion Pro";
     oi_subfamily := ["italic"];
     oi_vendor := "adobe";
     oi_opticalSize := ["6.1"; "8.5"];
     oi_featureLines := ["kern"; "liga"] |}.

(** The reports of otfinfo on an italic font. *)
Definition sample_reports : Report :=
  {| rp_postScriptName := "MinionPro-It";
     rp_font := "fonts/MinionPro-It.otf";
     rp_info := [ FamilyLine "Minion Pro"; SubfamilyLine ["italic"];
                  OtherLine; VendorLine (Some "adobe") ];
     rp_optical := NoRange;
     rp_featureLines := ["kern"; "liga"; "onum"; "smcp"] |}.

(** The same reports with a vendor address in which [urlRE] finds no
    domain. *)
Definition sample_reports_no_domain : Report :=
  {| rp_postScriptName := "MinionPro-It";
     rp_font := "fonts/MinionPro-It.otf";
     rp_info := [ FamilyLine "Minion Pro"; SubfamilyLine ["italic"];
                  OtherLine; VendorLine None ];
     rp_optical := NoRange;
     rp_featureLines := ["kern"; "liga"; "onum"; "smcp"] |}.

(** A font without numeral feature: its record holds "fakenum". *)
Definition sample_plain : FontRecord :=
  {| fr_filename := "fonts/Demo-Regular.otf";
     fr_family := "Demo";
     fr_subfamily := ["regular"];
     fr_vendor := "generic";
     fr_opticalSize := [];
     fr_weight := "regular";
     fr_width := "regular";
     fr_variant := "regular";
     fr_features := ["kern"; "liga"; "fakenum"] |}.

Definition sample_plain_fonts : Fonthash := [("Demo-Regular", sample_plain)].

(** The report that gives the record [sample_plain]. *)
Definition sample_plain_info : OtfInfo :=
  {| oi_postScriptName := "Demo-Regular";
     oi_font := "fonts/Demo-Regular.otf";
     oi_family := "Demo";
     oi_subfamily := ["regular"];
     oi_vendor := "generic";
     oi_opticalSize := [];
     oi_featureLines := ["kern"; "liga"] |}.

(** The reports that give the records [sample_regular] and
    [sample_display]. *)
Definition sample_regular_info : OtfInfo :=
  {| oi_postScriptName := "MinionPro-Regular";
     oi_font := "fonts/MinionPro-Regular.otf";
     oi_family := "Minion Pro";
     oi_subfamily := ["regular"];
     oi_vendor := "adobe";
     oi_opticalSize := [];
     oi_featureLines := ["kern"; "liga"; "onum"; "smcp"] |}.

Definition sample_display_info : OtfInfo :=
  {| oi_postScriptName := "MinionPro-Disp";
     oi_font := "fonts/MinionPro-Disp.otf";
     oi_family := "Minion Pro";
     oi_subfamily := ["regular"];
     oi_vendor := "adobe";
     oi_opticalSize := [];
     oi_featureLines := ["kern"; "liga"; "onum"; "smcp"] |}.
(** * Properties *)

(** ** Facts about the primitives *)

Lemma mem_In (x : string) (l : list string) : mem x l = true <-> In x l.
Proof.
  induction l as [|y r IH]; simpl.
  - split; [discriminate | tauto].
  - destruct (String.eqb_spec x y) as [->|Hne].
    + split; auto.
    + rewrite IH. split; [auto | intros [H|H]; [congruence | exact H]].
Qed.

Lemma mem_false_In (x : string) (l : list string) :
  mem x l = false <-> ~ In x l.
Proof.
  rewrite <- mem_In. destruct (mem x l); split; congruence.
Qed.

Lemma mem_app (x : string) (l1 l2 : list string) :
  mem x (l1 ++ l2) = mem x l1 || mem x l2.
Proof.
  induction l1 as [|y r IH]; simpl; [reflexivity|].
  destruct (String.eqb x y); [reflexivity | exact IH].
Qed.

Lemma split_not_nil (c : ascii) (s : string) : split c s <> [].
Proof.
  induction s as [|a r IH]; simpl; [discriminate|].
  destruct (Ascii.eqb a c); [discriminate|].
  destruct (split c r); [congruence | discriminate].
Qed.

Lemma split_no_sep (s : string) :
  has_sep s = false -> split sep_char s = [s].
Proof.
  induction s as [|a r IH]; simpl; [reflexivity|].
  intros H. apply orb_false_iff in H as [Ha Hr].
  rewrite Ha, (IH Hr). reflexivity.
Qed.

Lemma split_app_sep (x rest : string) :
  has_sep x = false ->
  split sep_char (x ++ sep ++ rest)%string = x :: split sep_char rest.
Proof.
  induction x as [|a r IH]; intros H.
  - reflexivity.
  - simpl in H. apply orb_false_iff in H as [Ha Hr].
    cbn [String.append split]. rewrite Ha, (IH Hr). reflexivity.
Qed.

Lemma split_join (l : list string) :
  l <> [] -> Forall (fun x => has_sep x = false) l ->
  split sep_char (join sep l) = l.
Proof.
  induction l as [|x r IH]; intros Hne Hall; [congruence|].
  inversion Hall as [|? ? Hx Hr]; subst.
  destruct r as [|y r'].
  - simpl. apply split_no_sep; assumption.
  - change (join sep (x :: y :: r'))
      with (x ++ sep ++ join sep (y :: r'))%string.
    rewrite split_app_sep by assumption.
    rewrite IH; [reflexivity | discriminate | assumption].
Qed.

Lemma truthy_app_l (x y : string) : truthy x = true -> truthy (x ++ y) = true.
Proof. destruct x; simpl; [discriminate | reflexivity]. Qed.

Lemma truthy_join_head (x : string) (r : list string) :
  truthy x = true -> truthy (join sep (x :: r)) = true.
Proof.
  intros Hx. destruct r; simpl; [exact Hx | apply truthy_app_l; exact Hx].
Qed.

(** The round trip only needs the first token non-empty. *)
Lemma s2l_l2s_head (x : string) (r : list string) :
  truthy x = true -> Forall (fun t => has_sep t = false) (x :: r) ->
  s2l (l2s (x :: r)) = x :: r.
Proof.
  intros Hx Hall. unfold s2l, l2s.
  rewrite truthy_join_head by exact Hx.
  apply split_join; [discriminate | exact Hall].
Qed.

(** C10. For every list [l] of non-empty strings none of which contains the
    separator "-", [s2l (l2s l) = l]; moreover [s2l "" = []] and
    [l2s [] = ""], so the empty string and the empty token list round-trip
    to each other. *)
Theorem s2l_l2s_roundtrip :
  (forall l : list string,
      Forall (fun t => t <> "" /\ has_sep t = false) l ->
      s2l (l2s l) = l)
  /\ s2l "" = []
  /\ l2s [] = "".
Proof.
  split; [|split; reflexivity].
  intros l Hall. destruct l as [|x r]; [reflexivity|].
  apply s2l_l2s_head.
  - inversion Hall as [|? ? [Hx _] _]; subst.
    destruct x; [congruence | reflexivity].
  - eapply Forall_impl; [|exact Hall]. intros t [_ H]; exact H.
Qed.

Lemma s2l_l2s_roundtrip_witness :
  Forall (fun t => t <> "" /\ has_sep t = false) ["bold"; "extended"]
  /\ s2l (l2s ["bold"; "extended"]) = ["bold"; "extended"].
Proof.
  assert (H : Forall (fun t => t <> "" /\ has_sep t = false)
                     ["bold"; "extended"]).
  { repeat constructor; discriminate. }
  split; [exact H | exact (proj1 s2l_l2s_roundtrip _ H)].
Defined.

(** ** Facts about dictionaries *)

Lemma get_set_same {V : Type} (k : string) (v : V) (d : odict V) :
  get k (set k v d) = Some v.
Proof.
  induction d as [|[k' v'] r IH]; simpl.
  - rewrite String.eqb_refl. reflexivity.
  - destruct (String.eqb k k') eqn:E; simpl; rewrite E; auto.
Qed.

Lemma get_set_other {V : Type} (k k0 : string) (v : V) (d : odict V) :
  k0 <> k -> get k0 (set k v d) = get k0 d.
Proof.
  intros Hne. induction d as [|[k' v'] r IH]; simpl.
  - apply String.eqb_neq in Hne. rewrite Hne. reflexivity.
  - destruct (String.eqb_spec k k') as [->|Hk]; simpl.
    + apply String.eqb_neq in Hne. rewrite Hne. reflexivity.
    + rewrite IH. reflexivity.
Qed.

Lemma get_None_keys {V : Type} (k : string) (d : odict V) :
  get k d = None <-> ~ In k (keys d).
Proof.
  induction d as [|[k' v'] r IH]; simpl.
  - tauto.
  - destruct (String.eqb_spec k k') as [->|Hk].
    + split; [discriminate | intros H; exfalso; apply H; auto].
    + rewrite IH. split; [intros H [E|E]; [congruence | tauto] | tauto].
Qed.

Lemma keys_set_present {V : Type} (k : string) (v : V) (d : odict V) :
  In k (keys d) -> keys (set k v d) = keys d.
Proof.
  induction d as [|[k' v'] r IH]; simpl; [tauto|].
  intros H. destruct (String.eqb_spec k k') as [->|Hk]; simpl.
  - reflexivity.
  - f_equal. apply IH. destruct H; [congruence | assumption].
Qed.

Lemma keys_set_absent {V : Type} (k : string) (v : V) (d : odict V) :
  ~ In k (keys d) -> keys (set k v d) = keys d ++ [k].
Proof.
  induction d as [|[k' v'] r IH]; simpl; [reflexivity|].
  intros H. destruct (String.eqb_spec k k') as [->|Hk]; simpl.
  - exfalso; apply H; auto.
  - f_equal. apply IH. tauto.
Qed.

Lemma keys_set_incl {V : Type} (k k0 : string) (v : V) (d : odict V) :
  In k0 (keys (set k v d)) <-> k0 = k \/ In k0 (keys d).
Proof.
  induction d as [|[k' v'] r IH]; simpl.
  - intuition congruence.
  - destruct (String.eqb_spec k k') as [->|Hk]; simpl.
    + intuition congruence.
    + rewrite IH. intuition congruence.
Qed.

Lemma NoDup_keys_set {V : Type} (k : string) (v : V) (d : odict V) :
  NoDup (keys d) -> NoDup (keys (set k v d)).
Proof.
  induction d as [|[k' v'] r IH]; simpl; intros H.
  - constructor; [simpl; tauto | constructor].
  - inversion H as [|? ? Hn Hr]; subst.
    destruct (String.eqb_spec k k') as [->|Hk]; simpl.
    + constructor; assumption.
    + constructor; [|apply IH; assumption].
      change (~ In k' (keys (set k v r))).
      rewrite keys_set_incl. intros [E|E]; [congruence | tauto].
Qed.

Lemma get_upd_same {V : Type} (k : string) (dflt : V) (f : V -> V)
      (d : odict V) :
  get k (upd k dflt f d)
  = Some (f (match get k d with Some v => v | None => dflt end)).
Proof.
  unfold upd. destruct (get k d); apply get_set_same.
Qed.

Lemma get_upd_other {V : Type} (k k0 : string) (dflt : V) (f : V -> V)
      (d : odict V) :
  k0 <> k -> get k0 (upd k dflt f d) = get k0 d.
Proof.
  intros H. unfold upd. destruct (get k d); apply get_set_other; exact H.
Qed.

Lemma NoDup_keys_upd {V : Type} (k : string) (dflt : V) (f : V -> V)
      (d : odict V) :
  NoDup (keys d) -> NoDup (keys (upd k dflt f d)).
Proof.
  intros H. unfold upd. destruct (get k d); apply NoDup_keys_set; exact H.
Qed.

(** ** [unique] keeps the first occurrence of every token *)

Lemma unique_loop_fresh (s u ss : list string) :
  unique_loop s u ss = ss ++ fresh_tokens u s.
Proof.
  revert u ss. induction s as [|x r IH]; intros u ss; simpl.
  - rewrite app_nil_r. reflexivity.
  - destruct (mem x u).
    + apply IH.
    + rewrite IH, <- app_assoc. reflexivity.
Qed.

Lemma unique_fresh (s : list string) : unique s = fresh_tokens [] s.
Proof. unfold unique. rewrite unique_loop_fresh. reflexivity. Qed.

Lemma fresh_tokens_In (seen s : list string) (x : string) :
  In x (fresh_tokens seen s) <-> In x s /\ ~ In x seen.
Proof.
  revert seen. induction s as [|y r IH]; intros seen; simpl.
  - tauto.
  - destruct (mem y seen) eqn:E.
    + apply mem_In in E. rewrite IH. split.
      * tauto.
      * intros [[->|H] Hn]; tauto.
    + apply mem_false_In in E. simpl. rewrite IH, in_app_iff. simpl.
      destruct (String.eqb_spec y x) as [->|Hne]; intuition congruence.
Qed.

Lemma fresh_tokens_NoDup (seen s : list string) :
  NoDup (fresh_tokens seen s).
Proof.
  revert seen. induction s as [|y r IH]; intros seen; simpl.
  - constructor.
  - destruct (mem y seen); [apply IH|].
    constructor; [|apply IH].
    rewrite fresh_tokens_In, in_app_iff. simpl. tauto.
Qed.

Lemma unique_In (s : list string) (x : string) : In x (unique s) <-> In x s.
Proof. rewrite unique_fresh, fresh_tokens_In. simpl. tauto. Qed.

Lemma unique_NoDup (s : list string) : NoDup (unique s).
Proof. rewrite unique_fresh. apply fresh_tokens_NoDup. Qed.

Lemma unique_Forall (P : string -> Prop) (s : list string) :
  Forall P s -> Forall P (unique s).
Proof.
  rewrite !Forall_forall. intros H x Hx. apply H, unique_In, Hx.
Qed.

(** ** Tokens produced by [s2l] never contain the separator *)

Lemma split_pieces_no_sep (s : string) :
  Forall (fun t => has_sep t = false) (split sep_char s).
Proof.
  induction s as [|a r IH]; simpl.
  - repeat constructor.
  - destruct (Ascii.eqb a sep_char) eqn:E.
    + constructor; [reflexivity | exact IH].
    + destruct (split sep_char r) as [|h t].
      * repeat constructor. simpl. rewrite E. reflexivity.
      * inversion IH; subst. constructor; [|assumption].
        simpl. rewrite E. assumption.
Qed.

Lemma s2l_no_sep (s : string) : Forall (fun t => has_sep t = false) (s2l s).
Proof.
  unfold s2l. destruct (truthy s); [apply split_pieces_no_sep | constructor].
Qed.

Lemma has_sep_app (x y : string) :
  has_sep (x ++ y) = has_sep x || has_sep y.
Proof.
  induction x as [|a r IH]; simpl; [reflexivity|].
  rewrite IH, orb_assoc. reflexivity.
Qed.

(** A joined list is the single token "regular" only for the list
    ["regular"]. *)
Lemma l2s_regular (l : list string) :
  Forall (fun t => has_sep t = false) l ->
  (String.eqb (l2s l) "regular" = true <-> l = ["regular"]).
Proof.
  intros Hall. rewrite String.eqb_eq. unfold l2s. split.
  - destruct l as [|x [|y r]].
    + discriminate.
    + simpl. intros ->. reflexivity.
    + intros H. exfalso.
      assert (Hs : has_sep (join sep (x :: y :: r)) = true).
      { change (join sep (x :: y :: r))
          with (x ++ sep ++ join sep (y :: r))%string.
        rewrite !has_sep_app. simpl. apply orb_true_r. }
      rewrite H in Hs. discriminate.
  - intros ->. reflexivity.
Qed.

Lemma no_sep_series (weight width : string) :
  Forall (fun t => has_sep t = false) (unique (s2l weight ++ s2l width)).
Proof.
  apply unique_Forall, Forall_app. split; apply s2l_no_sep.
Qed.

Lemma no_sep_shape (variant : string) :
  Forall (fun t => has_sep t = false) (unique (s2l variant)).
Proof. apply unique_Forall, s2l_no_sep. Qed.

(** The reserved answer of both builders. *)
Lemma reserved_test (l : list string) :
  Forall (fun t => has_sep t = false) l ->
  (String.eqb (l2s l) "regular" || is_nil l = true
   <-> l = [] \/ l = ["regular"]).
Proof.
  intros Hall. rewrite orb_true_iff, (l2s_regular l Hall).
  destruct l; simpl; intuition congruence.
Qed.

(** ** The code-appending loop *)

Lemma append_assoc (a b c : string) :
  ((a ++ b) ++ c = a ++ (b ++ c))%string.
Proof.
  induction a as [|x a IH]; simpl; [reflexivity | rewrite IH; reflexivity].
Qed.

Lemma append_codes_all (opts cs : list string) (acc : string) :
  Forall2 (fun t c => get t optionMappings = Some c) opts cs ->
  append_codes acc opts = Ok (acc ++ concat_all cs)%string.
Proof.
  intros H. revert acc. induction H as [|t c opts cs Ht _ IH]; intros acc.
  - simpl. f_equal. induction acc as [|x a IHa]; simpl; congruence.
  - simpl. unfold getitem. rewrite Ht. simpl. rewrite IH, append_assoc.
    reflexivity.
Qed.



(** ** [list.remove] on a duplicate-free list *)

Lemma filter_absent (x : string) (l : list string) :
  ~ In x l -> filter (fun t => negb (String.eqb x t)) l = l.
Proof.
  induction l as [|y r IH]; simpl; intros H; [reflexivity|].
  destruct (String.eqb_spec x y) as [->|Hne]; simpl.
  - exfalso. apply H. auto.
  - rewrite IH; [reflexivity | tauto].
Qed.

Lemma list_remove_NoDup (x : string) (l : list string) :
  NoDup l -> In x l ->
  list_remove x l = Ok (filter (fun t => negb (String.eqb x t)) l).
Proof.
  induction l as [|y r IH]; simpl; intros Hnd Hin; [tauto|].
  inversion Hnd as [|? ? Hy Hr]; subst.
  destruct (String.eqb_spec x y) as [->|Hne]; simpl.
  - rewrite filter_absent by assumption. reflexivity.
  - rewrite IH; [reflexivity | assumption | destruct Hin; congruence].
Qed.


Lemma filter_twice (f g : string -> bool) (l : list string) :
  filter f (filter g l) = filter (fun t => g t && f t) l.
Proof.
  induction l as [|y r IH]; simpl; [reflexivity|].
  destruct (g y); simpl; [destruct (f y)|]; rewrite IH; reflexivity.
Qed.

(** With both "italic" and "smcp" present, the two removals leave the
    other tokens, in their order. *)
Lemma remove_italic_smcp (shapeopts : list string) :
  NoDup shapeopts -> In "italic" shapeopts -> In "smcp" shapeopts ->
  (l1 <- list_remove "italic" shapeopts ;;
   l2 <- list_remove "smcp" l1 ;;
   Ok (l2, "si")) = Ok (other_tokens shapeopts, "si").
Proof.
  intros Hnd Hi Hs.
  rewrite (list_remove_NoDup "italic" shapeopts Hnd Hi). cbn [bind].
  rewrite list_remove_NoDup.
  - cbn [bind]. rewrite filter_twice. unfold other_tokens. do 2 f_equal.
    apply filter_ext. intros t. cbn [mem].
    rewrite (String.eqb_sym t "italic"), (String.eqb_sym t "smcp").
    destruct (String.eqb "italic" t), (String.eqb "smcp" t); reflexivity.
  - apply NoDup_filter, Hnd.
  - apply filter_In. split; [exact Hs | reflexivity].
Qed.

Lemma not_reserved_of_In (l : list string) (t : string) :
  Forall (fun t => has_sep t = false) l ->
  In t l -> t <> "regular" ->
  String.eqb (l2s l) "regular" || is_nil l = false.
Proof.
  intros Hall Hin Hne.
  destruct (String.eqb (l2s l) "regular" || is_nil l) eqn:E; [|reflexivity].
  apply (reserved_test l Hall) in E. destruct E as [->| ->].
  - destruct Hin.
  - destruct Hin as [<-|[]]. congruence.
Qed.

(** C6. [buildSeries] returns "m" when the first-seen-order deduplicated
    union of the weight and width tokens is empty or exactly ["regular"];
    otherwise it returns the concatenation, in first-seen order (weight
    tokens before width tokens), of each token's code from the
    [optionMappings] table; weight "bold" with width "extended" yields
    "bx", not "xb". *)
Theorem buildSeries_code :
  (forall weight width : string,
      let seriesopts := unique (s2l weight ++ s2l width) in
      seriesopts = [] \/ seriesopts = ["regular"] ->
      buildSeries weight width = Ok "m")
  /\ (forall (weight width : string) (cs : list string),
         let seriesopts := unique (s2l weight ++ s2l width) in
         seriesopts <> [] -> seriesopts <> ["regular"] ->
         Forall2 (fun t c => get t optionMappings = Some c) seriesopts cs ->
         buildSeries weight width = Ok (concat_all cs))
  /\ (forall s : list string, unique s = fresh_tokens [] s)
  /\ buildSeries "bold" "extended" = Ok "bx".
Proof.
  split; [|split; [|split]].
  - intros weight width seriesopts H. unfold buildSeries.
    fold seriesopts.
    apply (reserved_test seriesopts (no_sep_series weight width)) in H.
    rewrite H. reflexivity.
  - intros weight width cs seriesopts Hn Hr Hcs. unfold buildSeries.
    fold seriesopts.
    destruct (String.eqb (l2s seriesopts) "regular" || is_nil seriesopts)
      eqn:E.
    + apply (reserved_test seriesopts (no_sep_series weight width)) in E.
      tauto.
    + rewrite (append_codes_all _ _ _ Hcs). reflexivity.
  - exact unique_fresh.
  - reflexivity.
Qed.

Lemma buildSeries_code_witness :
  buildSeries "regular" "" = Ok "m"
  /\ buildSeries "semibold" "cond" = Ok "sbc".
Proof.
  split.
  - apply (proj1 buildSeries_code "regular" ""). right. reflexivity.
  - apply (proj1 (proj2 buildSeries_code) "semibold" "cond" ["sb"; "c"]).
    + intros H. vm_compute in H. discriminate H.
    + intros H. vm_compute in H. discriminate H.
    + vm_compute. repeat constructor.
Defined.



(** C3 (as the code has it). For every variant token string containing both
    the token "italic" and the token "smcp", each of whose other tokens has
    a code in [optionMappings], [buildShape] returns "si" followed by the
    codes of the other tokens, deduplicated, in first-seen order; the codes
    of "italic" and "smcp" themselves are not appended. *)
Theorem buildShape_italic_smcp (variant : string) (cs : list string) :
  In "italic" (s2l variant) -> In "smcp" (s2l variant) ->
  let rest := other_tokens (unique (s2l variant)) in
  Forall2 (fun t c => get t optionMappings = Some c) rest cs ->
  buildShape variant = Ok ("si" ++ concat_all cs)%string
  /\ String.prefix "si" ("si" ++ concat_all cs) = true
  /\ ~ In "italic" rest /\ ~ In "smcp" rest.
Proof.
  intros Hi Hs rest Hcs.
  apply unique_In in Hi. apply unique_In in Hs.
  split; [|split; [destruct (concat_all cs); reflexivity|]].
  - unfold buildShape.
    rewrite (not_reserved_of_In _ "italic" (no_sep_shape variant) Hi)
      by discriminate.
    rewrite (proj2 (mem_In _ _) Hi), (proj2 (mem_In _ _) Hs).
    cbn [andb].
    rewrite (remove_italic_smcp _ (unique_NoDup _) Hi Hs).
    cbn [bind fst snd]. fold rest.
    apply (append_codes_all _ _ _ Hcs).
  - unfold rest, other_tokens. rewrite !filter_In.
    split; intros [_ H]; discriminate H.
Qed.

Lemma buildShape_italic_smcp_witness :
  buildShape "italic-outline-smcp" = Ok "siol".
Proof.
  apply (buildShape_italic_smcp "italic-outline-smcp" ["ol"]).
  - vm_compute. auto.
  - vm_compute. auto.
  - vm_compute. repeat constructor.
Defined.

(** C3 fails as stated: the variant "slanted-smcp" holds the italic-class
    token "slanted" and the token "smcp", and its shape is the plain
    concatenation "slsc", which does not begin with "si". *)
Lemma buildShape_slanted_smcp_not_si :
  In "slanted" (s2l "slanted-smcp")
  /\ In "smcp" (s2l "slanted-smcp")
  /\ buildShape "slanted-smcp" = Ok "slsc"
  /\ String.prefix "si" "slsc" = false.
Proof.
  vm_compute. repeat split; auto.
Qed.

(** ** The option explorer *)

Lemma flat_map_length_const {A B : Type} (f : A -> list B) (l : list A)
      (n : nat) :
  (forall a, length (f a) = n) -> length (flat_map f l) = length l * n.
Proof.
  intros H. induction l as [|a r IH]; simpl; [reflexivity|].
  rewrite length_app, H, IH. reflexivity.
Qed.

Lemma map_flat_map_comm {A B C : Type} (h : B -> C) (f : A -> list B)
      (l : list A) :
  map h (flat_map f l) = flat_map (fun a => map h (f a)) l.
Proof.
  induction l as [|a r IH]; simpl; [reflexivity|].
  rewrite map_app, IH. reflexivity.
Qed.

Lemma breakout_length (lyst : list (list string)) :
  length (breakout lyst) = group_product lyst.
Proof.
  induction lyst as [|g rest IH]; simpl; [reflexivity|].
  rewrite <- IH. apply flat_map_length_const.
  intros i. destruct (truthy i); [apply length_map | reflexivity].
Qed.

(** [breakout] picks one choice per group and drops the empty picks. *)
Lemma breakout_choices (lyst : list (list string)) :
  breakout lyst = map (filter truthy) (choices lyst).
Proof.
  induction lyst as [|g rest IH]; simpl; [reflexivity|].
  rewrite map_flat_map_comm. apply flat_map_ext. intros i.
  rewrite map_map, IH. simpl.
  destruct (truthy i); [rewrite map_map|]; reflexivity.
Qed.

Lemma choices_In (lyst : list (list string)) (picks : list string) :
  In picks (choices lyst) <-> Forall2 (fun p g => In p g) picks lyst.
Proof.
  revert picks. induction lyst as [|g rest IH]; intros picks; simpl.
  - split.
    + intros [<-|[]]. constructor.
    + intros H. inversion H. auto.
  - rewrite in_flat_map. split.
    + intros [i [Hi Hp]]. apply in_map_iff in Hp as [j [<- Hj]].
      constructor; [exact Hi | apply IH, Hj].
    + intros H. inversion H as [|p g' picks' rest' Hp Hr]; subst.
      exists p. split; [exact Hp|]. apply in_map, IH, Hr.
Qed.

Lemma truthy_nonempty (t : string) : truthy t = true <-> t <> "".
Proof. destruct t; simpl; split; congruence. Qed.

Lemma breakout_only_empty (lyst : list (list string)) :
  Forall (fun g => g = [""]) lyst -> breakout lyst = [[]].
Proof.
  induction 1 as [|g rest Hg _ IH]; simpl; [reflexivity|].
  rewrite Hg, IH. reflexivity.
Qed.

(** C9. For every list of option groups G1..Gn, [breakout] yields exactly
    |G1|*|G2|*...*|Gn| sequences, duplicates counted, each of them one
    choice per group with the empty choices contributing nothing; applied
    to the empty list of groups it yields exactly one combination, the
    empty sequence. *)
Theorem breakout_count :
  (forall lyst : list (list string),
      length (breakout lyst) = group_product lyst)
  /\ (forall lyst : list (list string),
         breakout lyst = map (filter truthy) (choices lyst))
  /\ breakout [] = [[]].
Proof.
  split; [exact breakout_length | split; [exact breakout_choices|]].
  reflexivity.
Qed.

(** C2 (as the code has it). Every combination yielded by [breakout] is an
    ordered sequence, possibly empty, made of one choice per group in group
    order with the empty tokens removed; the number of yielded combinations
    is at most the product of the group sizes; if every group has only its
    empty choice, [breakout] yields exactly one combination, the empty
    sequence. *)
Theorem breakout_combinations (lyst : list (list string)) :
  (forall c : list string,
      In c (breakout lyst) ->
      (exists picks : list string,
          Forall2 (fun p g => In p g) picks lyst /\ c = filter truthy picks)
      /\ Forall (fun t => t <> "") c)
  /\ length (breakout lyst) <= group_product lyst
  /\ (Forall (fun g => g = [""]) lyst -> breakout lyst = [[]]).
Proof.
  split; [|split].
  - intros c Hc. rewrite breakout_choices in Hc.
    apply in_map_iff in Hc as [picks [<- Hp]]. split.
    + exists picks. split; [apply choices_In, Hp | reflexivity].
    + apply Forall_forall. intros t Ht. apply filter_In in Ht as [_ Ht].
      apply truthy_nonempty, Ht.
  - rewrite breakout_length. apply Nat.le_refl.
  - apply breakout_only_empty.
Qed.

Lemma breakout_combinations_witness :
  ((exists picks : list string,
       Forall2 (fun p g => In p g) picks [["a"; "b"]; ["c"; ""]]
       /\ ["b"] = filter truthy picks)
   /\ Forall (fun t => t <> "") ["b"])
  /\ breakout [[""]; [""]] = [[]].
Proof.
  split.
  - apply (proj1 (breakout_combinations [["a"; "b"]; ["c"; ""]]) ["b"]).
    vm_compute. auto.
  - apply (proj2 (proj2 (breakout_combinations [[""]; [""]]))).
    repeat constructor.
Defined.

(** C2 fails as stated: the single group [""] has only its empty choice,
    yet [breakout] yields one combination, and that combination is the
    empty sequence. *)
Lemma breakout_yields_empty_combination :
  breakout [[""]] = [[]]
  /\ In [] (breakout [[""]])
  /\ length (breakout [[""]]) = 1.
Proof.
  vm_compute. auto.
Qed.

(** ** The axis fields of a font record *)

Lemma insert_sorted_perm (x : string) (l : list string) :
  Permutation (insert_sorted x l) (x :: l).
Proof.
  induction l as [|y r IH]; simpl; [apply Permutation_refl|].
  destruct (String.leb x y); [apply Permutation_refl|].
  eapply perm_trans; [apply perm_skip, IH | apply perm_swap].
Qed.

Lemma list_sort_perm (l : list string) : Permutation (list_sort l) l.
Proof.
  induction l as [|x r IH]; simpl; [constructor|].
  eapply perm_trans; [apply insert_sorted_perm | apply perm_skip, IH].
Qed.

Lemma insert_sorted_HdRel (a x : string) (l : list string) :
  str_le a x -> HdRel str_le a l -> HdRel str_le a (insert_sorted x l).
Proof.
  intros Hax Hal. destruct l as [|y r]; simpl.
  - constructor. exact Hax.
  - destruct (String.leb x y); constructor.
    + exact Hax.
    + inversion Hal. assumption.
Qed.

Lemma insert_sorted_sorted (x : string) (l : list string) :
  Sorted str_le l -> Sorted str_le (insert_sorted x l).
Proof.
  induction 1 as [|y r Hr IH Hy]; simpl.
  - repeat constructor.
  - destruct (String.leb x y) eqn:E.
    + constructor; [constructor; assumption | constructor; exact E].
    + constructor; [exact IH|].
      apply insert_sorted_HdRel; [|exact Hy].
      destruct (String.leb_total x y) as [H|H]; [congruence | exact H].
Qed.

Lemma list_sort_sorted (l : list string) : Sorted str_le (list_sort l).
Proof.
  induction l as [|x r IH]; simpl; [constructor|].
  apply insert_sorted_sorted, IH.
Qed.

Lemma axes_loop_filter (sub weight width variant : list string) :
  axes_loop sub weight width variant
  = (weight ++ axis_tokens weightNames sub,
     width ++ axis_tokens widthNames sub,
     variant ++ axis_tokens variantNames sub).
Proof.
  revert weight width variant.
  induction sub as [|s r IH]; intros weight width variant.
  - cbn [axes_loop axis_tokens filter]. rewrite !app_nil_r. reflexivity.
  - cbn [axes_loop]. rewrite IH. unfold axis_tokens. cbn [filter].
    destruct (mem s weightNames), (mem s widthNames), (mem s variantNames);
      rewrite <- ?app_assoc; reflexivity.
Qed.

Lemma buildFontRecord_axes (info : OtfInfo) :
  fr_subfamily (buildFontRecord info) = oi_subfamily info
  /\ fr_weight (buildFontRecord info)
     = l2s (list_sort (axis_tokens weightNames (oi_subfamily info)))
  /\ fr_width (buildFontRecord info)
     = l2s (list_sort (axis_tokens widthNames (oi_subfamily info)))
  /\ fr_variant (buildFontRecord info)
     = l2s (list_sort (axis_tokens variantNames (oi_subfamily info))).
Proof.
  unfold buildFontRecord. rewrite axes_loop_filter.
  destruct (features_loop (oi_featureLines info) 0 []) as [n fs].
  cbn [app fr_subfamily fr_weight fr_width fr_variant]. auto.
Qed.

Lemma addToFonthash_stores (info : OtfInfo) (st : Fonthash * ClassifiedFonts) :
  exists st', addToFonthash info st = Ok st'
              /\ get (oi_postScriptName info) (fst st')
                 = Some (buildFontRecord info).
Proof.
  unfold addToFonthash, classifyFont, getitem.
  rewrite get_set_same. cbn [bind]. eexists. split; [reflexivity|].
  cbn [fst]. apply get_set_same.
Qed.

(** C1 (as the code has it). For every font record built by
    [addToFonthash], each of the weight, width and variant fields is the
    hyphen-joined string of the sorted subfamily tokens recognized as
    belonging to that axis, duplicates kept, and is the empty string when
    no subfamily token belongs to that axis. *)
Theorem axis_fields (info : OtfInfo) (st : Fonthash * ClassifiedFonts) :
  exists st' fr,
    addToFonthash info st = Ok st'
    /\ get (oi_postScriptName info) (fst st') = Some fr
    /\ (forall (field : FontRecord -> string) (names : list string),
           In (field, names) [(fr_weight, weightNames);
                              (fr_width, widthNames);
                              (fr_variant, variantNames)] ->
           let tokens := axis_tokens names (fr_subfamily fr) in
           field fr = l2s (list_sort tokens)
           /\ Sorted str_le (list_sort tokens)
           /\ Permutation (list_sort tokens) tokens
           /\ (tokens = [] -> field fr = "")).
Proof.
  destruct (addToFonthash_stores info st) as [st' [Hst Hget]].
  exists st', (buildFontRecord info). split; [exact Hst|].
  split; [exact Hget|].
  destruct (buildFontRecord_axes info) as [Hsub [Hw [Hwd Hv]]].
  intros field names Hin tokens.
  assert (Hf : field (buildFontRecord info) = l2s (list_sort tokens)).
  { unfold tokens. rewrite Hsub.
    destruct Hin as [E|[E|[E|[]]]]; inversion E; subst; assumption. }
  split; [exact Hf|].
  split; [apply list_sort_sorted|].
  split; [apply list_sort_perm|].
  intros Hnil. rewrite Hf, Hnil. reflexivity.
Qed.

Lemma axis_fields_witness :
  exists st' fr,
    addToFonthash sample_italic ([], []) = Ok st'
    /\ get "MinionPro-It" (fst st') = Some fr
    /\ fr_weight fr = ""
    /\ fr_variant fr = "italic".
Proof.
  destruct (axis_fields sample_italic ([], [])) as [st' [fr [H1 [H2 H3]]]].
  exists st', fr. split; [exact H1|]. split; [exact H2|].
  assert (Hsub : fr_subfamily fr = ["italic"]).
  { vm_compute in H1. injection H1 as <-.
    vm_compute in H2. injection H2 as <-. reflexivity. }
  split.
  - apply (H3 fr_weight weightNames); [left; reflexivity|].
    rewrite Hsub. reflexivity.
  - rewrite (proj1 (H3 fr_variant variantNames
                       (or_intror (or_intror (or_introl eq_refl))))).
    rewrite Hsub. reflexivity.
Defined.

(** C1 fails as stated: with no weight token in the subfamily the weight
    field is the empty string, not "regular", and a token that occurs twice
    in the subfamily occurs twice in the field. *)
Lemma axis_fields_not_regular_not_deduplicated :
  axis_tokens weightNames (oi_subfamily sample_italic) = []
  /\ fr_weight (buildFontRecord sample_italic) = ""
  /\ fr_width (buildFontRecord sample_italic) = ""
  /\ fr_weight (buildFontRecord sample_bold_twice) = "bold-bold".
Proof.
  vm_compute. auto.
Qed.

(** ** Four-level indices *)

Lemma get4_getd {V : Type} (k1 k2 k3 k4 : string)
      (d : odict (odict (odict (odict V)))) :
  get4 k1 k2 k3 k4 d = get k4 (getd k3 (getd k2 (getd k1 d))).
Proof.
  unfold get4, getd.
  destruct (get k1 d) as [d1|]; [|reflexivity].
  destruct (get k2 d1) as [d2|]; [|reflexivity].
  destruct (get k3 d2) as [d3|]; reflexivity.
Qed.

Lemma getd_upd_same {V : Type} (k : string) (f : odict V -> odict V)
      (d : odict (odict V)) :
  getd k (upd k empty f d) = f (getd k d).
Proof.
  unfold getd at 1. rewrite get_upd_same. reflexivity.
Qed.

Lemma getd_upd_other {V : Type} (k k0 : string) (f : odict V -> odict V)
      (d : odict (odict V)) :
  k0 <> k -> getd k0 (upd k empty f d) = getd k0 d.
Proof.
  intros H. unfold getd. rewrite get_upd_other by exact H. reflexivity.
Qed.

Lemma get4_upd4_same {V : Type} (k1 k2 k3 k4 : string) (dflt : V)
      (f : V -> V) (d : odict (odict (odict (odict V)))) :
  get4 k1 k2 k3 k4 (upd4 k1 k2 k3 k4 dflt f d)
  = Some (f (match get4 k1 k2 k3 k4 d with Some v => v | None => dflt end)).
Proof.
  rewrite !get4_getd. unfold upd4.
  rewrite !getd_upd_same, get_upd_same. reflexivity.
Qed.

Lemma get4_upd4_other {V : Type} (k1 k2 k3 k4 j1 j2 j3 j4 : string)
      (dflt : V) (f : V -> V) (d : odict (odict (odict (odict V)))) :
  (j1, j2, j3, j4) <> (k1, k2, k3, k4) ->
  get4 j1 j2 j3 j4 (upd4 k1 k2 k3 k4 dflt f d) = get4 j1 j2 j3 j4 d.
Proof.
  intros Hne. rewrite !get4_getd. unfold upd4.
  destruct (String.eqb_spec j1 k1) as [->|H1];
    [rewrite getd_upd_same | rewrite getd_upd_other by exact H1; reflexivity].
  destruct (String.eqb_spec j2 k2) as [->|H2];
    [rewrite getd_upd_same | rewrite getd_upd_other by exact H2; reflexivity].
  destruct (String.eqb_spec j3 k3) as [->|H3];
    [rewrite getd_upd_same | rewrite getd_upd_other by exact H3; reflexivity].
  destruct (String.eqb_spec j4 k4) as [->|H4];
    [congruence | rewrite get_upd_other by exact H4; reflexivity].
Qed.

(** ** The classifier *)

Lemma classifyFont_leaf (fonthash : Fonthash) (name : string)
      (cf : ClassifiedFonts) (fr : FontRecord) :
  get name fonthash = Some fr ->
  exists cf',
    classifyFont fonthash name cf = Ok cf'
    /\ get4 (fr_family fr) (fr_weight fr) (fr_width fr) (fr_variant fr) cf'
       = Some ((match get4 (fr_family fr) (fr_weight fr) (fr_width fr)
                           (fr_variant fr) cf with
                | Some l => l
                | None => []
                end) ++ [(name, fr_opticalSize fr)])
    /\ (forall j1 j2 j3 j4 : string,
           (j1, j2, j3, j4)
           <> (fr_family fr, fr_weight fr, fr_width fr, fr_variant fr) ->
           get4 j1 j2 j3 j4 cf' = get4 j1 j2 j3 j4 cf).
Proof.
  intros Hfr. unfold classifyFont, getitem. rewrite Hfr. cbn [bind].
  eexists. split; [reflexivity|]. split.
  - rewrite get4_upd4_same. reflexivity.
  - intros j1 j2 j3 j4 H. apply get4_upd4_other, H.
Qed.

(** C4 (as the code has it). [classifyFont] is not idempotent: every call
    appends the pair (identifier, optical size) to the list found under the
    record's four-level key (the empty list where a level is missing) and
    keeps the pairs that were there. So a second call with the same
    identifier and an unchanged [fonthash] entry leaves that list one pair
    longer than the first call did, and both calls leave every other list
    as it was. *)
Theorem classifyFont_appends (fonthash : Fonthash) (name : string)
        (cf : ClassifiedFonts) (fr : FontRecord) :
  get name fonthash = Some fr ->
  let opticals := match get4 (fr_family fr) (fr_weight fr) (fr_width fr)
                             (fr_variant fr) cf with
                  | Some l => l
                  | None => []
                  end in
  exists cf1 cf2 : ClassifiedFonts,
    classifyFont fonthash name cf = Ok cf1
    /\ classifyFont fonthash name cf1 = Ok cf2
    /\ get4 (fr_family fr) (fr_weight fr) (fr_width fr) (fr_variant fr) cf1
       = Some (opticals ++ [(name, fr_opticalSize fr)])
    /\ get4 (fr_family fr) (fr_weight fr) (fr_width fr) (fr_variant fr) cf2
       = Some (opticals ++ [(name, fr_opticalSize fr);
                            (name, fr_opticalSize fr)])
    /\ cf2 <> cf1
    /\ (forall j1 j2 j3 j4 : string,
           (j1, j2, j3, j4)
           <> (fr_family fr, fr_weight fr, fr_width fr, fr_variant fr) ->
           get4 j1 j2 j3 j4 cf1 = get4 j1 j2 j3 j4 cf
           /\ get4 j1 j2 j3 j4 cf2 = get4 j1 j2 j3 j4 cf).
Proof.
  intros Hfr opticals.
  destruct (classifyFont_leaf fonthash name cf fr Hfr) as [cf1 [E1 [L1 F1]]].
  destruct (classifyFont_leaf fonthash name cf1 fr Hfr) as [cf2 [E2 [L2 F2]]].
  fold opticals in L1. rewrite L1 in L2.
  exists cf1, cf2. split; [exact E1|]. split; [exact E2|].
  split; [exact L1|]. split; [|split].
  - rewrite L2, <- app_assoc. reflexivity.
  - intros Heq. rewrite Heq, L1 in L2. injection L2 as L2.
    apply (f_equal (@length _)) in L2. rewrite !length_app in L2.
    simpl in L2. lia.
  - intros j1 j2 j3 j4 Hj. split; [exact (F1 _ _ _ _ Hj)|].
    rewrite (F2 _ _ _ _ Hj). exact (F1 _ _ _ _ Hj).
Qed.

Lemma classifyFont_appends_witness :
  exists cf1 cf2 : ClassifiedFonts,
    classifyFont sample_two_fonts "MinionPro-Disp" sample_classified = Ok cf1
    /\ classifyFont sample_two_fonts "MinionPro-Disp" cf1 = Ok cf2
    /\ get4 "Minion Pro" "regular" "regular" "regular" cf1
       = Some [("MinionPro-Regular", []); ("MinionPro-Disp", [])]
    /\ get4 "Minion Pro" "regular" "regular" "regular" cf2
       = Some [("MinionPro-Regular", []); ("MinionPro-Disp", []);
               ("MinionPro-Disp", [])]
    /\ cf2 <> cf1
    /\ get4 "Minion Pro" "bold" "regular" "regular" cf2
       = get4 "Minion Pro" "bold" "regular" "regular" sample_classified.
Proof.
  destruct (classifyFont_appends sample_two_fonts "MinionPro-Disp"
                                 sample_classified sample_display eq_refl)
    as [cf1 [cf2 [H1 [H2 [H3 [H4 [H5 H6]]]]]]].
  exists cf1, cf2.
  split; [exact H1|]. split; [exact H2|]. split; [exact H3|].
  split; [exact H4|]. split; [exact H5|].
  apply (H6 "Minion Pro" "bold" "regular" "regular"). discriminate.
Defined.

(** C4 fails as stated: classifying the same font twice leaves two entries
    where classifying it once leaves one. *)
Lemma classifyFont_not_idempotent :
  exists cf1 cf2 : ClassifiedFonts,
    classifyFont sample_fonthash "MinionPro-Regular" [] = Ok cf1
    /\ classifyFont sample_fonthash "MinionPro-Regular" cf1 = Ok cf2
    /\ get4 "Minion Pro" "regular" "regular" "regular" cf1
       = Some [("MinionPro-Regular", [])]
    /\ get4 "Minion Pro" "regular" "regular" "regular" cf2
       = Some [("MinionPro-Regular", []); ("MinionPro-Regular", [])]
    /\ cf2 <> cf1.
Proof.
  eexists _, _. split; [vm_compute; reflexivity|].
  split; [vm_compute; reflexivity|].
  split; [vm_compute; reflexivity|].
  split; [vm_compute; reflexivity|].
  intros H. discriminate H.
Qed.

(** ** Assignments to a dict *)

Lemma set_set {V : Type} (k : string) (v1 v2 : V) (d : odict V) :
  set k v2 (set k v1 d) = set k v2 d.
Proof.
  induction d as [|[k' v'] r IH]; cbn [set].
  - rewrite String.eqb_refl. reflexivity.
  - destruct (String.eqb k k') eqn:E; cbn [set]; rewrite E.
    + reflexivity.
    + rewrite IH. reflexivity.
Qed.

Lemma set_get_same {V : Type} (k : string) (v : V) (d : odict V) :
  get k d = Some v -> set k v d = d.
Proof.
  induction d as [|[k' v'] r IH]; cbn [get set]; [discriminate|].
  destruct (String.eqb_spec k k') as [->|Hne].
  - intros [= ->]. reflexivity.
  - intros H. rewrite (IH H). reflexivity.
Qed.

Lemma append_empty_r (s : string) : (s ++ "")%string = s.
Proof. induction s as [|a r IH]; simpl; congruence. Qed.

Lemma dict_ok_empty {V : Type} (P : V -> Prop) : dict_ok P (@empty V).
Proof. split; constructor. Qed.

Lemma dict_ok_get {V : Type} (P : V -> Prop) (k : string) (v : V)
      (d : odict V) :
  dict_ok P d -> get k d = Some v -> P v.
Proof.
  intros [_ Hall]. induction d as [|[k' v'] r IH]; cbn [get]; [discriminate|].
  inversion Hall as [|? ? Hv Hr]; subst.
  destruct (String.eqb k k'); [intros [= <-]; exact Hv | apply IH, Hr].
Qed.

Lemma dict_ok_set {V : Type} (P : V -> Prop) (k : string) (v : V)
      (d : odict V) :
  dict_ok P d -> P v -> dict_ok P (set k v d).
Proof.
  intros [Hnd Hall] Hv. split; [apply NoDup_keys_set, Hnd|].
  clear Hnd. induction d as [|[k' v'] r IH]; cbn [set].
  - repeat constructor. exact Hv.
  - inversion Hall as [|? ? Hv' Hr]; subst.
    destruct (String.eqb k k'); constructor; auto.
Qed.

Lemma dict_ok_upd {V : Type} (P : V -> Prop) (k : string) (dflt : V)
      (f : V -> V) (d : odict V) :
  dict_ok P d -> P dflt -> (forall v, P v -> P (f v)) ->
  dict_ok P (upd k dflt f d).
Proof.
  intros Hd Hdflt Hf. unfold upd. destruct (get k d) as [v|] eqn:E.
  - apply dict_ok_set; [exact Hd | apply Hf, (dict_ok_get P k v d Hd E)].
  - apply dict_ok_set; [exact Hd | apply Hf, Hdflt].
Qed.

(** ** Writing a result record *)

Lemma flags_loop_spec (fs : list string) (leaf : ExplodedRecord)
      (acc : string) :
  get "cmdlineoptions" leaf = Some acc ->
  flags_loop fs leaf
  = Ok (set "cmdlineoptions" (acc ++ concat_all (map flag fs))%string leaf).
Proof.
  revert leaf acc. induction fs as [|f r IH]; intros leaf acc Hget.
  - cbn [flags_loop map concat_all fold_right].
    rewrite append_empty_r, (set_get_same _ _ _ Hget). reflexivity.
  - cbn [flags_loop]. unfold getitem. rewrite Hget. cbn [bind].
    rewrite (IH _ (acc ++ flag f)%string) by apply get_set_same.
    rewrite set_set. cbn [map concat_all fold_right].
    rewrite append_assoc. reflexivity.
Qed.

(** The outcome of the five assignments and the flag loop: five writes of
    new values, whatever the leaf held. *)
Lemma writeRecord_spec (fr : FontRecord) (name xfam : string)
      (cmdl : list string) (leaf : ExplodedRecord) :
  writeRecord fr name xfam cmdl leaf
  = Ok (set "cmdlineoptions" (concat_all (map flag (tl (s2l xfam) ++ cmdl)))
       (set "fontname" (l2s (fontname_tokens name xfam cmdl))
       (set "vendor" (fr_vendor fr)
       (set "family" (fr_family fr)
       (set "filename" (fr_filename fr) leaf))))).
Proof.
  unfold writeRecord.
  rewrite (flags_loop_spec _ _ "") by apply get_set_same.
  rewrite set_set. reflexivity.
Qed.

Lemma writeRecord_exact (fr : FontRecord) (name xfam : string)
      (cmdl : list string) (leaf : ExplodedRecord) :
  leaf = empty \/ keys leaf = record_fields ->
  writeRecord fr name xfam cmdl leaf = Ok (new_record fr name xfam cmdl).
Proof.
  intros H. rewrite writeRecord_spec. f_equal. destruct H as [->|H].
  - reflexivity.
  - destruct leaf as [|[k1 v1] [|[k2 v2] [|[k3 v3] [|[k4 v4] [|[k5 v5] [|]]]]]];
      try discriminate H.
    cbn [keys map fst] in H. unfold record_fields in H.
    injection H as -> -> -> -> ->. reflexivity.
Qed.

Lemma new_record_keys (fr : FontRecord) (name xfam : string)
      (cmdl : list string) :
  keys (new_record fr name xfam cmdl) = record_fields.
Proof. reflexivity. Qed.

Lemma record_fields_NoDup : NoDup record_fields.
Proof.
  unfold record_fields.
  repeat (constructor;
          [cbn [In]; intros H;
           repeat (destruct H as [H|H]; [discriminate H|]); exact H|]).
  constructor.
Qed.

Lemma insertRecord_spec (fr : FontRecord) (name xfam series shape : string)
      (cmdl : list string) (ef : ExplodedFonts) :
  records_ok ef ->
  insertRecord fr name xfam series shape cmdl ef
  = Ok (upd4 xfam series shape (l2s (fr_opticalSize fr)) empty
             (fun _ => new_record fr name xfam cmdl) ef).
Proof.
  intros Hok. unfold insertRecord.
  rewrite writeRecord_exact; [reflexivity|].
  destruct (get4 xfam series shape (l2s (fr_opticalSize fr)) ef) as [l|] eqn:E.
  - right. exact (Hok _ _ _ _ _ E).
  - left. reflexivity.
Qed.

Lemma upd4_records_ok (k1 k2 k3 k4 : string) (leaf : ExplodedRecord)
      (ef : ExplodedFonts) :
  keys leaf = record_fields -> records_ok ef ->
  records_ok (upd4 k1 k2 k3 k4 empty (fun _ => leaf) ef).
Proof.
  intros Hleaf Hok j1 j2 j3 j4 l Hl.
  destruct (String.eqb_spec j1 k1) as [->|H1];
    [|rewrite get4_upd4_other in Hl by congruence; exact (Hok _ _ _ _ _ Hl)].
  destruct (String.eqb_spec j2 k2) as [->|H2];
    [|rewrite get4_upd4_other in Hl by congruence; exact (Hok _ _ _ _ _ Hl)].
  destruct (String.eqb_spec j3 k3) as [->|H3];
    [|rewrite get4_upd4_other in Hl by congruence; exact (Hok _ _ _ _ _ Hl)].
  destruct (String.eqb_spec j4 k4) as [->|H4];
    [|rewrite get4_upd4_other in Hl by congruence; exact (Hok _ _ _ _ _ Hl)].
  rewrite get4_upd4_same in Hl. injection Hl as <-. exact Hleaf.
Qed.

Lemma upd4_unique_keys (k1 k2 k3 k4 : string) (leaf : ExplodedRecord)
      (ef : ExplodedFonts) :
  NoDup (keys leaf) -> unique_keys ef ->
  unique_keys (upd4 k1 k2 k3 k4 empty (fun _ => leaf) ef).
Proof.
  intros Hleaf Hok. unfold unique_keys, upd4.
  apply dict_ok_upd; [exact Hok | apply dict_ok_empty|].
  intros d1 Hd1. apply dict_ok_upd; [exact Hd1 | apply dict_ok_empty|].
  intros d2 Hd2. apply dict_ok_upd; [exact Hd2 | apply dict_ok_empty|].
  intros d3 Hd3. apply dict_ok_upd; [exact Hd3 | constructor | auto].
Qed.

(** ** Loops that may raise *)

Lemma foldM_invariant {A S : Type} (P : S -> Prop)
      (body : S -> A -> result S) (l : list A) :
  (forall s a s', P s -> body s a = Ok s' -> P s') ->
  forall s s', P s -> foldM body l s = Ok s' -> P s'.
Proof.
  intros Hbody. induction l as [|a r IH]; intros s s' Hs; cbn [foldM].
  - intros [= <-]. exact Hs.
  - destruct (body s a) as [s1|e] eqn:E; cbn [bind]; [|discriminate].
    apply IH. exact (Hbody _ _ _ Hs E).
Qed.

Lemma for_keys_invariant {V S : Type} (P : S -> Prop) (d : odict V)
      (body : S -> string -> V -> result S) :
  (forall s k v s', P s -> body s k v = Ok s' -> P s') ->
  forall s s', P s -> for_keys d body s = Ok s' -> P s'.
Proof.
  intros Hbody. unfold for_keys. apply foldM_invariant.
  intros s k s' Hs. destruct (getitem k d) as [v|e]; cbn [bind];
    [apply Hbody, Hs | discriminate].
Qed.

Lemma index_ok_empty : index_ok empty.
Proof.
  split; [|apply dict_ok_empty].
  intros k1 k2 k3 k4 leaf H. discriminate H.
Qed.

Lemma insertRecord_index_ok (fr : FontRecord)
      (name xfam series shape : string) (cmdl : list string)
      (ef ef' : ExplodedFonts) :
  index_ok ef ->
  insertRecord fr name xfam series shape cmdl ef = Ok ef' -> index_ok ef'.
Proof.
  intros [Hr Hu] H. rewrite insertRecord_spec in H by exact Hr.
  injection H as <-. split.
  - apply upd4_records_ok; [apply new_record_keys | exact Hr].
  - apply upd4_unique_keys; [|exact Hu].
    rewrite new_record_keys. apply record_fields_NoDup.
Qed.

Lemma explodeCombination_index_ok (fonthash : Fonthash)
      (name weight width variant : string) (o : list string)
      (ef ef' : ExplodedFonts) :
  index_ok ef ->
  explodeCombination fonthash name weight width variant o ef = Ok ef' ->
  index_ok ef'.
Proof.
  intros Hok. unfold explodeCombination.
  destruct (getitem name fonthash) as [fr|e]; cbn [bind]; [|discriminate].
  destruct (buildSeries _ _) as [series|e]; cbn [bind]; [|discriminate].
  destruct (buildShape _) as [shape|e]; cbn [bind]; [|discriminate].
  apply insertRecord_index_ok, Hok.
Qed.

Lemma populate_index_ok (fonthash : Fonthash) (cf : ClassifiedFonts)
      (ef ef' : ExplodedFonts) :
  index_ok ef ->
  populateFontDataStructures fonthash cf ef = Ok ef' -> index_ok ef'.
Proof.
  unfold populateFontDataStructures.
  intros Hok. revert ef ef' Hok. apply for_keys_invariant.
  intros ef family byWeight ef' Hok. revert ef ef' Hok.
  apply for_keys_invariant.
  intros ef weight byWidth ef' Hok. revert ef ef' Hok.
  apply for_keys_invariant.
  intros ef width byVariant ef' Hok. revert ef ef' Hok.
  apply for_keys_invariant.
  intros ef variant opticals ef' Hok. revert ef ef' Hok.
  apply foldM_invariant.
  intros ef font ef' Hok. unfold explodeFont.
  destruct (getitem (fst font) fonthash) as [fr|e]; cbn [bind];
    [|discriminate].
  revert ef ef' Hok. apply foldM_invariant.
  intros ef o ef'. apply explodeCombination_index_ok.
Qed.

(** ** Synthetic options *)

Lemma selects_fake (l : list string) (oo : string) :
  nonfake oo = false -> selects l oo = false.
Proof.
  unfold selects, nonfake. intros ->. apply andb_false_r.
Qed.

Lemma selects_nonfake (l : list string) (oo : string) :
  selects l oo = true -> mem oo l = true /\ nonfake oo = true.
Proof.
  unfold selects, nonfake. intros H. apply andb_true_iff in H. exact H.
Qed.

Lemma option_step_fake (weight width variant oo : string) (x : Extended) :
  nonfake oo = false -> option_step weight width variant x oo = x.
Proof.
  intros H. unfold option_step. rewrite !(selects_fake _ _ H). reflexivity.
Qed.

Lemma fold_option_step_filter (weight width variant : string)
      (o : list string) (x : Extended) :
  fold_left (option_step weight width variant) o x
  = fold_left (option_step weight width variant) (filter nonfake o) x.
Proof.
  revert x. induction o as [|oo r IH]; intros x; cbn [fold_left filter].
  - reflexivity.
  - destruct (nonfake oo) eqn:E; cbn [fold_left].
    + apply IH.
    + rewrite (option_step_fake _ _ _ _ _ E). apply IH.
Qed.

Lemma real_options_cmdline (family oo : string) (x : Extended) :
  nonfake oo = true -> real_options family x ->
  real_options family (add_cmdline oo x).
Proof.
  intros Hoo [Hc Hf]. split; [|exact Hf].
  cbn [add_cmdline cmdlineoptions]. apply Forall_app. split; [exact Hc|].
  repeat constructor. exact Hoo.
Qed.

Lemma real_options_xfamily (family oo : string) (x : Extended) :
  selects newFontFamilyOptionList oo = true -> real_options family x ->
  real_options family (add_xfamily oo x).
Proof.
  intros Hoo [Hc [toks [Hx [Hn Hin]]]].
  apply selects_nonfake in Hoo as [Hm Hoo]. apply mem_In in Hm.
  split; [exact Hc|]. exists (toks ++ [oo]).
  cbn [add_xfamily xfamily]. rewrite Hx.
  split; [reflexivity|].
  split; apply Forall_app; split; try assumption;
    (constructor; [assumption | constructor]).
Qed.

Lemma real_options_step (family weight width variant oo : string)
      (x : Extended) :
  real_options family x ->
  real_options family (option_step weight width variant x oo).
Proof.
  intros H0. unfold option_step.
  assert (H1 : real_options family
                 (if selects globalOptionList oo then add_cmdline oo x
                  else x)).
  { destruct (selects globalOptionList oo) eqn:E; [|exact H0].
    apply real_options_cmdline; [apply (selects_nonfake _ _ E) | exact H0]. }
  revert H1. generalize (if selects globalOptionList oo then add_cmdline oo x
                         else x). clear x H0. intros x H0.
  assert (H1 : real_options family
                 (if selects newFontFamilyOptionList oo then add_xfamily oo x
                  else x)).
  { destruct (selects newFontFamilyOptionList oo) eqn:E; [|exact H0].
    apply real_options_xfamily; assumption. }
  revert H1. generalize (if selects newFontFamilyOptionList oo
                         then add_xfamily oo x else x).
  clear x H0. intros x H0.
  destruct (selects weightOptionList oo) eqn:E1;
    destruct (selects widthOptionList oo) eqn:E2;
    destruct (selects variantOptionList oo) eqn:E3;
    repeat (apply real_options_cmdline;
            [first [ apply (selects_nonfake _ _ E1)
                   | apply (selects_nonfake _ _ E2)
                   | apply (selects_nonfake _ _ E3) ]|]);
    exact H0.
Qed.

Lemma real_options_fold (family weight width variant : string)
      (o : list string) (x : Extended) :
  real_options family x ->
  real_options family (fold_left (option_step weight width variant) o x).
Proof.
  revert x. induction o as [|oo r IH]; intros x Hx; cbn [fold_left].
  - exact Hx.
  - apply IH, real_options_step, Hx.
Qed.

Lemma applyOptions_real (family weight width variant : string)
      (o : list string) :
  real_options family (applyOptions family weight width variant o).
Proof.
  apply real_options_fold. split; [constructor|].
  exists []. split; [reflexivity | split; constructor].
Qed.

Lemma family_options_no_sep (t : string) :
  In t newFontFamilyOptionList -> has_sep t = false.
Proof.
  unfold newFontFamilyOptionList. cbn [In].
  intros H. repeat (destruct H as [<-|H]; [reflexivity|]). destruct H.
Qed.

(** Splitting the joined extended family gives back the options that were
    appended to the family name. *)
Lemma xfamily_tail (family : string) (toks : list string) :
  has_sep family = false ->
  Forall (fun t => In t newFontFamilyOptionList) toks ->
  tl (s2l (l2s (family :: toks))) = toks.
Proof.
  intros Hfam Htoks.
  assert (Hsep : Forall (fun t => has_sep t = false) toks).
  { eapply Forall_impl; [|exact Htoks]. apply family_options_no_sep. }
  destruct family as [|a fam].
  - destruct toks as [|t ts]; [reflexivity|].
    unfold l2s.
    change (join sep ("" :: t :: ts))
      with (String sep_char (join sep (t :: ts))).
    unfold s2l. cbn [truthy split]. rewrite Ascii.eqb_refl. cbn [tl].
    apply split_join; [discriminate | exact Hsep].
  - rewrite s2l_l2s_head; [reflexivity | reflexivity|].
    constructor; assumption.
Qed.

Lemma split_app (a b : string) :
  split sep_char (a ++ sep ++ b)%string = split sep_char a ++ split sep_char b.
Proof.
  induction a as [|c r IH].
  - reflexivity.
  - cbn [String.append split]. rewrite IH.
    destruct (Ascii.eqb c sep_char); [reflexivity|].
    pose proof (split_not_nil sep_char r) as Hne.
    destruct (split sep_char r) as [|h t]; [congruence | reflexivity].
Qed.

(** The tokens of the joined extended family after the first are the
    pieces of the family name after the first, then the options that were
    appended. *)
Lemma xfamily_tokens (family : string) (toks : list string) :
  Forall (fun t => In t newFontFamilyOptionList) toks ->
  tl (s2l (l2s (family :: toks))) = tl (split sep_char family) ++ toks.
Proof.
  intros Htoks.
  assert (Hsep : Forall (fun t => has_sep t = false) toks).
  { eapply Forall_impl; [|exact Htoks]. apply family_options_no_sep. }
  destruct toks as [|t ts].
  - rewrite app_nil_r. unfold l2s. cbn [join]. unfold s2l.
    destruct family; reflexivity.
  - unfold l2s.
    change (join sep (family :: t :: ts))
      with (family ++ sep ++ join sep (t :: ts))%string.
    unfold s2l.
    assert (Htr : truthy (family ++ sep ++ join sep (t :: ts)) = true)
      by (destruct family; reflexivity).
    rewrite Htr, split_app, split_join by (try discriminate; exact Hsep).
    pose proof (split_not_nil sep_char family) as Hne.
    destruct (split sep_char family) as [|h r]; [congruence | reflexivity].
Qed.

Lemma choices_not_nil (lyst : list (list string)) :
  Forall (fun g => g <> []) lyst -> choices lyst <> [].
Proof.
  induction 1 as [|g rest Hg _ IH]; cbn [choices]; [discriminate|].
  destruct g as [|i g']; [congruence|].
  destruct (choices rest) as [|j js]; [congruence|]. discriminate.
Qed.

Lemma choices_with (lyst : list (list string)) (g : list string)
      (t : string) :
  Forall (fun g => g <> []) lyst -> In g lyst -> In t g ->
  exists picks, In picks (choices lyst) /\ In t picks.
Proof.
  induction 1 as [|g0 rest Hg0 Hrest IH]; intros Hg Ht; [destruct Hg|].
  destruct Hg as [->|Hg].
  - pose proof (choices_not_nil rest Hrest) as Hne.
    destruct (choices rest) as [|j js] eqn:E; [congruence|].
    exists (t :: j). split; [|left; reflexivity].
    cbn [choices]. apply in_flat_map. exists t. split; [exact Ht|].
    rewrite E. left. reflexivity.
  - destruct (IH Hg Ht) as [picks [Hp Hin]].
    destruct g0 as [|i g0']; [congruence|].
    exists (i :: picks). split; [|right; exact Hin].
    cbn [choices]. apply in_flat_map. exists i. split; [left; reflexivity|].
    apply in_map, Hp.
Qed.

Lemma myOptionList_groups (features : list string) :
  Forall (fun g => g <> []) (myOptionList features).
Proof.
  unfold myOptionList. apply Forall_forall. intros g Hg.
  apply in_flat_map in Hg as [o [_ Hg]]. cbn zeta in Hg.
  destruct (filter _ o) as [|i r]; cbn [is_nil] in Hg.
  - destruct Hg.
  - destruct Hg as [<-|[]]. discriminate.
Qed.

Lemma myOptionList_keeps (features g : list string) (t : string) :
  In g optionList -> In t g -> In t features ->
  exists opt, In opt (myOptionList features) /\ In t opt.
Proof.
  intros Hg Ht Hf.
  set (keep := fun oo => negb (truthy oo) || mem oo features).
  assert (Hin : In t (filter keep g)).
  { apply filter_In. split; [exact Ht|]. unfold keep.
    rewrite (proj2 (mem_In _ _) Hf). apply orb_true_r. }
  exists (filter keep g). split; [|exact Hin].
  unfold myOptionList. apply in_flat_map. exists g. split; [exact Hg|].
  cbn zeta. fold keep. destruct (filter keep g); [destruct Hin|].
  left. reflexivity.
Qed.

Lemma breakout_yields_token (features g : list string) (t : string) :
  In g optionList -> In t g -> t <> "" -> In t features ->
  exists o, In o (breakout (myOptionList features)) /\ In t o.
Proof.
  intros Hg Ht Hne Hf.
  destruct (myOptionList_keeps features g t Hg Ht Hf) as [opt [Hopt Hin]].
  destruct (choices_with _ opt t (myOptionList_groups features) Hopt Hin)
    as [picks [Hp Htp]].
  exists (filter truthy picks). split.
  - rewrite breakout_choices. apply in_map, Hp.
  - apply filter_In. split; [exact Htp | apply truthy_nonempty, Hne].
Qed.

(** ** The program on sample inputs *)

(** The alias "it" is not combined with "smcp". *)
Example buildShape_it_smcp : buildShape "it-smcp" = Ok "itsc".
Proof. reflexivity. Qed.

(** A font of family "Minion Pro" with all-regular axes and the features
    kern, liga, onum and smcp explodes into the combinations
    kern-liga-onum and kern-liga-onum-smcp, with series "m" and shapes "n"
    and "sc". *)
Example explode_minion :
  breakout (myOptionList (fr_features sample_regular))
  = [["kern"; "liga"; "onum"; "smcp"]; ["kern"; "liga"; "onum"]]
  /\ populateFontDataStructures sample_fonthash sample_classified empty
     = Ok [("Minion Pro-onum",
            [("m",
              [("sc",
                [("", new_record sample_regular "MinionPro-Regular"
                                 "Minion Pro-onum" ["kern"; "liga"; "smcp"])]);
               ("n",
                [("", new_record sample_regular "MinionPro-Regular"
                                 "Minion Pro-onum" ["kern"; "liga"])])])])].
Proof. split; reflexivity. Qed.

(** A weight token without a code ends the whole population. *)
Example populate_halts_on_unmapped_weight :
  populateFontDataStructures sample_fonthash sample_unmapped empty
  = Err (KeyError "ultra").
Proof. reflexivity. Qed.

(** * Further properties *)

(** ** [l2s] after [s2l] *)

Lemma join_split (s : string) : join sep (split sep_char s) = s.
Proof.
  induction s as [|a r IH]; [reflexivity|].
  cbn [split]. destruct (Ascii.eqb a sep_char) eqn:E.
  - apply Ascii.eqb_eq in E. subst a.
    destruct (split sep_char r) as [|h t] eqn:Er.
    + exfalso. exact (split_not_nil sep_char r Er).
    + change (join sep ("" :: h :: t))
        with (String sep_char (join sep (h :: t))).
      rewrite IH. reflexivity.
  - destruct (split sep_char r) as [|h t] eqn:Er.
    + exfalso. exact (split_not_nil sep_char r Er).
    + rewrite <- IH. destruct t as [|h' t']; reflexivity.
Qed.

(** X1. Joining the tokens of any string gives the string back: a key built
    with [l2s] from the tokens of a key is the key itself. *)
Theorem l2s_s2l (s : string) : l2s (s2l s) = s.
Proof.
  unfold l2s, s2l. destruct s as [|a r]; [reflexivity|].
  cbn [truthy]. apply join_split.
Qed.

Lemma s2l_l2s_empty_head (t : string) (ts : list string) :
  Forall (fun x => has_sep x = false) (t :: ts) ->
  s2l (l2s ("" :: t :: ts)) = "" :: t :: ts.
Proof.
  intros H. unfold l2s.
  change (join sep ("" :: t :: ts))
    with (String sep_char (join sep (t :: ts))).
  unfold s2l. cbn [truthy split]. rewrite Ascii.eqb_refl.
  rewrite split_join; [reflexivity | discriminate | exact H].
Qed.

(** X2. For tokens without separator, splitting the joined list gives the list
    back except for the one-token list holding the empty token, which
    joins to the empty string and splits to the empty list. *)
Theorem s2l_l2s_iff (l : list string) :
  Forall (fun t => has_sep t = false) l ->
  (s2l (l2s l) = l <-> l <> [""]).
Proof.
  intros Hall. split.
  - intros H ->. discriminate H.
  - intros Hne. destruct l as [|x r]; [reflexivity|].
    destruct x as [|a x'].
    + destruct r as [|t ts]; [congruence|].
      apply s2l_l2s_empty_head. inversion Hall; assumption.
    + apply s2l_l2s_head; [reflexivity | exact Hall].
Qed.

Lemma s2l_l2s_iff_witness :
  s2l (l2s [""; "onum"]) = [""; "onum"].
Proof.
  apply (proj2 (s2l_l2s_iff [""; "onum"]
                            ltac:(repeat constructor))).
  discriminate.
Defined.

Lemma split_length (s : string) :
  length (split sep_char s) = S (count_sep s).
Proof.
  induction s as [|a r IH]; [reflexivity|].
  cbn [split count_sep]. destruct (Ascii.eqb a sep_char).
  - cbn [length]. rewrite IH. reflexivity.
  - destruct (split sep_char r) as [|h t]; [discriminate IH|].
    cbn [length] in *. exact IH.
Qed.

(** X3. [s2l] gives no token for the empty string only; a non-empty string
    gives one token more than it has separators, and no token holds a
    separator. *)
Theorem s2l_tokens (s : string) :
  (s2l s = [] <-> s = "")
  /\ (s <> "" -> length (s2l s) = S (count_sep s))
  /\ Forall (fun t => has_sep t = false) (s2l s).
Proof.
  split; [|split].
  - destruct s as [|a r]; [split; reflexivity|].
    unfold s2l. cbn [truthy]. split; [|discriminate].
    intros H. exfalso. exact (split_not_nil sep_char _ H).
  - intros Hne. destruct s as [|a r]; [congruence|].
    unfold s2l. cbn [truthy]. apply split_length.
  - apply s2l_no_sep.
Qed.

Lemma s2l_tokens_witness : length (s2l "bold-extended") = 2.
Proof.
  apply (proj1 (proj2 (s2l_tokens "bold-extended"))). discriminate.
Defined.

(** ** [unique] *)

Lemma fresh_tokens_ext (seen seen' s : list string) :
  (forall y, mem y seen = mem y seen') ->
  fresh_tokens seen s = fresh_tokens seen' s.
Proof.
  revert seen seen'. induction s as [|x r IH]; intros seen seen' H;
    cbn [fresh_tokens]; [reflexivity|].
  rewrite <- H. destruct (mem x seen).
  - apply IH, H.
  - f_equal. apply IH. intros y. rewrite !mem_app, H. reflexivity.
Qed.

Lemma fresh_tokens_filter (s1 s2 b : list string) :
  fresh_tokens (s1 ++ s2) b
  = filter (fun x => negb (mem x s1)) (fresh_tokens s2 b).
Proof.
  revert s2. induction b as [|x r IH]; intros s2; cbn [fresh_tokens];
    [reflexivity|].
  rewrite mem_app. destruct (mem x s2) eqn:E2.
  - rewrite orb_true_r. apply IH.
  - rewrite orb_false_r. cbn [filter]. destruct (mem x s1) eqn:E1; cbn [negb].
    + rewrite <- IH. apply fresh_tokens_ext. intros y.
      rewrite !mem_app. cbn [mem].
      destruct (String.eqb_spec y x) as [->|];
        [|rewrite !orb_false_r; reflexivity].
      rewrite E1. reflexivity.
    + f_equal. rewrite <- IH, app_assoc. reflexivity.
Qed.

Lemma fresh_tokens_app (seen a b : list string) :
  fresh_tokens seen (a ++ b)
  = fresh_tokens seen a ++ fresh_tokens (seen ++ fresh_tokens seen a) b.
Proof.
  revert seen. induction a as [|x r IH]; intros seen; cbn [fresh_tokens app].
  - rewrite app_nil_r. reflexivity.
  - destruct (mem x seen); [apply IH|].
    cbn [app]. f_equal. rewrite IH, <- app_assoc. reflexivity.
Qed.

Lemma fresh_tokens_NoDup_id (seen s : list string) :
  NoDup s -> (forall x, In x s -> ~ In x seen) -> fresh_tokens seen s = s.
Proof.
  revert seen. induction s as [|x r IH]; intros seen Hnd Hdis;
    cbn [fresh_tokens]; [reflexivity|].
  inversion Hnd as [|? ? Hx Hr]; subst.
  rewrite (proj2 (mem_false_In x seen)) by (apply Hdis; left; reflexivity).
  f_equal. apply IH; [exact Hr|].
  intros y Hy Hin. apply in_app_or in Hin as [Hin|[<-|[]]].
  - apply (Hdis y); [right; exact Hy | exact Hin].
  - exact (Hx Hy).
Qed.

Lemma fresh_tokens_length (seen s : list string) :
  length (fresh_tokens seen s) <= length s.
Proof.
  revert seen. induction s as [|x r IH]; intros seen; cbn [fresh_tokens];
    [apply Nat.le_refl|].
  destruct (mem x seen); cbn [length].
  - apply Nat.le_trans with (length r); [apply IH | apply Nat.le_succ_diag_r].
  - apply le_n_S, IH.
Qed.

(** X4. [unique] returns a duplicate-free list with the members of its
    argument, no longer than it; a duplicate-free list is returned as it
    is, so [unique] is idempotent. *)
Theorem unique_spec (s : list string) :
  NoDup (unique s)
  /\ (forall x, In x (unique s) <-> In x s)
  /\ length (unique s) <= length s
  /\ (NoDup s -> unique s = s)
  /\ unique (unique s) = unique s.
Proof.
  assert (Hid : forall l, NoDup l -> unique l = l).
  { intros l Hl. rewrite unique_fresh.
    apply fresh_tokens_NoDup_id; [exact Hl | intros x _ []]. }
  split; [apply unique_NoDup|].
  split; [intros x; apply unique_In|].
  split; [rewrite unique_fresh; apply fresh_tokens_length|].
  split; [apply Hid | apply Hid, unique_NoDup].
Qed.

Lemma unique_spec_witness :
  unique ["bold"; "extended"] = ["bold"; "extended"].
Proof.
  apply (proj1 (proj2 (proj2 (proj2 (unique_spec ["bold"; "extended"]))))).
  repeat constructor; cbn [In]; intros H;
    repeat (destruct H as [H|H]; [discriminate H|]); exact H.
Defined.

(** X5. [unique] is stable: the tokens of the first list come first, in their
    first-seen order, followed by the first occurrences of the tokens of
    the second list that the first list does not have. *)
Theorem unique_app (a b : list string) :
  unique (a ++ b)
  = unique a ++ filter (fun x => negb (mem x a)) (unique b).
Proof.
  rewrite !unique_fresh, fresh_tokens_app. f_equal. cbn [app].
  rewrite <- (app_nil_r (fresh_tokens [] a)) at 1.
  rewrite fresh_tokens_filter. apply filter_ext. intros x. f_equal.
  destruct (mem x a) eqn:E.
  - apply mem_In. rewrite <- unique_fresh. apply unique_In, mem_In, E.
  - apply mem_false_In. rewrite <- unique_fresh, unique_In.
    apply mem_false_In, E.
Qed.

(** ** Laws of [breakout] *)

Lemma flat_map_map_comm {A B C : Type} (f : A -> B) (g : B -> list C)
      (l : list A) :
  flat_map g (map f l) = flat_map (fun a => g (f a)) l.
Proof.
  induction l as [|a r IH]; cbn [map flat_map]; [reflexivity|].
  rewrite IH. reflexivity.
Qed.

Lemma flat_map_flat_map {A B C : Type} (f : A -> list B) (g : B -> list C)
      (l : list A) :
  flat_map g (flat_map f l) = flat_map (fun a => flat_map g (f a)) l.
Proof.
  induction l as [|a r IH]; cbn [flat_map]; [reflexivity|].
  rewrite flat_map_app, IH. reflexivity.
Qed.

Lemma group_product_zero (lyst : list (list string)) :
  group_product lyst = 0 <-> In [] lyst.
Proof.
  induction lyst as [|g rest IH]; cbn [group_product fold_right In].
  - split; [discriminate | tauto].
  - fold (group_product rest). rewrite Nat.eq_mul_0, IH.
    destruct g; cbn [length]; split; intros [H|H]; auto; discriminate.
Qed.

(** X6. [breakout] yields nothing exactly when some group has no choice at
    all; a group whose only choice is the empty one changes nothing. *)
Theorem breakout_empty_group (lyst : list (list string)) :
  (breakout lyst = [] <-> In [] lyst)
  /\ breakout ([""] :: lyst) = breakout lyst.
Proof.
  split.
  - rewrite <- group_product_zero, <- breakout_length.
    destruct (breakout lyst); cbn [length]; split; congruence.
  - cbn [breakout flat_map truthy]. apply app_nil_r.
Qed.

(** X7. The combinations of two lists of groups put one after the other are
    the concatenations of a combination of the first with a combination
    of the second, the first varying slowest. *)
Theorem breakout_app (l1 l2 : list (list string)) :
  breakout (l1 ++ l2)
  = flat_map (fun a => map (fun b => a ++ b) (breakout l2)) (breakout l1).
Proof.
  induction l1 as [|g rest IH]; cbn [app breakout].
  - cbn [flat_map app]. rewrite app_nil_r, map_id. reflexivity.
  - rewrite flat_map_flat_map. apply flat_map_ext. intros i.
    destruct (truthy i); [|exact IH].
    rewrite IH, map_flat_map_comm, flat_map_map_comm.
    apply flat_map_ext. intros a. rewrite map_map. reflexivity.
Qed.

(** ** The feature list of a font record *)

Lemma features_loop_spec (lines : list string) (n : nat)
      (features : list string) :
  features_loop lines n features
  = (n + length (filter is_num_line lines),
     features ++ map (substring 0 4) lines).
Proof.
  revert n features. induction lines as [|line r IH]; intros n features.
  - cbn [features_loop filter map length]. rewrite Nat.add_0_r, app_nil_r.
    reflexivity.
  - cbn [features_loop filter map]. rewrite IH. unfold is_num_line at 2.
    destruct (String.eqb (substring 1 3 line) "num"); cbn [length];
      rewrite <- app_assoc; cbn [app]; f_equal; lia.
Qed.

Lemma substring_0_length (m : nat) (s : string) :
  String.length (substring 0 m s) <= m.
Proof.
  revert s. induction m as [|m IH]; intros s.
  - destruct s; cbn; lia.
  - destruct s as [|a r]; cbn [substring String.length]; [lia|].
    specialize (IH r). lia.
Qed.

Lemma substring_0_idem (m : nat) (s : string) :
  substring 0 m (substring 0 m s) = substring 0 m s.
Proof.
  revert s. induction m as [|m IH]; intros s.
  - destruct s; reflexivity.
  - destruct s as [|a r]; cbn [substring]; [reflexivity|].
    rewrite IH. reflexivity.
Qed.

Lemma tag_is_num_line (line : string) :
  is_num_line (substring 0 4 line) = is_num_line line.
Proof.
  unfold is_num_line. destruct line as [|a r]; [reflexivity|].
  change (substring 0 4 (String a r)) with (String a (substring 0 3 r)).
  change (substring 1 3 (String a (substring 0 3 r)))
    with (substring 0 3 (substring 0 3 r)).
  rewrite substring_0_idem. reflexivity.
Qed.

Lemma buildFontRecord_features (info : OtfInfo) :
  fr_features (buildFontRecord info)
  = map (substring 0 4) (oi_featureLines info)
    ++ (if is_nil (filter is_num_line (oi_featureLines info))
        then ["fakenum"] else []).
Proof.
  unfold buildFontRecord. rewrite features_loop_spec.
  destruct (axes_loop (oi_subfamily info) [] [] []) as [[w wd] v].
  cbn [fr_features app Nat.add].
  destruct (filter is_num_line (oi_featureLines info));
    cbn [length Nat.eqb is_nil]; [reflexivity | symmetry; apply app_nil_r].
Qed.

(** X8. For a feature report in ASCII, the features of a font record are
    the first four characters of each reported line, in the order of the
    report, followed by "fakenum" exactly when no line has "num" as its
    second to fourth characters; so the record always holds "fakenum" or a
    tag of the form ?num, never both. *)
Theorem features_have_numeral (info : OtfInfo) :
  Forall (fun line => is_ascii line = true) (oi_featureLines info) ->
  let features := fr_features (buildFontRecord info) in
  features
  = map (substring 0 4) (oi_featureLines info)
    ++ (if is_nil (filter is_num_line (oi_featureLines info))
        then ["fakenum"] else [])
  /\ (In "fakenum" features
      <-> Forall (fun line => is_num_line line = false) (oi_featureLines info))
  /\ (In "fakenum" features
      <-> Forall (fun f => is_num_line f = false)
                 (map (substring 0 4) (oi_featureLines info)))
  /\ (exists f, In f features /\ (f = "fakenum" \/ is_num_line f = true))
  /\ ~ (In "fakenum" features
        /\ exists f, In f features /\ is_num_line f = true).
Proof.
  intros _ features. unfold features. rewrite buildFontRecord_features.
  set (lines := oi_featureLines info).
  assert (Htag : ~ In "fakenum" (map (substring 0 4) lines)).
  { intros H. apply in_map_iff in H as [line [H _]].
    pose proof (substring_0_length 4 line) as Hlen. rewrite H in Hlen.
    cbn in Hlen. lia. }
  assert (Hnone : filter is_num_line lines = []
                  <-> Forall (fun line => is_num_line line = false) lines).
  { induction lines as [|l r IH]; cbn [filter].
    - split; [constructor | reflexivity].
    - destruct (is_num_line l) eqn:E.
      + split; [discriminate | intros H; inversion H; congruence].
      + rewrite (IH ltac:(intros H; apply Htag; right; exact H)).
        split; [constructor; assumption | intros H; inversion H; assumption]. }
  assert (H1 : In "fakenum"
                  (map (substring 0 4) lines
                   ++ (if is_nil (filter is_num_line lines)
                       then ["fakenum"] else []))
               <-> Forall (fun line => is_num_line line = false) lines).
  { rewrite <- Hnone, in_app_iff.
    destruct (filter is_num_line lines) eqn:E; cbn [is_nil In].
    - split; [reflexivity | auto].
    - split; [intros [H|[]]; contradiction | discriminate]. }
  assert (H2 : Forall (fun line => is_num_line line = false) lines
               <-> Forall (fun f => is_num_line f = false)
                          (map (substring 0 4) lines)).
  { rewrite Forall_map.
    split; apply Forall_impl; intros l Hl; rewrite tag_is_num_line in *;
      exact Hl. }
  split; [reflexivity|]. split; [exact H1|]. split; [|split].
  - rewrite H1. exact H2.
  - destruct (filter is_num_line lines) as [|l r] eqn:E; cbn [is_nil].
    + exists "fakenum". split; [|left; reflexivity].
      apply in_or_app. right. left. reflexivity.
    + assert (Hl : In l (filter is_num_line lines))
        by (rewrite E; left; reflexivity).
      apply filter_In in Hl as [Hin Hnum].
      exists (substring 0 4 l). split.
      * apply in_or_app. left. apply in_map, Hin.
      * right. rewrite tag_is_num_line. exact Hnum.
  - intros [Hfake [f [Hf Hnum]]].
    pose proof (proj1 H1 Hfake) as Hlines.
    pose proof (proj1 H2 Hlines) as Htags.
    rewrite (proj2 Hnone Hlines) in Hf. cbn [is_nil] in Hf.
    apply in_app_or in Hf as [Hf|[<-|[]]].
    + rewrite Forall_forall in Htags. rewrite (Htags f Hf) in Hnum.
      discriminate Hnum.
    + discriminate Hnum.
Qed.

Lemma features_have_numeral_witness :
  fr_features (buildFontRecord sample_bold_twice) = ["kern"; "fakenum"]
  /\ fr_features (buildFontRecord sample_report) = ["kern"; "onum"; "smcp"]
  /\ ~ In "fakenum" (fr_features (buildFontRecord sample_report)).
Proof.
  assert (A1 : Forall (fun line => is_ascii line = true)
                      (oi_featureLines sample_bold_twice)).
  { repeat constructor. }
  assert (A2 : Forall (fun line => is_ascii line = true)
                      (oi_featureLines sample_report)).
  { repeat constructor. }
  destruct (features_have_numeral sample_bold_twice A1) as [H1 _].
  destruct (features_have_numeral sample_report A2) as [H2 [H3 _]].
  split; [exact H1|]. split; [exact H2|].
  intros H. apply H3 in H. inversion H as [|x l _ Hr]. inversion Hr as [|y l' Hy _].
  discriminate Hy.
Defined.

(** ** The combinations of one font *)

Lemma myOptionList_member (features opt : list string) (t : string) :
  In opt (myOptionList features) -> In t opt ->
  (t = "" \/ In t features)
  /\ exists g, In g optionList /\ In t g.
Proof.
  unfold myOptionList. intros Hopt Ht.
  apply in_flat_map in Hopt as [g [Hg Hopt]]. cbn zeta in Hopt.
  destruct (is_nil _); [destruct Hopt|].
  destruct Hopt as [<-|[]]. apply filter_In in Ht as [Ht Hk].
  split; [|exists g; auto].
  apply orb_true_iff in Hk as [Hk|Hk].
  - left. destruct t; [reflexivity | discriminate Hk].
  - right. apply mem_In, Hk.
Qed.

Lemma Forall2_In_l {A B : Type} (R : A -> B -> Prop) (l : list A)
      (l' : list B) (a : A) :
  Forall2 R l l' -> In a l -> exists b, In b l' /\ R a b.
Proof.
  induction 1 as [|x y l l' Hxy _ IH]; intros Ha; [destruct Ha|].
  destruct Ha as [<-|Ha].
  - exists y. split; [left; reflexivity | exact Hxy].
  - destruct (IH Ha) as [b [Hb Hab]]. exists b. split; [right|]; assumption.
Qed.

Lemma Forall2_In_r {A B : Type} (R : A -> B -> Prop) (l : list A)
      (l' : list B) (b : B) :
  Forall2 R l l' -> In b l' -> exists a, In a l /\ R a b.
Proof.
  induction 1 as [|x y l l' Hxy _ IH]; intros Hb; [destruct Hb|].
  destruct Hb as [<-|Hb].
  - exists x. split; [left; reflexivity | exact Hxy].
  - destruct (IH Hb) as [a [Ha Hab]]. exists a. split; [right|]; assumption.
Qed.

Lemma breakout_picks (lyst : list (list string)) (o : list string) :
  In o (breakout lyst) ->
  exists picks, Forall2 (fun p g => In p g) picks lyst
                /\ o = filter truthy picks.
Proof.
  rewrite breakout_choices. intros H.
  apply in_map_iff in H as [picks [<- Hp]].
  exists picks. split; [apply choices_In, Hp | reflexivity].
Qed.

Lemma group_product_pos (lyst : list (list string)) :
  Forall (fun g => g <> []) lyst -> 1 <= group_product lyst.
Proof.
  induction 1 as [|g rest Hg _ IH]; cbn [group_product fold_right];
    [apply Nat.le_refl|].
  fold (group_product rest). destruct g; [congruence|]. cbn [length]. nia.
Qed.

Lemma filter_length_le {A : Type} (f : A -> bool) (l : list A) :
  length (filter f l) <= length l.
Proof.
  induction l as [|a r IH]; cbn [filter length]; [lia|].
  destruct (f a); cbn [length]; lia.
Qed.

Lemma myOptionList_product (features : list string) :
  group_product (myOptionList features) <= 14.
Proof.
  unfold myOptionList, optionList. cbn [flat_map].
  repeat match goal with
         | |- context [filter ?f ?g] =>
             let H := fresh "H" in
             pose proof (filter_length_le f g) as H;
             cbn [length] in H;
             destruct (filter f g)
         end;
    cbn [is_nil app group_product fold_right length] in *; nia.
Qed.

Lemma myOptionList_length (features : list string) :
  length (myOptionList features) <= length optionList.
Proof.
  unfold myOptionList, optionList. cbn [flat_map].
  repeat match goal with
         | |- context [filter ?f ?g] => destruct (filter f g)
         end;
    cbn [is_nil app length]; lia.
Qed.

Lemma myOptionList_group (features g : list string) (t : string) :
  In g optionList -> In t g -> In t features ->
  In (filter (fun oo => negb (truthy oo) || mem oo features) g)
     (myOptionList features).
Proof.
  intros Hg Ht Hf.
  set (keep := fun oo => negb (truthy oo) || mem oo features).
  assert (Hin : In t (filter keep g)).
  { apply filter_In. split; [exact Ht|]. unfold keep.
    rewrite (proj2 (mem_In _ _) Hf). apply orb_true_r. }
  unfold myOptionList. apply in_flat_map. exists g. split; [exact Hg|].
  cbn zeta. fold keep. destruct (filter keep g); [destruct Hin|].
  left. reflexivity.
Qed.

Lemma picks_filter_length (P : string -> bool) (picks : list string)
      (lyst : list (list string)) :
  Forall2 (fun p g => In p g) picks lyst ->
  length (filter P picks) <= length (filter (existsb P) lyst).
Proof.
  induction 1 as [|p g picks lyst Hp _ IH]; cbn [filter length]; [lia|].
  destruct (P p) eqn:E.
  - rewrite (proj2 (existsb_exists P g)) by (exists p; auto).
    cbn [length]. lia.
  - destruct (existsb P g); cbn [length]; lia.
Qed.

Lemma myOptionList_filter_length (P : string -> bool)
      (features : list string) :
  length (filter (existsb P) (myOptionList features))
  <= length (filter (existsb P) optionList).
Proof.
  unfold myOptionList. induction optionList as [|o L IH];
    cbn [flat_map filter length]; [lia|].
  set (opt := filter (fun oo => negb (truthy oo) || mem oo features) o).
  rewrite filter_app, length_app.
  assert (H : length (filter (existsb P) (if is_nil opt then [] else [opt]))
              <= if existsb P o then 1 else 0).
  { destruct (is_nil opt); cbn [filter length]; [destruct (existsb P o); lia|].
    destruct (existsb P opt) eqn:E; cbn [length];
      [|destruct (existsb P o); lia].
    apply existsb_exists in E as [t [Ht HP]].
    apply filter_In in Ht as [Ht _].
    rewrite (proj2 (existsb_exists P o)) by (exists t; auto). lia. }
  destruct (existsb P o); cbn [length]; lia.
Qed.

Lemma filter_filter_length {A : Type} (P f : A -> bool) (l : list A) :
  length (filter P (filter f l)) <= length (filter P l).
Proof.
  induction l as [|a r IH]; cbn [filter length]; [lia|].
  destruct (f a); cbn [filter]; destruct (P a); cbn [length]; lia.
Qed.

(** X9. Every combination of a font is made of features the font has and
    holds at most one token of each group of [optionList]; a group without
    empty choice of which the font has a feature gives a token to every
    combination (so a font that has kern, or liga, gets it in all its
    combinations); and a font has at least one and at most fourteen
    combinations. *)
Theorem font_combinations (features : list string) :
  (forall o : list string,
      In o (breakout (myOptionList features)) ->
      Forall (fun t => In t features) o
      /\ (forall g : list string,
             In g optionList ->
             length (filter (fun t => mem t g) o) <= 1)
      /\ length o <= length optionList
      /\ (forall (g : list string) (t : string),
             In g optionList -> ~ In "" g -> In t g -> In t features ->
             exists t', In t' g /\ In t' o))
  /\ 1 <= length (breakout (myOptionList features)) <= 14.
Proof.
  split.
  - intros o Ho. apply breakout_picks in Ho as [picks [Hp ->]].
    split; [|split; [|split]].
    + apply Forall_forall. intros t Ht. apply filter_In in Ht as [Ht Htr].
      destruct (Forall2_In_l _ _ _ t Hp Ht) as [opt [Hopt Hin]].
      destruct (myOptionList_member features opt t Hopt Hin) as [[->|H] _];
        [discriminate Htr | exact H].
    + intros g Hg.
      apply Nat.le_trans with (length (filter (fun t => mem t g) picks));
        [apply filter_filter_length|].
      apply Nat.le_trans
        with (length (filter (existsb (fun t => mem t g))
                             (myOptionList features)));
        [apply picks_filter_length, Hp|].
      apply (Nat.le_trans
               _ _ _ (myOptionList_filter_length (fun t => mem t g) features)).
      unfold optionList in Hg. cbn [In] in Hg.
      repeat (destruct Hg as [<-|Hg]; [vm_compute; lia|]). destruct Hg.
    + apply Nat.le_trans with (length picks); [apply filter_length_le|].
      rewrite (Forall2_length Hp). apply myOptionList_length.
    + intros g t Hg Hne Ht Hf.
      pose proof (myOptionList_group features g t Hg Ht Hf) as Hopt.
      destruct (Forall2_In_r _ _ _ _ Hp Hopt) as [p [Hpin Hpopt]].
      apply filter_In in Hpopt as [Hpg _].
      exists p. split; [exact Hpg|]. apply filter_In. split; [exact Hpin|].
      destruct p; [contradiction | reflexivity].
  - rewrite breakout_length. split.
    + apply group_product_pos, myOptionList_groups.
    + apply myOptionList_product.
Qed.

Lemma font_combinations_witness :
  Forall (fun t => In t ["kern"; "liga"; "onum"; "smcp"])
         ["kern"; "liga"; "onum"]
  /\ length (filter (fun t => mem t ["lnum"; "onum"; "swsh"; "sinf"; "sups";
                                     "pnum"; "fakenum"])
                    ["kern"; "liga"; "onum"]) <= 1
  /\ exists t', In t' ["kern"] /\ In t' ["kern"; "liga"; "onum"].
Proof.
  destruct (proj1 (font_combinations ["kern"; "liga"; "onum"; "smcp"])
                  ["kern"; "liga"; "onum"])
    as [H1 [H2 [_ H3]]].
  - vm_compute. auto.
  - split; [exact H1|]. split.
    + apply H2. vm_compute. auto.
    + apply (H3 ["kern"] "kern").
      * left. reflexivity.
      * cbn [In]. intros [H|[]]. discriminate H.
      * left. reflexivity.
      * left. reflexivity.
Defined.

(** ** What the options of the shipped configuration do *)

Ltac by_token t :=
  repeat match goal with
         | |- context [String.eqb t ?s] =>
             destruct (String.eqb_spec t s) as [->|?]
         end.

Lemma selects_family (t : string) :
  selects newFontFamilyOptionList t = mem t familyOptions.
Proof.
  unfold selects, newFontFamilyOptionList, fakeOptionList, familyOptions.
  cbn [mem]. by_token t; reflexivity.
Qed.

Lemma selects_global (t : string) :
  selects globalOptionList t = mem t ["kern"; "liga"].
Proof.
  unfold selects, globalOptionList, fakeOptionList.
  cbn [mem]. by_token t; reflexivity.
Qed.

Lemma selects_variant (t : string) :
  selects variantOptionList t = String.eqb t "smcp".
Proof.
  unfold selects, variantOptionList, fakeOptionList.
  cbn [mem]. by_token t; reflexivity.
Qed.

Lemma option_step_config (weight width variant oo : string) (x : Extended) :
  option_step weight width variant x oo
  = mkExtended
      (xfamily x ++ (if mem oo familyOptions then [oo] else []))
      (xweight x) (xwidth x)
      (if String.eqb oo "smcp" then l2s (s2l variant ++ [oo])
       else xvariant x)
      (cmdlineoptions x ++ (if mem oo commandOptions then [oo] else [])).
Proof.
  unfold option_step.
  rewrite selects_family, selects_global, selects_variant.
  change (selects weightOptionList oo) with false.
  change (selects widthOptionList oo) with false.
  destruct x as [xf xw xwd xv cmdl].
  unfold familyOptions, commandOptions. cbn [mem].
  by_token oo;
    cbn [add_cmdline add_xfamily set_xvariant xfamily xweight xwidth xvariant
         cmdlineoptions];
    rewrite ?app_nil_r; reflexivity.
Qed.

Lemma fold_option_step_config (weight width variant : string)
      (o : list string) (x : Extended) :
  fold_left (option_step weight width variant) o x
  = mkExtended
      (xfamily x ++ filter (fun t => mem t familyOptions) o)
      (xweight x) (xwidth x)
      (if mem "smcp" o then l2s (s2l variant ++ ["smcp"]) else xvariant x)
      (cmdlineoptions x ++ filter (fun t => mem t commandOptions) o).
Proof.
  revert x. induction o as [|oo r IH]; intros x; cbn [fold_left filter mem].
  - rewrite !app_nil_r. destruct x; reflexivity.
  - rewrite IH, option_step_config.
    cbn [xfamily xweight xwidth xvariant cmdlineoptions].
    rewrite (String.eqb_sym "smcp" oo).
    destruct (String.eqb_spec oo "smcp") as [->|Hne].
    + f_equal.
      * rewrite <- app_assoc. reflexivity.
      * destruct (mem "smcp" r); reflexivity.
      * rewrite <- app_assoc. reflexivity.
    + f_equal.
      * rewrite <- app_assoc.
        destruct (mem oo familyOptions); reflexivity.
      * rewrite <- app_assoc.
        destruct (mem oo commandOptions); reflexivity.
Qed.

(** X10. With the shipped option lists a combination never changes the weight
    or the width; the extended family is the family followed by the
    combination's numeral-style and swash options, the command line is its
    kern, liga and smcp tokens, both in the order of the combination, and
    the variant gains "smcp" exactly when the combination has it. *)
Theorem applyOptions_config (family weight width variant : string)
        (o : list string) :
  let x := applyOptions family weight width variant o in
  xfamily x = family :: filter (fun t => mem t familyOptions) o
  /\ xweight x = weight
  /\ xwidth x = width
  /\ xvariant x = (if mem "smcp" o then l2s (s2l variant ++ ["smcp"])
                   else variant)
  /\ cmdlineoptions x = filter (fun t => mem t commandOptions) o.
Proof.
  unfold applyOptions. rewrite fold_option_step_config.
  cbn [xfamily xweight xwidth xvariant cmdlineoptions app]. auto.
Qed.

(** ** Codes of axis tokens *)

Lemma axis_key_mem (names : list string) (s : string) :
  forallb (fun t => mem t names) (s2l s) = true -> axis_key names s.
Proof.
  intros H. unfold axis_key. apply Forall_forall. intros t Ht.
  rewrite forallb_forall in H. apply mem_In, H, Ht.
Qed.

Lemma well_coded_In (names : list string) (t : string) :
  well_coded names = true -> In t names ->
  truthy t = true /\ has_sep t = false
  /\ exists c, get t optionMappings = Some c
               /\ (t <> "regular" -> c <> "").
Proof.
  unfold well_coded. intros H Ht.
  rewrite forallb_forall in H. specialize (H t Ht).
  apply andb_true_iff in H as [H Hc]. apply andb_true_iff in H as [H1 H2].
  split; [exact H1|]. split; [apply negb_true_iff, H2|].
  destruct (get t optionMappings) as [c|]; [|discriminate Hc].
  exists c. split; [reflexivity|]. intros Hne ->.
  apply orb_true_iff in Hc as [Hc|Hc]; [|discriminate Hc].
  apply String.eqb_eq in Hc. contradiction.
Qed.

Lemma append_nonempty_l (a b : string) : a <> "" -> (a ++ b)%string <> "".
Proof. destruct a; [congruence | discriminate]. Qed.

Lemma append_nonempty_r (a b : string) : b <> "" -> (a ++ b)%string <> "".
Proof. destruct a; [auto | discriminate]. Qed.

Lemma codes_ok (names opts : list string) (acc : string) :
  well_coded names = true -> Forall (fun t => In t names) opts ->
  exists code,
    append_codes acc opts = Ok (acc ++ code)%string
    /\ (forall t, In t opts -> t <> "regular" -> code <> "").
Proof.
  intros Hw Hall. revert acc.
  induction Hall as [|t r Ht _ IH]; intros acc.
  - exists "". rewrite append_empty_r. split; [reflexivity|]. intros t [].
  - destruct (well_coded_In names t Hw Ht) as [_ [_ [c [Hc Hne]]]].
    destruct (IH (acc ++ c)%string) as [code [Hcode Hrest]].
    exists (c ++ code)%string. split.
    + cbn [append_codes]. unfold getitem. rewrite Hc. cbn [bind].
      rewrite Hcode, append_assoc. reflexivity.
    + intros t0 [<-|Hin] Ht0.
      * apply append_nonempty_l, Hne, Ht0.
      * apply append_nonempty_r, (Hrest t0 Hin Ht0).
Qed.

Lemma other_than_regular (l : list string) :
  NoDup l -> l <> [] -> l <> ["regular"] ->
  exists t, In t l /\ t <> "regular".
Proof.
  intros Hnd Hnil Hreg.
  destruct l as [|x r]; [congruence|].
  destruct (String.eqb_spec x "regular") as [->|Hx];
    [|exists x; split; [left; reflexivity | exact Hx]].
  destruct r as [|y r']; [congruence|].
  exists y. split; [right; left; reflexivity|]. intros ->.
  inversion Hnd as [|? ? Hn _]; subst. apply Hn. left. reflexivity.
Qed.

Lemma builder_nonreserved (names opts : list string) (acc : string) :
  well_coded names = true -> Forall (fun t => In t names) opts ->
  NoDup opts -> opts <> [] -> opts <> ["regular"] ->
  exists code, append_codes acc opts = Ok (acc ++ code)%string
               /\ code <> "".
Proof.
  intros Hw Hall Hnd Hnil Hreg.
  destruct (codes_ok names opts acc Hw Hall) as [code [Hcode Hne]].
  destruct (other_than_regular opts Hnd Hnil Hreg) as [t [Ht Htr]].
  exists code. split; [exact Hcode | exact (Hne t Ht Htr)].
Qed.

Lemma series_names_coded : well_coded (weightNames ++ widthNames) = true.
Proof. reflexivity. Qed.

Lemma shape_names_coded : well_coded (variantNames ++ ["smcp"]) = true.
Proof. reflexivity. Qed.

Lemma buildSeries_axis (weight width : string) :
  axis_key weightNames weight -> axis_key widthNames width ->
  exists series, buildSeries weight width = Ok series /\ series <> "".
Proof.
  intros Hw Hwd. unfold buildSeries.
  set (opts := unique (s2l weight ++ s2l width)).
  destruct (String.eqb (l2s opts) "regular" || is_nil opts) eqn:E.
  - exists "m". split; [reflexivity | discriminate].
  - assert (Hall : Forall (fun t => In t (weightNames ++ widthNames)) opts).
    { apply unique_Forall, Forall_app. split.
      - eapply Forall_impl; [|exact Hw]. intros t Ht.
        apply in_or_app. left. exact Ht.
      - eapply Forall_impl; [|exact Hwd]. intros t Ht.
        apply in_or_app. right. exact Ht. }
    destruct (builder_nonreserved _ opts "" series_names_coded Hall)
      as [code [Hcode Hne]].
    + apply unique_NoDup.
    + intros H. rewrite H in E. discriminate E.
    + intros H. rewrite H in E. discriminate E.
    + exists code. split; [exact Hcode | exact Hne].
Qed.

Lemma buildShape_tokens (variant : string) :
  Forall (fun t => In t (variantNames ++ ["smcp"])) (s2l variant) ->
  exists shape, buildShape variant = Ok shape /\ shape <> "".
Proof.
  intros Hv. unfold buildShape.
  set (opts := unique (s2l variant)).
  assert (Hall : Forall (fun t => In t (variantNames ++ ["smcp"])) opts)
    by (apply unique_Forall, Hv).
  destruct (String.eqb (l2s opts) "regular" || is_nil opts) eqn:E.
  - exists "n". split; [reflexivity | discriminate].
  - destruct (mem "italic" opts && mem "smcp" opts) eqn:Eis.
    + apply andb_true_iff in Eis as [Hi Hs].
      apply mem_In in Hi. apply mem_In in Hs.
      rewrite (remove_italic_smcp opts (unique_NoDup _) Hi Hs).
      cbn [bind fst snd].
      destruct (codes_ok (variantNames ++ ["smcp"]) (other_tokens opts) "si"
                         shape_names_coded) as [code [Hcode _]].
      { unfold other_tokens. apply Forall_forall. intros t Ht.
        apply filter_In in Ht as [Ht _].
        rewrite Forall_forall in Hall. apply Hall, Ht. }
      exists ("si" ++ code)%string. split; [exact Hcode | discriminate].
    + cbn [bind fst snd].
      destruct (builder_nonreserved _ opts "" shape_names_coded Hall)
        as [code [Hcode Hne]].
      * apply unique_NoDup.
      * intros H. rewrite H in E. discriminate E.
      * intros H. rewrite H in E. discriminate E.
      * exists code. split; [exact Hcode | exact Hne].
Qed.

Lemma xvariant_tokens (variant : string) (smcp : bool) :
  axis_key variantNames variant ->
  Forall (fun t => In t (variantNames ++ ["smcp"]))
         (s2l (if smcp then l2s (s2l variant ++ ["smcp"]) else variant)).
Proof.
  intros Hv.
  assert (Hin : Forall (fun t => In t (variantNames ++ ["smcp"]))
                       (s2l variant ++ ["smcp"])).
  { apply Forall_app. split.
    - eapply Forall_impl; [|exact Hv]. intros t Ht.
      apply in_or_app. left. exact Ht.
    - constructor; [|constructor]. apply in_or_app. right. left. reflexivity. }
  destruct smcp.
  - destruct (s2l variant ++ ["smcp"]) as [|x r] eqn:E.
    + destruct (s2l variant); discriminate E.
    + rewrite s2l_l2s_head; [exact Hin| |].
      * inversion Hin as [|? ? Hx _]; subst.
        apply (well_coded_In _ x shape_names_coded Hx).
      * eapply Forall_impl; [|exact Hin]. intros t Ht.
        apply (well_coded_In _ t shape_names_coded Ht).
  - apply Forall_app in Hin as [Hin _]. exact Hin.
Qed.

(** X11. For every font record whose weight, width and variant keys are made of
    axis names, and every combination, both builders return a code and the
    code is not empty: the tables of the program have a code for every
    token it can form, and only "regular" has the empty code. *)
Theorem codes_exist (weight width variant : string) (o : list string)
        (family : string) :
  axis_key weightNames weight -> axis_key widthNames width ->
  axis_key variantNames variant ->
  let x := applyOptions family weight width variant o in
  exists series shape : string,
    buildSeries (xweight x) (xwidth x) = Ok series
    /\ buildShape (xvariant x) = Ok shape
    /\ series <> "" /\ shape <> "".
Proof.
  intros Hw Hwd Hv x.
  unfold x, applyOptions. rewrite fold_option_step_config.
  cbn [xweight xwidth xvariant].
  destruct (buildSeries_axis weight width Hw Hwd) as [series [Hs Hsn]].
  destruct (buildShape_tokens _ (xvariant_tokens variant (mem "smcp" o) Hv))
    as [shape [Hsh Hshn]].
  exists series, shape. auto.
Qed.

Lemma codes_exist_witness :
  exists series shape : string,
    buildSeries "bold" "condensed" = Ok series
    /\ buildShape "italic-smcp" = Ok shape
    /\ series <> "" /\ shape <> "".
Proof.
  apply (codes_exist "bold" "condensed" "italic" ["kern"; "smcp"]
                     "Minion Pro").
  - apply axis_key_mem. reflexivity.
  - apply axis_key_mem. reflexivity.
  - apply axis_key_mem. reflexivity.
Defined.

(** ** The run never raises *)

Lemma foldM_total {A S : Type} (body : S -> A -> result S) (l : list A) :
  (forall s a, In a l -> exists s', body s a = Ok s') ->
  forall s, exists s', foldM body l s = Ok s'.
Proof.
  induction l as [|a r IH]; intros Hbody s; cbn [foldM].
  - exists s. reflexivity.
  - destruct (Hbody s a (or_introl eq_refl)) as [s1 Hs1]. rewrite Hs1.
    cbn [bind]. apply IH. intros s0 a0 Ha0. apply Hbody. right. exact Ha0.
Qed.

Lemma get_Some_of_key {V : Type} (k : string) (d : odict V) :
  In k (keys d) -> exists v, get k d = Some v.
Proof.
  intros H. destruct (get k d) as [v|] eqn:E; [exists v; reflexivity|].
  apply get_None_keys in E. contradiction.
Qed.

Lemma for_keys_total {V S : Type} (d : odict V)
      (body : S -> string -> V -> result S) :
  (forall s k v, get k d = Some v -> exists s', body s k v = Ok s') ->
  forall s, exists s', for_keys d body s = Ok s'.
Proof.
  intros Hbody. unfold for_keys. apply foldM_total.
  intros s k Hk. destruct (get_Some_of_key k d Hk) as [v Hv].
  unfold getitem. rewrite Hv. cbn [bind]. apply Hbody, Hv.
Qed.

Lemma insertRecord_total (fr : FontRecord) (name xfam series shape : string)
      (cmdl : list string) (ef : ExplodedFonts) :
  exists ef', insertRecord fr name xfam series shape cmdl ef = Ok ef'.
Proof.
  unfold insertRecord. rewrite writeRecord_spec. cbn [bind].
  eexists. reflexivity.
Qed.

Lemma explodeCombination_total (fonthash : Fonthash)
      (name weight width variant : string) (o : list string)
      (ef : ExplodedFonts) (fr : FontRecord) :
  get name fonthash = Some fr ->
  axis_key weightNames weight -> axis_key widthNames width ->
  axis_key variantNames variant ->
  exists ef',
    explodeCombination fonthash name weight width variant o ef = Ok ef'.
Proof.
  intros Hfr Hw Hwd Hv. unfold explodeCombination, getitem.
  rewrite Hfr. cbn [bind]. unfold applyOptions.
  rewrite fold_option_step_config. cbn [xweight xwidth xvariant xfamily
                                        cmdlineoptions].
  destruct (buildSeries_axis weight width Hw Hwd) as [series [Hs _]].
  destruct (buildShape_tokens _ (xvariant_tokens variant (mem "smcp" o) Hv))
    as [shape [Hsh _]].
  rewrite Hs. cbn [bind]. rewrite Hsh. cbn [bind].
  apply insertRecord_total.
Qed.

Lemma get4_Some {V : Type} (k1 k2 k3 k4 : string)
      (d : odict (odict (odict (odict V)))) (d1 : odict (odict (odict V)))
      (d2 : odict (odict V)) (d3 : odict V) (v : V) :
  get k1 d = Some d1 -> get k2 d1 = Some d2 -> get k3 d2 = Some d3 ->
  get k4 d3 = Some v -> get4 k1 k2 k3 k4 d = Some v.
Proof.
  intros H1 H2 H3 H4. unfold get4. rewrite H1, H2, H3. exact H4.
Qed.

Lemma populate_total (fonthash : Fonthash) (cf : ClassifiedFonts)
      (ef : ExplodedFonts) :
  classified_ok fonthash cf ->
  exists ef', populateFontDataStructures fonthash cf ef = Ok ef'.
Proof.
  intros Hok. unfold populateFontDataStructures. revert ef.
  apply for_keys_total. intros ef k1 d1 H1. revert ef.
  apply for_keys_total. intros ef k2 d2 H2. revert ef.
  apply for_keys_total. intros ef k3 d3 H3. revert ef.
  apply for_keys_total. intros ef k4 opticals H4. revert ef.
  destruct (Hok k1 k2 k3 k4 opticals (get4_Some _ _ _ _ _ _ _ _ _ H1 H2 H3 H4))
    as [Hw [Hwd [Hv Hfonts]]].
  apply foldM_total. intros ef font Hfont.
  rewrite Forall_forall in Hfonts. destruct (Hfonts font Hfont) as [fr Hfr].
  unfold explodeFont, getitem. rewrite Hfr. cbn [bind]. revert ef.
  apply foldM_total. intros ef o _.
  exact (explodeCombination_total fonthash _ _ _ _ o ef fr Hfr Hw Hwd Hv).
Qed.

Lemma s2l_l2s_clean (l : list string) :
  Forall (fun t => truthy t = true /\ has_sep t = false) l ->
  s2l (l2s l) = l.
Proof.
  intros H. destruct l as [|x r]; [reflexivity|].
  apply s2l_l2s_head.
  - inversion H as [|? ? [Hx _] _]. exact Hx.
  - eapply Forall_impl; [|exact H]. intros t [_ Ht]. exact Ht.
Qed.

Lemma axis_field_key (names sub : list string) :
  well_coded names = true ->
  axis_key names (l2s (list_sort (axis_tokens names sub))).
Proof.
  intros Hw. unfold axis_key.
  assert (Hin : Forall (fun t => In t names)
                       (list_sort (axis_tokens names sub))).
  { apply Forall_forall. intros t Ht.
    apply (Permutation_in _ (list_sort_perm _)) in Ht.
    apply filter_In in Ht as [_ Ht]. apply mem_In, Ht. }
  rewrite s2l_l2s_clean; [exact Hin|].
  eapply Forall_impl; [|exact Hin]. intros t Ht.
  destruct (well_coded_In names t Hw Ht) as [H1 [H2 _]]. auto.
Qed.

Lemma buildFontRecord_keys (info : OtfInfo) :
  axis_key weightNames (fr_weight (buildFontRecord info))
  /\ axis_key widthNames (fr_width (buildFontRecord info))
  /\ axis_key variantNames (fr_variant (buildFontRecord info)).
Proof.
  destruct (buildFontRecord_axes info) as [_ [-> [-> ->]]].
  repeat split; apply axis_field_key; reflexivity.
Qed.

Lemma key4_dec (a b : string * string * string * string) : a = b \/ a <> b.
Proof.
  destruct a as [[[a1 a2] a3] a4], b as [[[b1 b2] b3] b4].
  destruct (string_dec a1 b1) as [->|H]; [|right; congruence].
  destruct (string_dec a2 b2) as [->|H]; [|right; congruence].
  destruct (string_dec a3 b3) as [->|H]; [|right; congruence].
  destruct (string_dec a4 b4) as [->|H]; [|right; congruence].
  left. reflexivity.
Qed.

Lemma get_set_Some {V : Type} (k k0 : string) (v v0 : V) (d : odict V) :
  get k0 d = Some v0 -> exists v', get k0 (set k v d) = Some v'.
Proof.
  intros H. destruct (string_dec k0 k) as [->|Hne].
  - exists v. apply get_set_same.
  - exists v0. rewrite get_set_other by exact Hne. exact H.
Qed.

Lemma addToFonthash_ok (info : OtfInfo) (fh : Fonthash)
      (cf : ClassifiedFonts) :
  classified_ok fh cf ->
  exists fh' cf',
    addToFonthash info (fh, cf) = Ok (fh', cf') /\ classified_ok fh' cf'.
Proof.
  intros Hok. unfold addToFonthash. cbn [fst snd].
  set (name := oi_postScriptName info).
  set (fr := buildFontRecord info).
  destruct (classifyFont_leaf (set name fr fh) name cf fr
                              (get_set_same name fr fh))
    as [cf' [Hcf [Hleaf Hframe]]].
  rewrite Hcf. cbn [bind]. exists (set name fr fh), cf'.
  split; [reflexivity|].
  intros k1 k2 k3 k4 opticals Hget.
  destruct (key4_dec (k1, k2, k3, k4)
                     (fr_family fr, fr_weight fr, fr_width fr, fr_variant fr))
    as [E|Hne].
  - injection E as -> -> -> ->. rewrite Hleaf in Hget.
    injection Hget as <-.
    destruct (buildFontRecord_keys info) as [Hw [Hwd Hv]].
    split; [exact Hw|]. split; [exact Hwd|]. split; [exact Hv|].
    apply Forall_app. split.
    + destruct (get4 (fr_family fr) (fr_weight fr) (fr_width fr)
                     (fr_variant fr) cf) as [old|] eqn:Eold; [|constructor].
      destruct (Hok _ _ _ _ _ Eold) as [_ [_ [_ Hall]]].
      eapply Forall_impl; [|exact Hall].
      intros font [fr0 Hfr0]. exact (get_set_Some name _ fr fr0 fh Hfr0).
    + constructor; [|constructor]. exists fr. apply get_set_same.
  - rewrite (Hframe _ _ _ _ Hne) in Hget.
    destruct (Hok _ _ _ _ _ Hget) as [Hw [Hwd [Hv Hall]]].
    split; [exact Hw|]. split; [exact Hwd|]. split; [exact Hv|].
    eapply Forall_impl; [|exact Hall].
    intros font [fr0 Hfr0]. exact (get_set_Some name _ fr fr0 fh Hfr0).
Qed.

Lemma addFonts_ok (infos : list OtfInfo) (fh : Fonthash)
      (cf : ClassifiedFonts) :
  classified_ok fh cf ->
  exists fh' cf',
    addFonts infos (fh, cf) = Ok (fh', cf') /\ classified_ok fh' cf'.
Proof.
  revert fh cf. induction infos as [|info r IH]; intros fh cf Hok.
  - exists fh, cf. split; [reflexivity | exact Hok].
  - destruct (addToFonthash_ok info fh cf Hok) as [fh1 [cf1 [H1 Hok1]]].
    destruct (IH fh1 cf1 Hok1) as [fh' [cf' [H' Hok']]].
    exists fh', cf'. split; [|exact Hok'].
    unfold addFonts in *. cbn [foldM]. rewrite H1. cbn [bind]. exact H'.
Qed.

(** *** Reading the reports *)

Lemma info_loop_done (lines : list InfoLine) (family : option string)
      (subfamily : option (list string)) (vendor : option string) :
  Forall line_ok lines ->
  exists family' subfamily' vendor',
    info_loop lines family subfamily vendor
    = Done (family', subfamily', vendor')
    /\ (family <> None \/ (exists value, In (FamilyLine value) lines) ->
        family' <> None)
    /\ (subfamily <> None \/ (exists tokens, In (SubfamilyLine tokens) lines) ->
        subfamily' <> None).
Proof.
  intros Hall. revert family subfamily vendor.
  induction Hall as [|l r Hl _ IH]; intros family subfamily vendor.
  - exists family, subfamily, vendor. split; [reflexivity|].
    split; (intros [H|[x []]]; exact H).
  - destruct l as [value|tokens|[v|]|]; cbn [info_loop line_ok] in *.
    + destruct (IH (Some value) subfamily vendor) as [f [s [v [E [Hf Hs]]]]].
      exists f, s, v. split; [exact E|]. split.
      * intros _. apply Hf. left. discriminate.
      * intros [H|[t [H|H]]]; [apply Hs; left; exact H | discriminate H|].
        apply Hs. right. exists t. exact H.
    + destruct Hl as [sub Hsub]. rewrite Hsub.
      destruct (IH family (Some sub) vendor) as [f [s [v [E [Hf Hs]]]]].
      exists f, s, v. split; [exact E|]. split.
      * intros [H|[t [H|H]]]; [apply Hf; left; exact H | discriminate H|].
        apply Hf. right. exists t. exact H.
      * intros _. apply Hs. left. discriminate.
    + destruct (IH family subfamily (Some v)) as [f [s [v' [E [Hf Hs]]]]].
      exists f, s, v'. split; [exact E|]. split.
      * intros [H|[t [H|H]]]; [apply Hf; left; exact H | discriminate H|].
        apply Hf. right. exists t. exact H.
      * intros [H|[t [H|H]]]; [apply Hs; left; exact H | discriminate H|].
        apply Hs. right. exists t. exact H.
    + exfalso. apply Hl. reflexivity.
    + destruct (IH family subfamily vendor) as [f [s [v' [E [Hf Hs]]]]].
      exists f, s, v'. split; [exact E|]. split.
      * intros [H|[t [H|H]]]; [apply Hf; left; exact H | discriminate H|].
        apply Hf. right. exists t. exact H.
      * intros [H|[t [H|H]]]; [apply Hs; left; exact H | discriminate H|].
        apply Hs. right. exists t. exact H.
Qed.

Lemma info_loop_lines (lines : list InfoLine) (family : option string)
      (subfamily : option (list string)) (vendor : option string)
      (family' : option string) (subfamily' : option (list string))
      (vendor' : option string) :
  info_loop lines family subfamily vendor
  = Done (family', subfamily', vendor') ->
  Forall line_ok lines
  /\ (family' <> None ->
      family <> None \/ exists value, In (FamilyLine value) lines)
  /\ (subfamily' <> None ->
      subfamily <> None \/ exists tokens, In (SubfamilyLine tokens) lines).
Proof.
  revert family subfamily vendor.
  induction lines as [|l r IH]; intros family subfamily vendor;
    cbn [info_loop].
  - intros [= <- <- <-]. split; [constructor|]. split; intros H; left; exact H.
  - destruct l as [value|tokens|[v|]|].
    + intros E. destruct (IH _ _ _ E) as [Hall [Hf Hs]].
      split; [constructor; [exact I | exact Hall]|]. split.
      * intros _. right. exists value. left. reflexivity.
      * intros H. destruct (Hs H) as [H'|[t H']]; [left; exact H'|].
        right. exists t. right. exact H'.
    + destruct (clean_subfamily tokens) as [sub| | |] eqn:Esub;
        try discriminate.
      intros E. destruct (IH _ _ _ E) as [Hall [Hf Hs]].
      split; [constructor; [exists sub; exact Esub | exact Hall]|]. split.
      * intros H. destruct (Hf H) as [H'|[t H']]; [left; exact H'|].
        right. exists t. right. exact H'.
      * intros _. right. exists tokens. left. reflexivity.
    + intros E. destruct (IH _ _ _ E) as [Hall [Hf Hs]].
      split; [constructor; [discriminate | exact Hall]|]. split.
      * intros H. destruct (Hf H) as [H'|[t H']]; [left; exact H'|].
        right. exists t. right. exact H'.
      * intros H. destruct (Hs H) as [H'|[t H']]; [left; exact H'|].
        right. exists t. right. exact H'.
    + discriminate.
    + intros E. destruct (IH _ _ _ E) as [Hall [Hf Hs]].
      split; [constructor; [exact I | exact Hall]|]. split.
      * intros H. destruct (Hf H) as [H'|[t H']]; [left; exact H'|].
        right. exists t. right. exact H'.
      * intros H. destruct (Hs H) as [H'|[t H']]; [left; exact H'|].
        right. exists t. right. exact H'.
Qed.

Lemma info_loop_no_domain (before after : list InfoLine)
      (family : option string) (subfamily : option (list string))
      (vendor : option string) :
  Forall line_ok before ->
  info_loop (before ++ VendorLine None :: after) family subfamily vendor
  = Failed AttributeError.
Proof.
  intros Hall. revert family subfamily vendor.
  induction Hall as [|l r Hl _ IH]; intros family subfamily vendor;
    cbn [app info_loop]; [reflexivity|].
  destruct l as [value|tokens|[v|]|]; cbn [line_ok] in Hl.
  - apply IH.
  - destruct Hl as [sub ->]. apply IH.
  - apply IH.
  - exfalso. apply Hl. reflexivity.
  - apply IH.
Qed.

Lemma readReport_done (r : Report) :
  readable r -> exists info, readReport r = Done info.
Proof.
  intros [Hall [Hfam [Hsub Hopt]]]. unfold readReport.
  destruct (info_loop_done (rp_info r) None None None Hall)
    as [f [s [v [E [Hf Hs]]]]].
  rewrite E.
  destruct f as [fam|]; [|exfalso; apply Hf; [right; exact Hfam|reflexivity]].
  destruct s as [sub|]; [|exfalso; apply Hs; [right; exact Hsub|reflexivity]].
  destruct (rp_optical r); [eexists; reflexivity | eexists; reflexivity|].
  exfalso. apply Hopt. reflexivity.
Qed.

Lemma readReport_readable (r : Report) (info : OtfInfo) :
  readReport r = Done info -> readable r.
Proof.
  unfold readReport, readable.
  destruct (info_loop (rp_info r) None None None) as [[[f s] v]|e] eqn:E;
    [|discriminate].
  destruct (info_loop_lines _ _ _ _ _ _ _ E) as [Hall [Hf Hs]].
  intros H. split; [exact Hall|].
  destruct (rp_optical r) eqn:Eopt; try discriminate H;
    (destruct s as [sub|]; [|discriminate H]);
    (destruct f as [fam|]; [|discriminate H]);
    (split; [destruct Hf as [Hf|Hf]; [discriminate | congruence | exact Hf]|]);
    (split; [destruct Hs as [Hs|Hs]; [discriminate | congruence | exact Hs]|]);
    discriminate.
Qed.

Lemma addReports_ok (reports : list Report) (fh : Fonthash)
      (cf : ClassifiedFonts) :
  Forall readable reports -> classified_ok fh cf ->
  exists fh' cf',
    addReports reports (fh, cf) = Done (fh', cf') /\ classified_ok fh' cf'.
Proof.
  intros Hall. revert fh cf.
  induction Hall as [|r rest Hr _ IH]; intros fh cf Hok.
  - exists fh, cf. split; [reflexivity | exact Hok].
  - destruct (readReport_done r Hr) as [info Hinfo].
    destruct (addToFonthash_ok info fh cf Hok) as [fh1 [cf1 [H1 Hok1]]].
    destruct (IH fh1 cf1 Hok1) as [fh' [cf' [H' Hok']]].
    exists fh', cf'. split; [|exact Hok'].
    cbn [addReports]. unfold addReport. rewrite Hinfo, H1. cbn [lift].
    exact H'.
Qed.

Lemma addReports_readable (reports : list Report)
      (st st' : Fonthash * ClassifiedFonts) :
  addReports reports st = Done st' -> Forall readable reports.
Proof.
  revert st. induction reports as [|r rest IH]; intros st; cbn [addReports].
  - intros _. constructor.
  - unfold addReport. destruct (readReport r) as [info|e] eqn:E;
      [|discriminate].
    destruct (lift (addToFonthash info st)) as [st1|e]; [|discriminate].
    intros H. constructor; [exact (readReport_readable r info E)|].
    exact (IH st1 H).
Qed.

(** X12. A run over reports of otfinfo raises no exception up to the
    exploded index exactly when every report can be read: each has a
    family line and a subfamily line, on every subfamily line the loop
    over "extra" ends normally, in every vendor address [urlRE] finds a
    domain, and the numbers of the optical range, if there is one, are
    taken by [float].  For such reports every classified font has its
    record, every token of its keys has a code, and the index that comes
    out holds one five-field record per key.  A vendor address without
    domain, after lines that are read, ends [addToFonthash] with
    [AttributeError]. *)
Theorem run_of_reports (reports : list Report) :
  (Forall readable reports ->
   exists ef : ExplodedFonts, runReports reports = Done ef /\ index_ok ef)
  /\ (forall ef : ExplodedFonts,
         runReports reports = Done ef -> Forall readable reports)
  /\ (forall (r : Report) (before after : list InfoLine)
             (st : Fonthash * ClassifiedFonts),
         rp_info r = before ++ VendorLine None :: after ->
         Forall line_ok before ->
         addReport r st = Failed AttributeError
         /\ runReports (reports ++ [r])
            = match addReports reports (empty, empty) with
              | Done _ => Failed AttributeError
              | Failed e => Failed e
              end).
Proof.
  split; [|split].
  - intros Hall.
    assert (H0 : classified_ok empty empty).
    { intros k1 k2 k3 k4 opticals H. discriminate H. }
    destruct (addReports_ok reports empty empty Hall H0)
      as [fh [cf [Hadd Hok]]].
    assert (Hrun : runReports reports
                   = lift (populateFontDataStructures fh cf empty)).
    { exact (f_equal
               (fun m : outcome (Fonthash * ClassifiedFonts) =>
                  match m with
                  | Done st =>
                      lift (populateFontDataStructures (fst st) (snd st)
                                                       empty)
                  | Failed e => Failed e
                  end) Hadd). }
    rewrite Hrun.
    destruct (populate_total fh cf empty Hok) as [ef Hef].
    exists ef. rewrite Hef. split; [reflexivity|].
    exact (populate_index_ok fh cf empty ef index_ok_empty Hef).
  - intros ef. unfold runReports.
    destruct (addReports reports (empty, empty)) as [st|e] eqn:E;
      [|discriminate].
    intros _. exact (addReports_readable reports _ _ E).
  - intros r before after st Hinfo Hbefore.
    assert (Hr : forall st0, addReport r st0 = Failed AttributeError).
    { intros st0. unfold addReport, readReport.
      rewrite Hinfo, (info_loop_no_domain _ _ _ _ _ Hbefore). reflexivity. }
    split; [apply Hr|].
    unfold runReports.
    assert (Happ : forall l st0,
               addReports (l ++ [r]) st0
               = match addReports l st0 with
                 | Done _ => Failed AttributeError
                 | Failed e => Failed e
                 end).
    { induction l as [|r0 l IH]; intros st0; cbn [app addReports].
      - rewrite Hr. reflexivity.
      - destruct (addReport r0 st0) as [st1|e]; [apply IH | reflexivity]. }
    rewrite Happ.
    destruct (addReports reports (empty, empty)); reflexivity.
Qed.

Lemma run_of_reports_witness :
  (exists ef : ExplodedFonts,
      runReports [sample_reports] = Done ef /\ index_ok ef)
  /\ addReport sample_reports_no_domain (empty, empty)
     = Failed AttributeError
  /\ runReports ([sample_reports] ++ [sample_reports_no_domain])
     = Failed AttributeError.
Proof.
  assert (Hlines : Forall line_ok
                          [FamilyLine "Minion Pro"; SubfamilyLine ["italic"];
                           OtherLine]).
  { constructor; [exact I|]. constructor; [eexists; reflexivity|].
    constructor; [exact I | constructor]. }
  split; [|split].
  - apply (proj1 (run_of_reports [sample_reports])).
    constructor; [|constructor].
    split; [|split; [|split]].
    + constructor; [exact I|]. constructor; [eexists; reflexivity|].
      constructor; [exact I|]. constructor; [discriminate | constructor].
    + exists "Minion Pro". left. reflexivity.
    + exists ["italic"]. right. left. reflexivity.
    + discriminate.
  - apply (proj2 (proj2 (run_of_reports [])) sample_reports_no_domain
                 [FamilyLine "Minion Pro"; SubfamilyLine ["italic"];
                  OtherLine] [] (empty, empty));
      [reflexivity | exact Hlines].
  - apply (proj2 (proj2 (run_of_reports [sample_reports]))
                 sample_reports_no_domain
                 [FamilyLine "Minion Pro"; SubfamilyLine ["italic"];
                  OtherLine] [] (empty, empty));
      [reflexivity | exact Hlines].
Defined.

(** ** Cleaning the subfamily tokens *)

Lemma index_of_absent (x : string) (l : list string) :
  index_of x l = None -> ~ In x l.
Proof.
  induction l as [|y r IH]; cbn [index_of In]; [tauto|].
  destruct (String.eqb_spec y x) as [->|Hne]; [discriminate|].
  destruct (index_of x r); [discriminate|].
  intros _ [H|H]; [congruence | exact (IH eq_refl H)].
Qed.

Lemma index_of_split (x : string) (l : list string) (i : nat) :
  index_of x l = Some i ->
  exists p rest, l = p ++ x :: rest /\ ~ In x p /\ length p = i.
Proof.
  revert i. induction l as [|y r IH]; intros i; cbn [index_of];
    [discriminate|].
  destruct (String.eqb_spec y x) as [->|Hne].
  - intros [= <-]. exists [], r. cbn. auto.
  - destruct (index_of x r) as [j|]; [|discriminate].
    intros [= <-]. destruct (IH j eq_refl) as [p [rest [-> [Hp Hlen]]]].
    exists (y :: p), rest. cbn [app length In].
    split; [reflexivity|]. split; [|congruence].
    intros [H|H]; [congruence | exact (Hp H)].
Qed.

Lemma index_of_prefix (x : string) (p rest : list string) :
  ~ In x p -> index_of x (p ++ x :: rest) = Some (length p).
Proof.
  induction p as [|y p IH]; cbn [app index_of length In]; intros H.
  - rewrite String.eqb_refl. reflexivity.
  - destruct (String.eqb_spec y x) as [->|Hne]; [tauto|].
    rewrite IH by tauto. reflexivity.
Qed.

Lemma index_of_not_In (x : string) (l : list string) :
  ~ In x l -> index_of x l = None.
Proof.
  intros H. destruct (index_of x l) as [i|] eqn:E; [|reflexivity].
  destruct (index_of_split x l i E) as [p [rest [-> _]]].
  exfalso. apply H, in_or_app. right. left. reflexivity.
Qed.

Lemma set_nth_middle (p rest : list string) (y v : string) :
  set_nth (length p) v (p ++ y :: rest) = Some (p ++ v :: rest).
Proof.
  induction p as [|z p IH]; cbn [app length set_nth]; [reflexivity|].
  rewrite IH. reflexivity.
Qed.

Lemma list_remove_prefix (x : string) (p rest : list string) :
  ~ In x p -> list_remove x (p ++ x :: rest) = Ok (p ++ rest).
Proof.
  induction p as [|y p IH]; cbn [app list_remove In]; intros H.
  - rewrite String.eqb_refl. reflexivity.
  - destruct (String.eqb_spec x y) as [->|Hne]; [tauto|].
    rewrite IH by tauto. reflexivity.
Qed.

(** One round of the loop on a list whose first "extra" has a token
    after it. *)
Lemma extra_loop_step (fuel : nat) (p r : list string) (y : string) :
  ~ In "extra" p ->
  extra_loop fuel (p ++ "extra" :: y :: r)
  = match fuel with
    | 0 => OutOfFuel
    | S fuel' => extra_loop fuel' (p ++ ("extra" ++ y)%string :: r)
    end.
Proof.
  intros Hp.
  assert (Hn : nth_error (p ++ "extra" :: y :: r) (S (length p)) = Some y).
  { clear Hp. induction p as [|z p IH]; [reflexivity | exact IH]. }
  assert (Hs : set_nth (S (length p)) ("extra" ++ y)%string
                       (p ++ "extra" :: y :: r)
               = Some (p ++ "extra" :: ("extra" ++ y)%string :: r)).
  { change (p ++ "extra" :: y :: r) with (p ++ ["extra"] ++ y :: r).
    rewrite app_assoc.
    replace (S (length p)) with (length (p ++ ["extra"]))
      by (rewrite length_app; cbn [length]; lia).
    rewrite set_nth_middle, <- app_assoc. reflexivity. }
  destruct fuel; cbn [extra_loop];
    rewrite (index_of_prefix "extra" p (y :: r) Hp), Hn, Hs,
      (list_remove_prefix "extra" p _ Hp); reflexivity.
Qed.

Lemma extra_loop_round (fuel : nat) (p r : list string) (y : string) :
  ~ In "extra" p ->
  extra_loop (S fuel) (p ++ "extra" :: y :: r)
  = extra_loop fuel (p ++ ("extra" ++ y)%string :: r).
Proof. intros Hp. apply (extra_loop_step (S fuel) p r y Hp). Qed.

Lemma extra_loop_last (fuel : nat) (p : list string) :
  ~ In "extra" p -> extra_loop fuel (p ++ ["extra"]) = IndexError.
Proof.
  intros Hp. destruct fuel; cbn [extra_loop];
    rewrite (index_of_prefix "extra" p [] Hp);
    (assert (Hn : nth_error (p ++ ["extra"]) (S (length p)) = None)
      by (apply nth_error_None; rewrite length_app; cbn [length]; lia));
    rewrite Hn; reflexivity.
Qed.

Lemma extra_loop_none (fuel : nat) (sub : list string) :
  ~ In "extra" sub -> extra_loop fuel sub = Finished sub.
Proof.
  intros H. destruct fuel; cbn [extra_loop];
    rewrite (index_of_not_In "extra" sub H); reflexivity.
Qed.

Lemma first_extra (sub : list string) :
  ~ In "extra" sub
  \/ exists p rest, sub = p ++ "extra" :: rest /\ ~ In "extra" p.
Proof.
  destruct (index_of "extra" sub) as [i|] eqn:E.
  - right. destruct (index_of_split _ _ _ E) as [p [rest [H1 [H2 _]]]].
    exists p, rest. auto.
  - left. apply index_of_absent, E.
Qed.

(** The loop ends within as many rounds as the list has tokens. *)
Lemma extra_loop_fuel (fuel : nat) (sub : list string) :
  length sub <= S fuel -> extra_loop fuel sub <> OutOfFuel.
Proof.
  revert sub. induction fuel as [|fuel IH]; intros sub Hlen.
  - destruct (first_extra sub) as [H|[p [[|y r] [-> Hp]]]].
    + rewrite extra_loop_none by exact H. discriminate.
    + rewrite extra_loop_last by exact Hp. discriminate.
    + rewrite length_app in Hlen. cbn [length] in Hlen. lia.
  - destruct (first_extra sub) as [H|[p [[|y r] [-> Hp]]]].
    + rewrite extra_loop_none by exact H. discriminate.
    + rewrite extra_loop_last by exact Hp. discriminate.
    + rewrite extra_loop_round by exact Hp. apply IH.
      rewrite length_app in *. cbn [length] in *. lia.
Qed.

Lemma extra_loop_more_fuel (f1 f2 : nat) (sub : list string) :
  extra_loop f1 sub <> OutOfFuel -> f1 <= f2 ->
  extra_loop f2 sub = extra_loop f1 sub.
Proof.
  revert f2 sub. induction f1 as [|f1 IH]; intros f2 sub Hne Hle.
  - destruct (first_extra sub) as [H|[p [[|y r] [-> Hp]]]].
    + rewrite !extra_loop_none by exact H. reflexivity.
    + rewrite !extra_loop_last by exact Hp. reflexivity.
    + exfalso. apply Hne. apply (extra_loop_step 0 p r y Hp).
  - destruct f2 as [|f2]; [lia|].
    destruct (first_extra sub) as [H|[p [[|y r] [-> Hp]]]].
    + rewrite !extra_loop_none by exact H. reflexivity.
    + rewrite !extra_loop_last by exact Hp. reflexivity.
    + rewrite !extra_loop_round in * by exact Hp.
      apply IH; [exact Hne | lia].
Qed.

Lemma join_extra_prefix (p l : list string) :
  ~ In "extra" p ->
  join_extra (p ++ l) = option_map (fun m => p ++ m) (join_extra l).
Proof.
  induction p as [|x p IH]; cbn [app In]; intros H.
  - destruct (join_extra l); reflexivity.
  - cbn [join_extra]. destruct (String.eqb_spec x "extra") as [->|Hne];
      [tauto|].
    rewrite IH by tauto. destruct (join_extra l); reflexivity.
Qed.

Lemma join_extra_free (l : list string) :
  ~ In "extra" l -> join_extra l = Some l.
Proof.
  intros H. rewrite <- (app_nil_r l) at 1.
  rewrite join_extra_prefix by exact H. cbn. rewrite app_nil_r. reflexivity.
Qed.

Lemma extra_token_grows (y : string) :
  y <> "" -> String.eqb ("extra" ++ y) "extra" = false.
Proof.
  intros H. apply String.eqb_neq. intros E.
  destruct y; [congruence | discriminate E].
Qed.

Lemma extra_loop_join (fuel : nat) (sub : list string) :
  length sub <= S fuel -> Forall (fun t => t <> "") sub ->
  extra_loop fuel sub
  = match join_extra sub with
    | Some m => Finished m
    | None => IndexError
    end.
Proof.
  revert sub. induction fuel as [|fuel IH]; intros sub Hlen Hall;
    destruct (first_extra sub) as [H|[p [[|y r] [-> Hp]]]].
  - rewrite extra_loop_none, join_extra_free by exact H. reflexivity.
  - rewrite extra_loop_last, join_extra_prefix by exact Hp. reflexivity.
  - rewrite length_app in Hlen. cbn [length] in Hlen. lia.
  - rewrite extra_loop_none, join_extra_free by exact H. reflexivity.
  - rewrite extra_loop_last, join_extra_prefix by exact Hp. reflexivity.
  - apply Forall_app in Hall as [Hallp Hall].
    inversion Hall as [|? ? _ Hall']; subst.
    inversion Hall' as [|? ? Hy Hr]; subst.
    rewrite extra_loop_round by exact Hp. rewrite IH.
    + rewrite !join_extra_prefix by exact Hp.
      cbn [join_extra]. rewrite (extra_token_grows y Hy).
      rewrite String.eqb_refl. destruct (join_extra r); reflexivity.
    + rewrite length_app in *. cbn [length] in *. lia.
    + apply Forall_app. split; [exact Hallp|].
      constructor; [|exact Hr]. destruct y; [congruence | discriminate].
Qed.

Lemma extra_loop_finished (fuel : nat) (sub m : list string) :
  extra_loop fuel sub = Finished m -> ~ In "extra" m.
Proof.
  revert sub. induction fuel as [|fuel IH]; intros sub;
    destruct (first_extra sub) as [H|[p [[|y r] [-> Hp]]]].
  - rewrite extra_loop_none by exact H. intros [= <-]. exact H.
  - rewrite extra_loop_last by exact Hp. discriminate.
  - rewrite (extra_loop_step 0 p r y Hp). discriminate.
  - rewrite extra_loop_none by exact H. intros [= <-]. exact H.
  - rewrite extra_loop_last by exact Hp. discriminate.
  - rewrite extra_loop_round by exact Hp. apply IH.
Qed.

Lemma replace_roman_cases (l : list string) :
  (~ In "roman" l /\ replace_roman l = l)
  \/ exists p rest,
      l = p ++ "roman" :: rest /\ ~ In "roman" p
      /\ replace_roman l = p ++ "regular" :: rest.
Proof.
  unfold replace_roman. destruct (mem "roman" l) eqn:E.
  - right. destruct (index_of "roman" l) as [i|] eqn:Ei.
    + destruct (index_of_split _ _ _ Ei) as [p [rest [-> [Hp <-]]]].
      exists p, rest. rewrite set_nth_middle. auto.
    + exfalso. apply mem_In in E. exact (index_of_absent _ _ Ei E).
  - left. split; [apply mem_false_In, E | reflexivity].
Qed.

Lemma replace_roman_length (l : list string) :
  length (replace_roman l) = length l.
Proof.
  destruct (replace_roman_cases l) as [[_ ->]|[p [rest [-> [_ ->]]]]];
    [reflexivity|].
  rewrite !length_app. reflexivity.
Qed.

Lemma replace_roman_nonempty (l : list string) :
  Forall (fun t => t <> "") l -> Forall (fun t => t <> "") (replace_roman l).
Proof.
  intros H.
  destruct (replace_roman_cases l) as [[_ ->]|[p [rest [-> [_ ->]]]]];
    [exact H|].
  apply Forall_app in H as [Hp Hr]. inversion Hr; subst.
  apply Forall_app. split; [exact Hp|]. constructor; [discriminate|].
  assumption.
Qed.

(** X13. Only the first "roman" of the subfamily becomes "regular"; the tokens
    before and after it, later "roman" tokens included, stay as they are. *)
Theorem replace_roman_first (p rest : list string) :
  ~ In "roman" p ->
  replace_roman (p ++ "roman" :: rest) = p ++ "regular" :: rest
  /\ replace_roman p = p.
Proof.
  intros Hp. split.
  - destruct (replace_roman_cases (p ++ "roman" :: rest))
      as [[H _]|[p' [rest' [E [Hp' ->]]]]].
    + exfalso. apply H, in_or_app. right. left. reflexivity.
    + pose proof (index_of_prefix "roman" p rest Hp) as H1.
      rewrite E in H1. rewrite (index_of_prefix "roman" p' rest' Hp') in H1.
      injection H1 as Hlen.
      assert (Hpp : p' = p /\ rest' = rest).
      { clear Hp Hp'. revert p' E Hlen.
        induction p as [|x p IH]; intros [|x' p'] E Hlen;
          try discriminate Hlen.
        - injection E as <-. auto.
        - cbn [app] in E. injection E as <- E. cbn [length] in Hlen.
          injection Hlen as Hlen. destruct (IH p' E Hlen) as [-> ->]. auto. }
      destruct Hpp as [-> ->]. reflexivity.
  - destruct (replace_roman_cases p) as [[_ H]|[p' [rest' [E _]]]];
      [exact H|].
    exfalso. apply Hp. rewrite E. apply in_or_app. right. left. reflexivity.
Qed.

Lemma replace_roman_first_witness :
  replace_roman (["bold"] ++ "roman" :: ["roman"])
  = ["bold"] ++ "regular" :: ["roman"].
Proof.
  apply (proj1 (replace_roman_first ["bold"] ["roman"]
                  ltac:(cbn [In]; intros [H|[]]; discriminate H))).
Defined.

(** X14. The loop that joins "extra" to the token after it ends within as many
    rounds as there are tokens, and leaves no token "extra" when it ends
    normally; on tokens none of which is empty it does what one pass from
    the left does, raising [IndexError] exactly when that pass meets an
    "extra" with no token after it. *)
Theorem clean_subfamily_spec (tokens : list string) :
  clean_subfamily tokens <> OutOfFuel
  /\ (forall fuel : nat,
         length tokens <= fuel ->
         extra_loop fuel (replace_roman tokens) = clean_subfamily tokens)
  /\ (forall sub : list string,
         clean_subfamily tokens = Finished sub -> ~ In "extra" sub)
  /\ (Forall (fun t => t <> "") tokens ->
      clean_subfamily tokens
      = match join_extra (replace_roman tokens) with
        | Some sub => Finished sub
        | None => IndexError
        end).
Proof.
  unfold clean_subfamily.
  assert (Hfuel : extra_loop (length (replace_roman tokens))
                             (replace_roman tokens) <> OutOfFuel).
  { apply extra_loop_fuel. lia. }
  split; [exact Hfuel|]. split; [|split].
  - intros fuel Hle. apply extra_loop_more_fuel; [exact Hfuel|].
    rewrite replace_roman_length. exact Hle.
  - intros sub. apply extra_loop_finished.
  - intros Hall. apply extra_loop_join; [lia|].
    apply replace_roman_nonempty, Hall.
Qed.

Lemma clean_subfamily_spec_witness :
  extra_loop 10 (replace_roman ["extra"; "bold"; "roman"])
  = clean_subfamily ["extra"; "bold"; "roman"]
  /\ ~ In "extra" ["extrabold"; "regular"]
  /\ clean_subfamily ["semi"; "extra"] = IndexError.
Proof.
  destruct (clean_subfamily_spec ["extra"; "bold"; "roman"])
    as [_ [H2 [H3 _]]].
  split; [apply H2; cbn [length]; lia|].
  split; [apply H3; reflexivity|].
  rewrite (proj2 (proj2 (proj2 (clean_subfamily_spec ["semi"; "extra"])))).
  - reflexivity.
  - repeat constructor; discriminate.
Defined.

(** ** Spelling out digits *)

Lemma replace_char_app (old : ascii) (new a b : string) :
  replace_char old new (a ++ b)
  = (replace_char old new a ++ replace_char old new b)%string.
Proof.
  induction a as [|x a IH]; cbn [String.append replace_char]; [reflexivity|].
  rewrite IH. destruct (Ascii.eqb x old); [|reflexivity].
  rewrite append_assoc. reflexivity.
Qed.

Lemma letterize_app (a b : string) :
  letterize (a ++ b) = (letterize a ++ letterize b)%string.
Proof.
  unfold letterize. cbn zeta. rewrite !replace_char_app. reflexivity.
Qed.

Lemma letterize_one (a : ascii) :
  has_digit (letterize (String a "")) = false
  /\ (is_digit a = false -> letterize (String a "") = String a "").
Proof.
  destruct (is_digit a) eqn:E.
  - unfold is_digit in E. cbn [existsb] in E.
    repeat (apply orb_true_iff in E as [E|E];
            [apply Ascii.eqb_eq in E; subst a;
             split; [reflexivity | discriminate]|]).
    discriminate E.
  - assert (Hl : letterize (String a "") = String a "").
    { unfold is_digit in E. cbn [existsb] in E.
      repeat (apply orb_false_iff in E as [?E E]).
      unfold letterize. cbn zeta. cbn [replace_char].
      repeat match goal with
             | H : Ascii.eqb a _ = false |- _ =>
                 rewrite H; cbn [replace_char]; clear H
             end.
      reflexivity. }
    split; [|intros _; exact Hl].
    rewrite Hl. cbn [has_digit]. rewrite E. reflexivity.
Qed.

Lemma has_digit_app (a b : string) :
  has_digit (a ++ b) = has_digit a || has_digit b.
Proof.
  induction a as [|x a IH]; cbn [String.append has_digit]; [reflexivity|].
  rewrite IH, orb_assoc. reflexivity.
Qed.

Lemma letterize_cons (a : ascii) (r : string) :
  letterize (String a r) = (letterize (String a "") ++ letterize r)%string.
Proof. rewrite <- letterize_app. reflexivity. Qed.

(** X15. [letterize] leaves no digit in its result, spells a concatenation
    piece by piece, and returns a string without digits as it is, so
    applying it twice is applying it once. *)
Theorem letterize_spec (s : string) :
  has_digit (letterize s) = false
  /\ (forall t : string,
         letterize (s ++ t) = (letterize s ++ letterize t)%string)
  /\ (has_digit s = false -> letterize s = s)
  /\ letterize (letterize s) = letterize s.
Proof.
  assert (Hnone : forall u, has_digit (letterize u) = false).
  { induction u as [|a r IH]; [reflexivity|].
    rewrite letterize_cons, has_digit_app, IH,
      (proj1 (letterize_one a)). reflexivity. }
  assert (Hid : forall u, has_digit u = false -> letterize u = u).
  { induction u as [|a r IH]; [reflexivity|].
    cbn [has_digit]. intros H. apply orb_false_iff in H as [Ha Hr].
    rewrite letterize_cons, (IH Hr), (proj2 (letterize_one a) Ha).
    reflexivity. }
  split; [apply Hnone|]. split; [intros t; apply letterize_app|].
  split; [apply Hid | apply Hid, Hnone].
Qed.

Lemma letterize_spec_witness : letterize "pmn" = "pmn".
Proof.
  apply (proj1 (proj2 (proj2 (letterize_spec "pmn")))). reflexivity.
Defined.

(** ** Names of the font definition file *)







Lemma distinct_NoDup (l : list string) : distinct l = true -> NoDup l.
Proof.
  induction l as [|x r IH]; cbn [distinct]; [constructor|].
  intros H. apply andb_true_iff in H as [Hx Hr].
  constructor; [|exact (IH Hr)].
  apply negb_true_iff in Hx. apply mem_false_In, Hx.
Qed.

Lemma NoDup_map_injective {A B : Type} (f : A -> B) (l : list A)
      (x y : A) :
  NoDup (map f l) -> In x l -> In y l -> f x = f y -> x = y.
Proof.
  induction l as [|a r IH]; cbn [map In]; [tauto|].
  intros Hnd Hx Hy E. inversion Hnd as [|? ? Ha Hr]; subst.
  destruct Hx as [->|Hx], Hy as [->|Hy].
  - reflexivity.
  - exfalso. apply Ha. rewrite E. apply in_map, Hy.
  - exfalso. apply Ha. rewrite <- E. apply in_map, Hx.
  - exact (IH Hr Hx Hy E).
Qed.

Lemma family_keys_names_distinct :
  distinct (map (fun c => fd_fontname (l2s (fst c :: snd c))) family_keys)
  = true.
Proof. vm_compute. reflexivity. Qed.

Lemma family_keys_In (base : string) (toks : list string) :
  In (base, toks) family_keys
  <-> In base (keys berryname)
      /\ (toks = [] \/ exists t, In t familyOptions /\ toks = [t]).
Proof.
  unfold family_keys. rewrite in_flat_map. split.
  - intros [b [Hb H]]. apply in_map_iff in H as [tk [[= <- <-] Htk]].
    split; [exact Hb|]. destruct Htk as [<-|Htk]; [left; reflexivity|].
    right. apply in_map_iff in Htk as [t [<- Ht]]. exists t. auto.
  - intros [Hb Ht]. exists base. split; [exact Hb|].
    apply in_map_iff. exists toks. split; [reflexivity|].
    destruct Ht as [->|[t [Ht ->]]]; [left; reflexivity|].
    right. apply in_map_iff. exists t. auto.
Qed.

(** X17. Two different exploded family keys of known families (the family
    alone, or with one family option) never get the same font name, so no
    font definition file is written twice. *)
Theorem fd_names_distinct (base1 base2 : string) (toks1 toks2 : list string) :
  In base1 (keys berryname) -> In base2 (keys berryname) ->
  (toks1 = [] \/ exists t, In t familyOptions /\ toks1 = [t]) ->
  (toks2 = [] \/ exists t, In t familyOptions /\ toks2 = [t]) ->
  fdNames (l2s (base1 :: toks1)) = fdNames (l2s (base2 :: toks2)) ->
  base1 = base2 /\ toks1 = toks2.
Proof.
  intros Hb1 Hb2 Ht1 Ht2 E.
  assert (H : (base1, toks1) = (base2, toks2)).
  { apply (NoDup_map_injective
             (fun c => fd_fontname (l2s (fst c :: snd c))) family_keys).
    - apply distinct_NoDup, family_keys_names_distinct.
    - apply family_keys_In. auto.
    - apply family_keys_In. auto.
    - cbn [fst snd]. unfold fd_fontname. rewrite E. reflexivity. }
  injection H as -> ->. auto.
Qed.

Lemma fd_names_distinct_witness :
  "Minion Pro" = "Minion Pro" /\ ["onum"] = ["onum"].
Proof.
  apply fd_names_distinct.
  - vm_compute. auto.
  - vm_compute. auto.
  - right. exists "onum". split; [vm_compute; auto | reflexivity].
  - right. exists "onum". split; [vm_compute; auto | reflexivity].
  - reflexivity.
Defined.

(** ** One family option per combination *)

(** X18. A combination of a font holds at most one family option, so the
    extended family of a combination is the family alone or the family
    and one numeral-style or swash option. *)
Theorem one_family_option (features o : list string)
        (family weight width variant : string) :
  In o (breakout (myOptionList features)) ->
  exists toks : list string,
    xfamily (applyOptions family weight width variant o) = family :: toks
    /\ (toks = [] \/ exists t, In t familyOptions /\ toks = [t]).
Proof.
  intros Ho. unfold applyOptions. rewrite fold_option_step_config.
  cbn [xfamily app].
  exists (filter (fun t => mem t familyOptions) o). split; [reflexivity|].
  apply breakout_picks in Ho as [picks [Hp ->]].
  set (isFam := fun t => mem t familyOptions).
  assert (Hlen : length (filter isFam (filter truthy picks)) <= 1).
  { apply Nat.le_trans with (length (filter isFam picks)).
    - rewrite filter_twice.
      clear Hp. induction picks as [|p r IH]; cbn [filter length]; [lia|].
      destruct (truthy p); cbn [andb]; destruct (isFam p); cbn [length]; lia.
    - apply Nat.le_trans
        with (length (filter (existsb isFam) (myOptionList features))).
      + apply picks_filter_length, Hp.
      + apply (Nat.le_trans
                 _ _ _ (myOptionList_filter_length isFam features)).
        vm_compute. lia. }
  destruct (filter isFam (filter truthy picks)) as [|t [|t' r]] eqn:E.
  - left. reflexivity.
  - right. exists t. split; [|reflexivity].
    assert (Ht : In t (filter isFam (filter truthy picks)))
      by (rewrite E; left; reflexivity).
    apply filter_In in Ht as [_ Ht]. apply mem_In, Ht.
  - cbn [length] in Hlen. lia.
Qed.

Lemma one_family_option_witness :
  exists toks : list string,
    xfamily (applyOptions "Minion Pro" "regular" "regular" "regular"
                          ["kern"; "liga"; "onum"])
    = "Minion Pro" :: toks
    /\ (toks = [] \/ exists t, In t familyOptions /\ toks = [t]).
Proof.
  apply (one_family_option ["kern"; "liga"; "onum"; "smcp"]).
  vm_compute. auto.
Defined.

(** ** Substitutions in the font definition file *)

Lemma shapes_of_absent {V : Type} (se : string) (fam : odict (odict V)) :
  ~ In se (keys fam) -> shapes_of se fam = [].
Proof.
  intros H. unfold shapes_of, getd.
  rewrite (proj2 (get_None_keys se fam) H). reflexivity.
Qed.

Lemma slant_In {V : Type} (fam : odict (odict V)) (s : Substitution) :
  In s (slant_substitutions fam)
  <-> exists se a b,
      ((a, b) = ("sl", "it") \/ (a, b) = ("it", "sl"))
      /\ In se (keys fam)
      /\ In a (shapes_of se fam) /\ ~ In b (shapes_of se fam)
      /\ s = mkSubstitution se b se a.
Proof.
  unfold slant_substitutions. rewrite in_flat_map. split.
  - intros [[a b] [Hab H]]. apply in_flat_map in H as [se [Hse H]].
    cbn [fst snd] in H.
    destruct (mem a (shapes_of se fam) && negb (mem b (shapes_of se fam)))
      eqn:E; [|destruct H].
    destruct H as [<-|[]]. apply andb_true_iff in E as [Ea Eb].
    apply mem_In in Ea. apply negb_true_iff, mem_false_In in Eb.
    exists se, a, b. split; [|auto].
    destruct Hab as [H|[H|[]]]; [left | right]; symmetry; exact H.
  - intros [se [a [b [Hab [Hse [Ha [Hb ->]]]]]]].
    exists (a, b). split.
    + destruct Hab as [->| ->]; [left | right; left]; reflexivity.
    + apply in_flat_map. exists se. split; [exact Hse|]. cbn [fst snd].
      rewrite (proj2 (mem_In _ _) Ha), (proj2 (mem_false_In _ _) Hb).
      left. reflexivity.
Qed.

Lemma bold_In {V : Type} (fam : odict (odict V)) (s : Substitution) :
  In s (bold_substitutions fam)
  <-> In "b" (keys fam) /\ ~ In "bx" (keys fam)
      /\ ((exists sh, In sh (shapes_of "b" fam)
                      /\ s = mkSubstitution "bx" sh "b" sh)
          \/ (In "it" (shapes_of "b" fam) /\ ~ In "sl" (shapes_of "b" fam)
              /\ s = mkSubstitution "bx" "sl" "b" "it")).
Proof.
  unfold bold_substitutions.
  destruct (mem "b" (keys fam)) eqn:Eb; cbn [andb];
    [destruct (mem "bx" (keys fam)) eqn:Ebx; cbn [negb]|].
  - apply mem_In in Ebx. split; [intros [] | tauto].
  - apply mem_In in Eb. apply mem_false_In in Ebx.
    rewrite in_app_iff, in_map_iff. split.
    + intros [[sh [<- Hsh]]|H].
      * split; [exact Eb|]. split; [exact Ebx|]. left. exists sh. auto.
      * destruct (mem "it" (shapes_of "b" fam)
                  && negb (mem "sl" (shapes_of "b" fam))) eqn:E;
          [|destruct H].
        destruct H as [<-|[]]. apply andb_true_iff in E as [Ei Es].
        apply mem_In in Ei. apply negb_true_iff, mem_false_In in Es.
        split; [exact Eb|]. split; [exact Ebx|]. right. auto.
    + intros [_ [_ [[sh [Hsh ->]]|[Hi [Hs ->]]]]].
      * left. exists sh. auto.
      * right. rewrite (proj2 (mem_In _ _) Hi), (proj2 (mem_false_In _ _) Hs).
        left. reflexivity.
  - apply mem_false_In in Eb. split; [intros [] | tauto].
Qed.

Lemma semibold_In {V : Type} (fam : odict (odict V)) (s : Substitution) :
  In s (semibold_substitutions fam)
  <-> In "sb" (keys fam) /\ ~ In "b" (keys fam) /\ ~ In "bx" (keys fam)
      /\ exists bbx sh, (bbx = "b" \/ bbx = "bx")
                        /\ In sh (shapes_of "sb" fam)
                        /\ s = mkSubstitution bbx sh "sb" sh.
Proof.
  unfold semibold_substitutions.
  destruct (mem "sb" (keys fam)) eqn:Esb; cbn [andb];
    [destruct (mem "b" (keys fam)) eqn:Eb; cbn [negb andb];
     [|destruct (mem "bx" (keys fam)) eqn:Ebx; cbn [negb]]|].
  - apply mem_In in Eb. split; [intros [] | tauto].
  - apply mem_In in Ebx. split; [intros [] | tauto].
  - apply mem_In in Esb. apply mem_false_In in Eb, Ebx.
    rewrite in_flat_map. split.
    + intros [bbx [Hbbx H]]. apply in_map_iff in H as [sh [<- Hsh]].
      split; [exact Esb|]. split; [exact Eb|]. split; [exact Ebx|].
      exists bbx, sh. split; [|auto].
      destruct Hbbx as [<-|[<-|[]]]; auto.
    + intros [_ [_ [_ [bbx [sh [Hbbx [Hsh ->]]]]]]].
      exists bbx. split.
      * destruct Hbbx as [->| ->]; [left | right; left]; reflexivity.
      * apply in_map_iff. exists sh. auto.
  - apply mem_false_In in Esb. split; [intros [] | tauto].
Qed.

Lemma NoDup_map_pair (x : string) (l : list string) :
  NoDup l -> NoDup (map (fun sh => (x, sh)) l).
Proof.
  induction 1 as [|sh r Hsh _ IH]; cbn [map]; constructor; [|exact IH].
  intros H. apply in_map_iff in H as [sh' [[= ->] H]]. exact (Hsh H).
Qed.

Lemma slant_pass_NoDup {V : Type} (fam : odict (odict V)) (a b : string)
      (ks : list string) :
  NoDup ks ->
  NoDup (map declared
             (flat_map (fun se =>
                          if mem a (shapes_of se fam)
                             && negb (mem b (shapes_of se fam))
                          then [mkSubstitution se b se a]
                          else [])
                       ks)).
Proof.
  induction 1 as [|se r Hse _ IH]; cbn [flat_map map]; [constructor|].
  destruct (mem a (shapes_of se fam) && negb (mem b (shapes_of se fam)));
    cbn [app map]; [|exact IH].
  constructor; [|exact IH].
  intros H. apply in_map_iff in H as [s [Hs H]].
  apply in_flat_map in H as [se' [Hse' H]].
  destruct (mem a (shapes_of se' fam) && negb (mem b (shapes_of se' fam)));
    [|destruct H].
  destruct H as [<-|[]]. injection Hs as ->. exact (Hse Hse').
Qed.

Lemma slant_NoDup {V : Type} (fam : odict (odict V)) :
  NoDup (keys fam) -> NoDup (map declared (slant_substitutions fam)).
Proof.
  intros Hk. unfold slant_substitutions. cbn [flat_map fst snd].
  rewrite app_nil_r, map_app.
  apply NoDup_app; try (apply slant_pass_NoDup, Hk).
  intros t H1 H2.
  apply in_map_iff in H1 as [s1 [<- H1]].
  apply in_map_iff in H2 as [s2 [E H2]].
  apply in_flat_map in H1 as [se1 [_ H1]].
  apply in_flat_map in H2 as [se2 [_ H2]].
  destruct (mem "sl" (shapes_of se1 fam) && _); [|destruct H1].
  destruct (mem "it" (shapes_of se2 fam) && _); [|destruct H2].
  destruct H1 as [<-|[]], H2 as [<-|[]]. discriminate E.
Qed.

Lemma bold_NoDup {V : Type} (fam : odict (odict V)) :
  NoDup (shapes_of "b" fam) -> NoDup (map declared (bold_substitutions fam)).
Proof.
  intros Hs. unfold bold_substitutions.
  destruct (mem "b" (keys fam) && negb (mem "bx" (keys fam)));
    [|constructor].
  rewrite map_app, map_map. apply NoDup_app.
  - exact (NoDup_map_pair "bx" _ Hs).
  - destruct (mem "it" (shapes_of "b" fam) && _); repeat constructor.
    intros [].
  - intros t H1 H2. apply in_map_iff in H1 as [sh [<- Hsh]].
    destruct (mem "it" (shapes_of "b" fam)
              && negb (mem "sl" (shapes_of "b" fam))) eqn:E;
      [|destruct H2].
    destruct H2 as [H2|[]]. injection H2 as <-.
    apply andb_true_iff in E as [_ E].
    apply negb_true_iff, mem_false_In in E. exact (E Hsh).
Qed.

Lemma semibold_NoDup {V : Type} (fam : odict (odict V)) :
  NoDup (shapes_of "sb" fam) ->
  NoDup (map declared (semibold_substitutions fam)).
Proof.
  intros Hs. unfold semibold_substitutions.
  destruct (mem "sb" (keys fam) && negb (mem "b" (keys fam))
            && negb (mem "bx" (keys fam)));
    [|constructor].
  cbn [flat_map]. rewrite app_nil_r, map_app, !map_map. apply NoDup_app.
  - exact (NoDup_map_pair "b" _ Hs).
  - exact (NoDup_map_pair "bx" _ Hs).
  - intros t H1 H2. apply in_map_iff in H1 as [sh1 [<- _]].
    apply in_map_iff in H2 as [sh2 [E _]]. discriminate E.
Qed.

Lemma substitutions_fresh_dict {V : Type} (fam : odict (odict V)) :
  NoDup (keys fam) ->
  (forall se : string, NoDup (shapes_of se fam)) ->
  (forall s : Substitution,
      In s (substitutions fam) ->
      ~ In (new_shape s) (shapes_of (new_series s) fam)
      /\ In (old_series s) (keys fam)
      /\ In (old_shape s) (shapes_of (old_series s) fam))
  /\ NoDup (map declared (substitutions fam)).
Proof.
  intros Hk Hs. split.
  - intros s H. unfold substitutions in H.
    apply in_app_or in H as [H|H]; [|apply in_app_or in H as [H|H]].
    + apply slant_In in H as [se [a [b [_ [Hse [Ha [Hb ->]]]]]]].
      cbn [new_shape new_series old_series old_shape]. auto.
    + apply bold_In in H as [Hb [Hbx [[sh [Hsh ->]]|[Hi [Hsl ->]]]]];
        cbn [new_shape new_series old_series old_shape];
        rewrite (shapes_of_absent "bx" fam Hbx); cbn [In]; tauto.
    + apply semibold_In in H
        as [Hsb [Hb [Hbx [bbx [sh [Hbbx [Hsh ->]]]]]]].
      cbn [new_shape new_series old_series old_shape].
      split; [|auto].
      destruct Hbbx as [->| ->];
        [rewrite (shapes_of_absent "b" fam Hb)
        |rewrite (shapes_of_absent "bx" fam Hbx)]; intros [].
  - unfold substitutions. rewrite !map_app.
    apply NoDup_app; [apply slant_NoDup, Hk | apply NoDup_app|].
    + apply bold_NoDup, Hs.
    + apply semibold_NoDup, Hs.
    + intros t H1 H2.
      apply in_map_iff in H1 as [s1 [<- H1]].
      apply in_map_iff in H2 as [s2 [_ H2]].
      apply bold_In in H1 as [Hb _].
      apply semibold_In in H2 as [_ [Hnb _]]. exact (Hnb Hb).
    + intros t H1 H2.
      apply in_map_iff in H1 as [s1 [<- H1]].
      apply slant_In in H1 as [se [a [b [_ [Hse [_ [_ ->]]]]]]].
      apply in_app_or in H2 as [H2|H2];
        apply in_map_iff in H2 as [s2 [E H2]].
      * apply bold_In in H2 as [_ [Hbx [[sh [_ ->]]|[_ [_ ->]]]]];
          injection E as <- _; exact (Hbx Hse).
      * apply semibold_In in H2
          as [_ [Hb [Hbx [bbx [sh [[->| ->] [_ ->]]]]]]];
          injection E as <- _; [exact (Hb Hse) | exact (Hbx Hse)].
Qed.

Lemma dict_ok_getd {V : Type} (P : V -> Prop) (k : string)
      (d : odict (odict V)) :
  dict_ok (dict_ok P) d -> dict_ok P (getd k d).
Proof.
  intros H. unfold getd. destruct (get k d) as [v|] eqn:E.
  - exact (dict_ok_get (dict_ok P) k v d H E).
  - apply dict_ok_empty.
Qed.

(** X19. The substitutions printed for a family never declare a shape that the
    family has in that series and never declare the same series and shape
    twice, and the shape that stands in is always one the family has:
    for every dict of series that holds each key once, and so for every
    family of the index that a run produces. *)
Theorem substitutions_fresh :
  (forall (V : Type) (fam : odict (odict V)),
      NoDup (keys fam) ->
      (forall se : string, NoDup (shapes_of se fam)) ->
      (forall s : Substitution,
          In s (substitutions fam) ->
          ~ In (new_shape s) (shapes_of (new_series s) fam)
          /\ In (old_series s) (keys fam)
          /\ In (old_shape s) (shapes_of (old_series s) fam))
      /\ NoDup (map declared (substitutions fam)))
  /\ (forall (infos : list OtfInfo) (ef : ExplodedFonts) (family : string),
         run infos = Ok ef ->
         (forall s : Substitution,
             In s (substitutions (getd family ef)) ->
             ~ In (new_shape s) (shapes_of (new_series s) (getd family ef))
             /\ In (old_shape s)
                   (shapes_of (old_series s) (getd family ef)))
         /\ NoDup (map declared (substitutions (getd family ef)))).
Proof.
  split; [intros V fam; apply substitutions_fresh_dict|].
  intros infos ef family Hrun.
  assert (Hok : index_ok ef).
  { unfold run in Hrun.
    destruct (addFonts infos (empty, empty)) as [st|e]; [|discriminate Hrun].
    exact (populate_index_ok _ _ _ _ index_ok_empty Hrun). }
  destruct Hok as [_ Hu].
  pose proof (dict_ok_getd _ family ef Hu) as Hfam.
  destruct (substitutions_fresh_dict (getd family ef)) as [H1 H2].
  - exact (proj1 Hfam).
  - intros se. exact (proj1 (dict_ok_getd _ se _ Hfam)).
  - split; [|exact H2]. intros s Hs. destruct (H1 s Hs) as [Ha [_ Hc]]. auto.
Qed.

Lemma substitutions_fresh_witness :
  NoDup (map declared (substitutions sample_family))
  /\ exists ef : ExplodedFonts,
      run [sample_italic; sample_bold] = Ok ef
      /\ NoDup (map declared (substitutions (getd "Minion Pro-onum" ef))).
Proof.
  split.
  - apply (proj1 substitutions_fresh _ sample_family).
    + apply distinct_NoDup. reflexivity.
    + intros se. unfold shapes_of, getd, sample_family. cbn [get].
      destruct (String.eqb se "m"); [|destruct (String.eqb se "b")];
        apply distinct_NoDup; reflexivity.
  - eexists. split; [vm_compute; reflexivity|].
    apply (proj2 substitutions_fresh [sample_italic; sample_bold]).
    vm_compute. reflexivity.
Defined.

(** The substitution lines of a family with bold and medium, upright and
    italic: slanted stands for italic in both series, and bold extended
    is bold. *)
Example sample_family_substitutions :
  map declared (substitutions sample_family)
  = [("m", "sl"); ("b", "sl"); ("bx", "n"); ("bx", "it"); ("bx", "sl")]
  /\ fd_substitution_lines "pmnj" [("m", [("it", @empty ExplodedRecord)])]
     = [ "\DeclareFontShape{LY1}{pmnj}{m}{sl}{";
         "  <->  sub * pmnj/m/it";
         "}{}" ].
Proof. split; reflexivity. Qed.

(** ** The record of one combination *)

Lemma family_options_incl (o : list string) :
  Forall (fun t => In t newFontFamilyOptionList)
         (filter (fun t => mem t familyOptions) o).
Proof.
  apply Forall_forall. intros t Ht. apply filter_In in Ht as [_ Ht].
  apply mem_In in Ht. unfold familyOptions in Ht.
  unfold newFontFamilyOptionList. cbn [In] in *.
  repeat (destruct Ht as [<-|Ht]; [auto 10|]). destruct Ht.
Qed.

(** X20. With the shipped option lists, processing a combination of a font
    whose family name has no hyphen puts at the key (family and family
    options, series of the classification key, shape of the variant with
    "smcp" if the combination has it, optical range) the record whose
    font name joins the encoding, the font identifier, the family options
    and the kern, liga and smcp tokens of the combination, and whose
    command-line options are a "-f" flag for each of these options. *)
Theorem combination_record (fonthash : Fonthash)
        (name weight width variant : string) (o : list string)
        (ef : ExplodedFonts) (fr : FontRecord) :
  get name fonthash = Some fr ->
  has_sep (fr_family fr) = false ->
  axis_key weightNames weight -> axis_key widthNames width ->
  axis_key variantNames variant ->
  index_ok ef ->
  let fam := filter (fun t => mem t familyOptions) o in
  let cmd := filter (fun t => mem t commandOptions) o in
  exists (ef' : ExplodedFonts) (series shape : string),
    explodeCombination fonthash name weight width variant o ef = Ok ef'
    /\ buildSeries weight width = Ok series
    /\ buildShape (if mem "smcp" o then l2s (s2l variant ++ ["smcp"])
                   else variant) = Ok shape
    /\ get4 (l2s (fr_family fr :: fam)) series shape
            (l2s (fr_opticalSize fr)) ef'
       = Some [ ("filename", fr_filename fr);
                ("family", fr_family fr);
                ("vendor", fr_vendor fr);
                ("fontname", l2s ([encoding; name] ++ fam ++ cmd));
                ("cmdlineoptions", concat_all (map flag (fam ++ cmd))) ].
Proof.
  intros Hfr Hsep Hw Hwd Hv [Hrec _] fam cmd.
  destruct (buildSeries_axis weight width Hw Hwd) as [series [Hs _]].
  destruct (buildShape_tokens _ (xvariant_tokens variant (mem "smcp" o) Hv))
    as [shape [Hsh _]].
  eexists _, series, shape.
  split; [|split; [exact Hs | split; [exact Hsh|]]].
  - unfold explodeCombination, getitem. rewrite Hfr. cbn [bind].
    unfold applyOptions. rewrite fold_option_step_config.
    cbn [xweight xwidth xvariant xfamily cmdlineoptions app].
    rewrite Hs. cbn [bind]. rewrite Hsh. cbn [bind].
    apply insertRecord_spec, Hrec.
  - rewrite get4_upd4_same. unfold new_record, fontname_tokens.
    fold fam. rewrite (xfamily_tail _ fam Hsep (family_options_incl o)).
    reflexivity.
Qed.

Lemma combination_record_witness :
  exists (ef' : ExplodedFonts) (series shape : string),
    explodeCombination sample_fonthash "MinionPro-Regular"
                       "regular" "regular" "regular"
                       ["kern"; "liga"; "onum"; "smcp"] empty = Ok ef'
    /\ buildSeries "regular" "regular" = Ok series
    /\ buildShape "regular-smcp" = Ok shape
    /\ get4 "Minion Pro-onum" series shape "" ef'
       = Some [ ("filename", "fonts/MinionPro-Regular.otf");
                ("family", "Minion Pro");
                ("vendor", "adobe");
                ("fontname", "LY1-MinionPro-Regular-onum-kern-liga-smcp");
                ("cmdlineoptions", "-fonum -fkern -fliga -fsmcp ") ].
Proof.
  apply (combination_record sample_fonthash "MinionPro-Regular"
           "regular" "regular" "regular" ["kern"; "liga"; "onum"; "smcp"]
           empty sample_regular).
  - reflexivity.
  - reflexivity.
  - apply axis_key_mem. reflexivity.
  - apply axis_key_mem. reflexivity.
  - apply axis_key_mem. reflexivity.
  - split; [intros k1 k2 k3 k4 leaf H; discriminate H | split; constructor].
Defined.

(** ** A font reported twice *)

Lemma buildFontRecord_optical (info : OtfInfo) :
  fr_opticalSize (buildFontRecord info) = oi_opticalSize info.
Proof.
  unfold buildFontRecord.
  destruct (axes_loop _ _ _ _) as [[w wd] v].
  destruct (features_loop _ _ _) as [n fs]. reflexivity.
Qed.

(** X21. When two reports carry the same PostScript name, the second replaces
    the record of the first in [fonthash], but the entry that classified
    the first stays in [classifiedFonts]: where the two records have the
    same family, weight, width and variant, the list under that key ends
    with the entry of the first followed by the entry of the second; where
    they differ, the entry of the first is the last of the list under the
    key of the first record and the entry of the second the last under the
    key of the second. Every other font record and every other list is as
    before: nothing is removed from the classification. *)
Theorem font_reported_twice (info1 info2 : OtfInfo)
        (st : Fonthash * ClassifiedFonts) :
  oi_postScriptName info1 = oi_postScriptName info2 ->
  let name := oi_postScriptName info2 in
  let fr1 := buildFontRecord info1 in
  let fr2 := buildFontRecord info2 in
  exists st1 st2 : Fonthash * ClassifiedFonts,
    addToFonthash info1 st = Ok st1
    /\ addToFonthash info2 st1 = Ok st2
    /\ get name (fst st1) = Some fr1
    /\ get name (fst st2) = Some fr2
    /\ (forall other : string,
           other <> name -> get other (fst st2) = get other (fst st))
    /\ (class_key fr1 = class_key fr2 ->
        get4 (fr_family fr1) (fr_weight fr1) (fr_width fr1) (fr_variant fr1)
             (snd st2)
        = Some (classified_under fr1 (snd st)
                ++ [(name, oi_opticalSize info1);
                    (name, oi_opticalSize info2)]))
    /\ (class_key fr1 <> class_key fr2 ->
        get4 (fr_family fr1) (fr_weight fr1) (fr_width fr1) (fr_variant fr1)
             (snd st2)
        = Some (classified_under fr1 (snd st)
                ++ [(name, oi_opticalSize info1)])
        /\ get4 (fr_family fr2) (fr_weight fr2) (fr_width fr2)
                (fr_variant fr2) (snd st2)
           = Some (classified_under fr2 (snd st)
                   ++ [(name, oi_opticalSize info2)]))
    /\ (forall j1 j2 j3 j4 : string,
           (j1, j2, j3, j4) <> class_key fr1 ->
           (j1, j2, j3, j4) <> class_key fr2 ->
           get4 j1 j2 j3 j4 (snd st2) = get4 j1 j2 j3 j4 (snd st)).
Proof.
  intros Hname name fr1 fr2. destruct st as [fh cf].
  destruct (classifyFont_leaf (set name fr1 fh) name cf fr1
                              (get_set_same name fr1 fh))
    as [cf1 [Hcf1 [Hleaf1 Hframe1]]].
  destruct (classifyFont_leaf (set name fr2 (set name fr1 fh)) name cf1 fr2
                              (get_set_same name fr2 _))
    as [cf2 [Hcf2 [Hleaf2 Hframe2]]].
  assert (Ho1 : fr_opticalSize fr1 = oi_opticalSize info1)
    by apply buildFontRecord_optical.
  assert (Ho2 : fr_opticalSize fr2 = oi_opticalSize info2)
    by apply buildFontRecord_optical.
  rewrite Ho1 in Hleaf1. rewrite Ho2 in Hleaf2.
  exists (set name fr1 fh, cf1), (set name fr2 (set name fr1 fh), cf2).
  split.
  { unfold addToFonthash. cbn [fst snd]. rewrite Hname. fold name fr1.
    rewrite Hcf1. reflexivity. }
  split.
  { unfold addToFonthash. cbn [fst snd]. fold name fr2.
    rewrite Hcf2. reflexivity. }
  cbn [fst snd]. split; [apply get_set_same|].
  split; [apply get_set_same|].
  split.
  { intros other Hother. rewrite !get_set_other by exact Hother.
    reflexivity. }
  unfold class_key, classified_under.
  split; [|split].
  - intros E. injection E as E1 E2 E3 E4. rewrite E1, E2, E3, E4 in *.
    rewrite Hleaf2, Hleaf1, <- app_assoc. reflexivity.
  - intros Hne. split.
    + rewrite (Hframe2 _ _ _ _ Hne). exact Hleaf1.
    + rewrite Hleaf2. rewrite Hframe1; [reflexivity|].
      intros E. apply Hne. symmetry. exact E.
  - intros j1 j2 j3 j4 Hj1 Hj2.
    rewrite (Hframe2 _ _ _ _ Hj2). exact (Hframe1 _ _ _ _ Hj1).
Qed.

Lemma font_reported_twice_witness :
  (exists st1 st2 : Fonthash * ClassifiedFonts,
      addToFonthash sample_italic (empty, empty) = Ok st1
      /\ addToFonthash sample_italic_bold st1 = Ok st2
      /\ get "MinionPro-It" (fst st1) = Some (buildFontRecord sample_italic)
      /\ get "MinionPro-It" (fst st2)
         = Some (buildFontRecord sample_italic_bold)
      /\ get4 "Minion Pro" "" "" "italic" (snd st2)
         = Some [("MinionPro-It", [])]
      /\ get4 "Minion Pro" "bold" "" "italic" (snd st2)
         = Some [("MinionPro-It", ["6.1"; "8.5"])])
  /\ (exists st1 st2 : Fonthash * ClassifiedFonts,
         addToFonthash sample_italic (empty, empty) = Ok st1
         /\ addToFonthash sample_italic_caption st1 = Ok st2
         /\ get "MinionPro-It" (fst st2)
            = Some (buildFontRecord sample_italic_caption)
         /\ get4 "Minion Pro" "" "" "italic" (snd st2)
            = Some [("MinionPro-It", []); ("MinionPro-It", ["6.1"; "8.5"])]).
Proof.
  split.
  - destruct (font_reported_twice sample_italic sample_italic_bold
                                  (empty, empty) eq_refl)
      as [st1 [st2 [H1 [H2 [H3 [H4 [_ [_ [H5 _]]]]]]]]].
    exists st1, st2. split; [exact H1|]. split; [exact H2|].
    split; [exact H3|]. split; [exact H4|].
    apply H5. vm_compute. discriminate.
  - destruct (font_reported_twice sample_italic sample_italic_caption
                                  (empty, empty) eq_refl)
      as [st1 [st2 [H1 [H2 [_ [H4 [_ [H5 _]]]]]]]].
    exists st1, st2. split; [exact H1|]. split; [exact H2|].
    split; [exact H4|]. apply H5. vm_compute. reflexivity.
Defined.

(** ** Every combination gets a record *)

Lemma foldM_reaches {A S : Type} (I P : S -> Prop)
      (body : S -> A -> result S) (l : list A) (a : A) :
  (forall s x s', I s -> body s x = Ok s' -> I s') ->
  (forall s x s', I s -> P s -> body s x = Ok s' -> P s') ->
  (forall s s', I s -> body s a = Ok s' -> P s') ->
  In a l ->
  forall s s', I s -> foldM body l s = Ok s' -> P s'.
Proof.
  intros HI HP Ha. induction l as [|x r IH]; intros Hin s s' Hs;
    [destruct Hin|].
  cbn [foldM]. destruct (body s x) as [s1|e] eqn:E; cbn [bind];
    [|discriminate].
  intros Hr. destruct Hin as [->|Hin].
  - assert (H1 : I s1 /\ P s1) by (split; [exact (HI _ _ _ Hs E)
                                          | exact (Ha _ _ Hs E)]).
    apply (foldM_invariant (fun s => I s /\ P s) body r) in Hr;
      [exact (proj2 Hr) | | exact H1].
    intros s0 x0 s0' [H0 H0'] E0. split; [exact (HI _ _ _ H0 E0)|].
    exact (HP _ _ _ H0 H0' E0).
  - exact (IH Hin s1 s' (HI _ _ _ Hs E) Hr).
Qed.

Lemma for_keys_reaches {V S : Type} (I P : S -> Prop) (d : odict V)
      (body : S -> string -> V -> result S) (k : string) (v : V) :
  (forall s x y s', I s -> body s x y = Ok s' -> I s') ->
  (forall s x y s', I s -> P s -> body s x y = Ok s' -> P s') ->
  (forall s s', I s -> body s k v = Ok s' -> P s') ->
  get k d = Some v ->
  forall s s', I s -> for_keys d body s = Ok s' -> P s'.
Proof.
  intros HI HP Hk Hget. unfold for_keys. apply (foldM_reaches I P) with k.
  - intros s x s' Hs. destruct (getitem x d) as [y|e]; cbn [bind];
      [apply HI, Hs | discriminate].
  - intros s x s' Hs Hp. destruct (getitem x d) as [y|e]; cbn [bind];
      [apply HP; assumption | discriminate].
  - intros s s' Hs. unfold getitem. rewrite Hget. cbn [bind]. apply Hk, Hs.
  - destruct (in_dec string_dec k (keys d)) as [H|H]; [exact H|].
    apply get_None_keys in H. congruence.
Qed.

Lemma populate_levels (fonthash : Fonthash) (cf : ClassifiedFonts)
      (ef : ExplodedFonts) :
  populateFontDataStructures fonthash cf ef
  = for_keys cf (fun ef family byWeight =>
                   explodeWeights fonthash byWeight ef) ef.
Proof. reflexivity. Qed.

Lemma explodeFonts_kept (fonthash : Fonthash) (Q : ExplodedFonts -> Prop)
      (weight width variant : string) (opticals : Opticals)
      (ef ef' : ExplodedFonts) :
  kept fonthash Q -> Q ef ->
  explodeFonts fonthash weight width variant opticals ef = Ok ef' -> Q ef'.
Proof.
  intros HQ. unfold explodeFonts. apply foldM_invariant.
  intros s font s'. apply HQ.
Qed.

Lemma explodeVariants_kept (fonthash : Fonthash)
      (Q : ExplodedFonts -> Prop) (weight width : string)
      (byVariant : odict Opticals) (ef ef' : ExplodedFonts) :
  kept fonthash Q -> Q ef ->
  explodeVariants fonthash weight width byVariant ef = Ok ef' -> Q ef'.
Proof.
  intros HQ. unfold explodeVariants. apply for_keys_invariant.
  intros s variant opticals s'. apply explodeFonts_kept, HQ.
Qed.

Lemma explodeWidths_kept (fonthash : Fonthash) (Q : ExplodedFonts -> Prop)
      (weight : string) (byWidth : odict (odict Opticals))
      (ef ef' : ExplodedFonts) :
  kept fonthash Q -> Q ef ->
  explodeWidths fonthash weight byWidth ef = Ok ef' -> Q ef'.
Proof.
  intros HQ. unfold explodeWidths. apply for_keys_invariant.
  intros s width byVariant s'. apply explodeVariants_kept, HQ.
Qed.

Lemma explodeWeights_kept (fonthash : Fonthash) (Q : ExplodedFonts -> Prop)
      (byWeight : odict (odict (odict Opticals))) (ef ef' : ExplodedFonts) :
  kept fonthash Q -> Q ef ->
  explodeWeights fonthash byWeight ef = Ok ef' -> Q ef'.
Proof.
  intros HQ. unfold explodeWeights. apply for_keys_invariant.
  intros s weight byWidth s'. apply explodeWidths_kept, HQ.
Qed.

Lemma insert_has_record (fr : FontRecord) (name xfam series shape : string)
      (cmdl : list string) (ef ef' : ExplodedFonts) (j1 j2 j3 j4 : string) :
  index_ok ef ->
  has_record j1 j2 j3 j4 ef
  \/ (j1, j2, j3, j4) = (xfam, series, shape, l2s (fr_opticalSize fr)) ->
  insertRecord fr name xfam series shape cmdl ef = Ok ef' ->
  has_record j1 j2 j3 j4 ef'.
Proof.
  intros [Hrec _] H. rewrite insertRecord_spec by exact Hrec.
  intros [= <-]. unfold has_record.
  destruct (key4_dec (j1, j2, j3, j4)
                     (xfam, series, shape, l2s (fr_opticalSize fr)))
    as [E|Hne].
  - injection E as -> -> -> ->. rewrite get4_upd4_same. eexists.
    split; [reflexivity | apply new_record_keys].
  - rewrite get4_upd4_other by exact Hne.
    destruct H as [H|H]; [exact H | contradiction].
Qed.

Lemma explodeCombination_keeps (fonthash : Fonthash)
      (name weight width variant : string) (o : list string)
      (ef ef' : ExplodedFonts) (j1 j2 j3 j4 : string) :
  index_ok ef -> has_record j1 j2 j3 j4 ef ->
  explodeCombination fonthash name weight width variant o ef = Ok ef' ->
  has_record j1 j2 j3 j4 ef'.
Proof.
  intros Hok Hleaf. unfold explodeCombination.
  destruct (getitem name fonthash) as [fr|e]; cbn [bind]; [|discriminate].
  destruct (buildSeries _ _) as [series|e]; cbn [bind]; [|discriminate].
  destruct (buildShape _) as [shape|e]; cbn [bind]; [|discriminate].
  apply insert_has_record; [exact Hok | left; exact Hleaf].
Qed.

Lemma explodeFont_index_ok (fonthash : Fonthash) : kept fonthash index_ok.
Proof.
  intros weight width variant ef ef' font Hok. unfold explodeFont.
  destruct (getitem (fst font) fonthash) as [fr|e]; cbn [bind];
    [|discriminate].
  revert ef ef' Hok. apply foldM_invariant.
  intros ef o ef'. apply explodeCombination_index_ok.
Qed.

Lemma explodeFont_keeps (fonthash : Fonthash) (j1 j2 j3 j4 : string) :
  kept fonthash (fun ef => index_ok ef /\ has_record j1 j2 j3 j4 ef).
Proof.
  intros weight width variant ef ef' font Hok. unfold explodeFont.
  destruct (getitem (fst font) fonthash) as [fr|e]; cbn [bind];
    [|discriminate].
  revert ef ef' Hok. apply foldM_invariant.
  intros s o s' [Hs Hl] E. split.
  - exact (explodeCombination_index_ok _ _ _ _ _ _ _ _ Hs E).
  - exact (explodeCombination_keeps _ _ _ _ _ _ _ _ _ _ _ _ Hs Hl E).
Qed.

(** X22. Every combination of every classified font has a record at its key
    when the population has ended: a record written later at the same
    key replaces it, but no key is ever dropped. *)
Theorem every_combination_recorded (fonthash : Fonthash)
        (cf : ClassifiedFonts) (ef : ExplodedFonts)
        (family weight width variant : string) (opticals : Opticals)
        (font : string * list string) (fr : FontRecord) (o : list string)
        (series shape : string) :
  get4 family weight width variant cf = Some opticals ->
  In font opticals ->
  get (fst font) fonthash = Some fr ->
  In o (breakout (myOptionList (fr_features fr))) ->
  let x := applyOptions (fr_family fr) weight width variant o in
  buildSeries (xweight x) (xwidth x) = Ok series ->
  buildShape (xvariant x) = Ok shape ->
  populateFontDataStructures fonthash cf empty = Ok ef ->
  has_record (l2s (xfamily x)) series shape (l2s (fr_opticalSize fr)) ef.
Proof.
  intros Hget Hfont Hfr Ho x Hseries Hshape.
  set (P := has_record (l2s (xfamily x)) series shape
                       (l2s (fr_opticalSize fr))).
  pose proof (explodeFont_index_ok fonthash) as HI.
  pose proof (explodeFont_keeps fonthash (l2s (xfamily x)) series shape
                                (l2s (fr_opticalSize fr))) as HJ.
  fold P in HJ.
  unfold get4 in Hget.
  destruct (get family cf) as [d1|] eqn:E1; [|discriminate].
  destruct (get weight d1) as [d2|] eqn:E2; [|discriminate].
  destruct (get width d2) as [d3|] eqn:E3; [|discriminate].
  rewrite populate_levels.
  assert (Hcombo : forall s s',
             index_ok s ->
             explodeFont fonthash weight width variant s font = Ok s' ->
             P s').
  { intros s s' Hs. unfold explodeFont, getitem. rewrite Hfr. cbn [bind].
    revert s s' Hs. apply (foldM_reaches index_ok P) with o.
    - intros s a s'. apply explodeCombination_index_ok.
    - intros s a s'. apply explodeCombination_keeps.
    - intros s s' Hs. unfold explodeCombination, getitem.
      rewrite Hfr. cbn [bind]. fold x. rewrite Hseries. cbn [bind].
      rewrite Hshape. cbn [bind].
      apply insert_has_record; [exact Hs | right; reflexivity].
    - exact Ho. }
  apply (for_keys_reaches index_ok P) with family d1;
    [ intros s k v s'; apply explodeWeights_kept, HI
    | intros s k v s' Hs Hp E;
      exact (proj2 (explodeWeights_kept _ _ _ _ _ HJ (conj Hs Hp) E))
    | | exact E1 | apply index_ok_empty ].
  unfold explodeWeights.
  apply (for_keys_reaches index_ok P) with weight d2;
    [ intros s k v s'; apply explodeWidths_kept, HI
    | intros s k v s' Hs Hp E;
      exact (proj2 (explodeWidths_kept _ _ _ _ _ _ HJ (conj Hs Hp) E))
    | | exact E2 ].
  unfold explodeWidths.
  apply (for_keys_reaches index_ok P) with width d3;
    [ intros s k v s'; apply explodeVariants_kept, HI
    | intros s k v s' Hs Hp E;
      exact (proj2 (explodeVariants_kept _ _ _ _ _ _ _ HJ (conj Hs Hp) E))
    | | exact E3 ].
  unfold explodeVariants.
  apply (for_keys_reaches index_ok P) with variant opticals;
    [ intros s k v s'; apply explodeFonts_kept, HI
    | intros s k v s' Hs Hp E;
      exact (proj2 (explodeFonts_kept _ _ _ _ _ _ _ _ HJ (conj Hs Hp) E))
    | | exact Hget ].
  unfold explodeFonts.
  apply (foldM_reaches index_ok P) with font;
    [ intros s a s'; apply HI
    | intros s a s' Hs Hp E; exact (proj2 (HJ _ _ _ _ _ _ (conj Hs Hp) E))
    | exact Hcombo | exact Hfont ].
Qed.

Lemma every_combination_recorded_witness :
  exists ef : ExplodedFonts,
    populateFontDataStructures sample_fonthash sample_classified empty
    = Ok ef
    /\ has_record "Minion Pro-onum" "m" "sc" "" ef.
Proof.
  eexists. split; [vm_compute; reflexivity|].
  apply (every_combination_recorded sample_fonthash sample_classified _
           "Minion Pro" "regular" "regular" "regular"
           [("MinionPro-Regular", [])] ("MinionPro-Regular", [])
           sample_regular ["kern"; "liga"; "onum"; "smcp"] "m" "sc").
  - reflexivity.
  - left. reflexivity.
  - reflexivity.
  - vm_compute. auto.
  - reflexivity.
  - reflexivity.
  - vm_compute. reflexivity.
Defined.

(** ** The population as a whole *)

Lemma populate_kept (fonthash : Fonthash) (Q : ExplodedFonts -> Prop)
      (cf : ClassifiedFonts) (ef ef' : ExplodedFonts) :
  kept fonthash Q -> Q ef ->
  populateFontDataStructures fonthash cf ef = Ok ef' -> Q ef'.
Proof.
  intros HQ. rewrite populate_levels. apply for_keys_invariant.
  intros s family byWeight s'. apply explodeWeights_kept, HQ.
Qed.

(** What exploding one classified font makes true, and every later step
    keeps true, is true when the population has ended. *)
Lemma populate_reaches (fonthash : Fonthash) (cf : ClassifiedFonts)
      (P : ExplodedFonts -> Prop) (family weight width variant : string)
      (opticals : Opticals) (font : string * list string)
      (ef : ExplodedFonts) :
  kept fonthash (fun ef => index_ok ef /\ P ef) ->
  (forall s s',
      index_ok s ->
      explodeFont fonthash weight width variant s font = Ok s' -> P s') ->
  get4 family weight width variant cf = Some opticals ->
  In font opticals ->
  populateFontDataStructures fonthash cf empty = Ok ef -> P ef.
Proof.
  intros HJ Hcombo Hget Hfont.
  pose proof (explodeFont_index_ok fonthash) as HI.
  unfold get4 in Hget.
  destruct (get family cf) as [d1|] eqn:E1; [|discriminate].
  destruct (get weight d1) as [d2|] eqn:E2; [|discriminate].
  destruct (get width d2) as [d3|] eqn:E3; [|discriminate].
  rewrite populate_levels.
  apply (for_keys_reaches index_ok P) with family d1;
    [ intros s k v s'; apply explodeWeights_kept, HI
    | intros s k v s' Hs Hp E;
      exact (proj2 (explodeWeights_kept _ _ _ _ _ HJ (conj Hs Hp) E))
    | | exact E1 | apply index_ok_empty ].
  unfold explodeWeights.
  apply (for_keys_reaches index_ok P) with weight d2;
    [ intros s k v s'; apply explodeWidths_kept, HI
    | intros s k v s' Hs Hp E;
      exact (proj2 (explodeWidths_kept _ _ _ _ _ _ HJ (conj Hs Hp) E))
    | | exact E2 ].
  unfold explodeWidths.
  apply (for_keys_reaches index_ok P) with width d3;
    [ intros s k v s'; apply explodeVariants_kept, HI
    | intros s k v s' Hs Hp E;
      exact (proj2 (explodeVariants_kept _ _ _ _ _ _ _ HJ (conj Hs Hp) E))
    | | exact E3 ].
  unfold explodeVariants.
  apply (for_keys_reaches index_ok P) with variant opticals;
    [ intros s k v s'; apply explodeFonts_kept, HI
    | intros s k v s' Hs Hp E;
      exact (proj2 (explodeFonts_kept _ _ _ _ _ _ _ _ HJ (conj Hs Hp) E))
    | | exact Hget ].
  unfold explodeFonts.
  apply (foldM_reaches index_ok P) with font;
    [ intros s a s'; apply HI
    | intros s a s' Hs Hp E; exact (proj2 (HJ _ _ _ _ _ _ (conj Hs Hp) E))
    | exact Hcombo | exact Hfont ].
Qed.

Lemma explodeFont_reaches (fonthash : Fonthash)
      (weight width variant : string) (font : string * list string)
      (fr : FontRecord) (o : list string) (series shape : string)
      (ef ef' : ExplodedFonts) :
  get (fst font) fonthash = Some fr ->
  In o (breakout (myOptionList (fr_features fr))) ->
  buildSeries (xweight (applyOptions (fr_family fr) weight width variant o))
              (xwidth (applyOptions (fr_family fr) weight width variant o))
  = Ok series ->
  buildShape (xvariant (applyOptions (fr_family fr) weight width variant o))
  = Ok shape ->
  index_ok ef ->
  explodeFont fonthash weight width variant ef font = Ok ef' ->
  has_record
    (l2s (xfamily (applyOptions (fr_family fr) weight width variant o)))
    series shape (l2s (fr_opticalSize fr)) ef'.
Proof.
  intros Hfr Ho Hseries Hshape. unfold explodeFont, getitem.
  rewrite Hfr. cbn [bind]. revert ef ef'.
  apply (foldM_reaches
           index_ok
           (has_record
              (l2s (xfamily (applyOptions (fr_family fr) weight width
                                          variant o)))
              series shape (l2s (fr_opticalSize fr)))) with o.
  - intros s a s'. apply explodeCombination_index_ok.
  - intros s a s'. apply explodeCombination_keeps.
  - intros s s' Hs. unfold explodeCombination, getitem.
    rewrite Hfr. cbn [bind]. rewrite Hseries. cbn [bind].
    rewrite Hshape. cbn [bind].
    apply insert_has_record; [exact Hs | right; reflexivity].
  - exact Ho.
Qed.

Lemma whole_records_empty (fonthash : Fonthash) :
  whole_records fonthash empty.
Proof. intros k1 k2 k3 k4 leaf H. discriminate H. Qed.

Lemma explodeCombination_whole (fonthash : Fonthash)
      (name weight width variant : string) (o : list string)
      (ef ef' : ExplodedFonts) :
  index_ok ef -> whole_records fonthash ef ->
  explodeCombination fonthash name weight width variant o ef = Ok ef' ->
  whole_records fonthash ef'.
Proof.
  intros [Hrec _] Hwhole. unfold explodeCombination, getitem.
  destruct (get name fonthash) as [fr|] eqn:Hfr; cbn [bind]; [|discriminate].
  destruct (buildSeries _ _) as [series|e] eqn:Hs; cbn [bind];
    [|discriminate].
  destruct (buildShape _) as [shape|e] eqn:Hsh; cbn [bind]; [|discriminate].
  rewrite insertRecord_spec by exact Hrec. intros [= <-].
  intros k1 k2 k3 k4 leaf Hleaf.
  destruct (key4_dec
              (k1, k2, k3, k4)
              (l2s (xfamily (applyOptions (fr_family fr) weight width
                                          variant o)),
               series, shape, l2s (fr_opticalSize fr))) as [E|Hne].
  - injection E as -> -> -> ->. rewrite get4_upd4_same in Hleaf.
    injection Hleaf as <-.
    exists name, fr, weight, width, variant, o.
    split; [exact Hfr|]. split; [reflexivity|]. split; [exact Hs|].
    split; [exact Hsh|]. split; reflexivity.
  - rewrite get4_upd4_other in Hleaf by exact Hne.
    exact (Hwhole _ _ _ _ _ Hleaf).
Qed.

Lemma explodeFont_whole (fonthash : Fonthash) :
  kept fonthash (fun ef => index_ok ef /\ whole_records fonthash ef).
Proof.
  intros weight width variant ef ef' font Hok. unfold explodeFont.
  destruct (getitem (fst font) fonthash) as [fr|e]; cbn [bind];
    [|discriminate].
  revert ef ef' Hok. apply foldM_invariant.
  intros s o s' [Hs Hw] E. split.
  - exact (explodeCombination_index_ok _ _ _ _ _ _ _ _ Hs E).
  - exact (explodeCombination_whole _ _ _ _ _ _ _ _ Hs Hw E).
Qed.

Lemma classified_ok_empty : classified_ok empty empty.
Proof. intros k1 k2 k3 k4 opticals H. discriminate H. Qed.

(** ** Synthetic options *)

Lemma applyOptions_codes (family weight width variant : string)
      (o : list string) :
  axis_key weightNames weight -> axis_key widthNames width ->
  axis_key variantNames variant ->
  exists series shape : string,
    buildSeries (xweight (applyOptions family weight width variant o))
                (xwidth (applyOptions family weight width variant o))
    = Ok series
    /\ buildShape (xvariant (applyOptions family weight width variant o))
       = Ok shape.
Proof.
  intros Hw Hwd Hv. unfold applyOptions. rewrite fold_option_step_config.
  cbn [xweight xwidth xvariant].
  destruct (buildSeries_axis weight width Hw Hwd) as [series [Hs _]].
  destruct (buildShape_tokens _ (xvariant_tokens variant (mem "smcp" o) Hv))
    as [shape [Hsh _]].
  exists series, shape. split; [exact Hs | exact Hsh].
Qed.

(** C7. A token of [fakeOptionList] is never put into [cmdlineoptions] nor
    among the tokens of the fontname: these are the encoding, the font
    identifier, the pieces of the family name after the first, and option
    tokens none of which is fake.  The extended family, weight, width and
    variant, hence the whole processing of the combination, are what they
    are without that token.  A fake token the font has is still part of a
    combination that [breakout] yields, and a combination is processed
    whether it holds a fake token or not: [explodeCombination] writes its
    record at its key, [explodeFont] ends normally with a record at the
    key of every combination of the font, and over the indices that
    [addToFonthash] fills [populateFontDataStructures] ends normally with
    a record at the key of every combination of every classified font. *)
Theorem fake_options_are_silent :
  (forall (family weight width variant : string) (o : list string),
      let x := applyOptions family weight width variant o in
      Forall (fun t => mem t fakeOptionList = false) (cmdlineoptions x)
      /\ exists toks : list string,
          xfamily x = family :: toks
          /\ Forall (fun t => mem t fakeOptionList = false) toks
          /\ (forall name : string,
                 fontname_tokens name (l2s (xfamily x)) (cmdlineoptions x)
                 = [encoding; name] ++ tl (split sep_char family)
                   ++ toks ++ cmdlineoptions x))
  /\ (forall (family weight width variant : string) (o : list string),
         applyOptions family weight width variant o
         = applyOptions family weight width variant
                        (filter (fun t => negb (mem t fakeOptionList)) o))
  /\ (forall (fonthash : Fonthash) (name weight width variant : string)
             (o : list string) (ef : ExplodedFonts),
         explodeCombination fonthash name weight width variant o ef
         = explodeCombination fonthash name weight width variant
                              (filter (fun t => negb (mem t fakeOptionList)) o)
                              ef)
  /\ (forall (features g : list string) (t : string),
         In g optionList -> In t g -> t <> "" -> In t features ->
         exists o, In o (breakout (myOptionList features)) /\ In t o)
  /\ (forall (fonthash : Fonthash) (name weight width variant : string)
             (o : list string) (ef : ExplodedFonts) (fr : FontRecord)
             (series shape : string),
         get name fonthash = Some fr ->
         let x := applyOptions (fr_family fr) weight width variant o in
         buildSeries (xweight x) (xwidth x) = Ok series ->
         buildShape (xvariant x) = Ok shape ->
         exists (ef' : ExplodedFonts) (leaf : ExplodedRecord),
           explodeCombination fonthash name weight width variant o ef = Ok ef'
           /\ get4 (l2s (xfamily x)) series shape (l2s (fr_opticalSize fr)) ef'
              = Some leaf
           /\ get "filename" leaf = Some (fr_filename fr)
           /\ get "fontname" leaf
              = Some (l2s (fontname_tokens name (l2s (xfamily x))
                                           (cmdlineoptions x)))
           /\ get "cmdlineoptions" leaf
              = Some (concat_all
                        (map flag (tl (s2l (l2s (xfamily x)))
                                   ++ cmdlineoptions x))))
  /\ (forall (fonthash : Fonthash) (weight width variant : string)
             (ef : ExplodedFonts) (font : string * list string)
             (fr : FontRecord),
         get (fst font) fonthash = Some fr ->
         axis_key weightNames weight -> axis_key widthNames width ->
         axis_key variantNames variant ->
         index_ok ef ->
         exists ef' : ExplodedFonts,
           explodeFont fonthash weight width variant ef font = Ok ef'
           /\ forall o : list string,
               In o (breakout (myOptionList (fr_features fr))) ->
               let x := applyOptions (fr_family fr) weight width variant o in
               exists series shape : string,
                 buildSeries (xweight x) (xwidth x) = Ok series
                 /\ buildShape (xvariant x) = Ok shape
                 /\ has_record (l2s (xfamily x)) series shape
                               (l2s (fr_opticalSize fr)) ef')
  /\ (forall (fonthash : Fonthash) (cf : ClassifiedFonts),
         classified_ok fonthash cf ->
         exists ef : ExplodedFonts,
           populateFontDataStructures fonthash cf empty = Ok ef
           /\ forall (family weight width variant : string)
                     (opticals : Opticals) (font : string * list string)
                     (fr : FontRecord) (o : list string),
               get4 family weight width variant cf = Some opticals ->
               In font opticals ->
               get (fst font) fonthash = Some fr ->
               In o (breakout (myOptionList (fr_features fr))) ->
               let x := applyOptions (fr_family fr) weight width variant o in
               exists series shape : string,
                 buildSeries (xweight x) (xwidth x) = Ok series
                 /\ buildShape (xvariant x) = Ok shape
                 /\ has_record (l2s (xfamily x)) series shape
                               (l2s (fr_opticalSize fr)) ef).
Proof.
  assert (Hnf : forall l, Forall (fun t => nonfake t = true) l ->
                          Forall (fun t => mem t fakeOptionList = false) l).
  { intros l. apply Forall_impl. intros t. unfold nonfake.
    apply negb_true_iff. }
  split; [|split; [|split; [|split; [|split; [|split]]]]].
  - intros family weight width variant o x.
    destruct (applyOptions_real family weight width variant o)
      as [Hc [toks [Hx [Hn Hin]]]].
    fold x in Hc, Hx. split; [apply Hnf, Hc|].
    exists toks. split; [exact Hx|]. split; [apply Hnf, Hn|].
    intros name. unfold fontname_tokens.
    rewrite Hx, (xfamily_tokens family toks Hin), <- app_assoc.
    reflexivity.
  - intros family weight width variant o. unfold applyOptions.
    apply fold_option_step_filter.
  - intros fonthash name weight width variant o ef.
    unfold explodeCombination, applyOptions.
    destruct (getitem name fonthash) as [fr|e]; cbn [bind]; [|reflexivity].
    rewrite (fold_option_step_filter weight width variant o). reflexivity.
  - exact breakout_yields_token.
  - intros fonthash name weight width variant o ef fr series shape Hfr x
           Hseries Hshape.
    unfold explodeCombination, getitem. rewrite Hfr. cbn [bind]. fold x.
    rewrite Hseries. cbn [bind]. rewrite Hshape. cbn [bind].
    unfold insertRecord. rewrite writeRecord_spec. cbn [bind].
    eexists _, _. split; [reflexivity|].
    split; [rewrite get4_upd4_same; reflexivity|].
    repeat split;
      repeat (first [ apply get_set_same
                    | rewrite get_set_other by discriminate ]).
  - intros fonthash weight width variant ef font fr Hfr Hw Hwd Hv Hok.
    assert (Htotal : exists ef',
               explodeFont fonthash weight width variant ef font = Ok ef').
    { unfold explodeFont, getitem. rewrite Hfr. cbn [bind].
      apply foldM_total. intros s o _.
      exact (explodeCombination_total fonthash (fst font) weight width
                                      variant o s fr Hfr Hw Hwd Hv). }
    destruct Htotal as [ef' Hef']. exists ef'. split; [exact Hef'|].
    intros o Ho x.
    destruct (applyOptions_codes (fr_family fr) weight width variant o
                                 Hw Hwd Hv)
      as [series [shape [Hseries Hshape]]].
    fold x in Hseries, Hshape.
    exists series, shape. split; [exact Hseries|]. split; [exact Hshape|].
    exact (explodeFont_reaches fonthash weight width variant font fr o
                               series shape ef ef' Hfr Ho Hseries Hshape
                               Hok Hef').
  - intros fonthash cf Hcf.
    destruct (populate_total fonthash cf empty Hcf) as [ef Hef].
    exists ef. split; [exact Hef|].
    intros family weight width variant opticals font fr o Hget Hfont Hfr
           Ho x.
    destruct (Hcf _ _ _ _ _ Hget) as [Hw [Hwd [Hv _]]].
    destruct (applyOptions_codes (fr_family fr) weight width variant o
                                 Hw Hwd Hv)
      as [series [shape [Hseries Hshape]]].
    fold x in Hseries, Hshape.
    exists series, shape. split; [exact Hseries|]. split; [exact Hshape|].
    apply (populate_reaches fonthash cf _ family weight width variant
                            opticals font ef);
      [ apply explodeFont_keeps
      | intros s s' Hs;
        exact (explodeFont_reaches fonthash weight width variant font fr o
                                   series shape s s' Hfr Ho Hseries Hshape Hs)
      | exact Hget | exact Hfont | exact Hef ].
Qed.

Lemma fake_options_are_silent_witness :
  fontname_tokens "MinionPro-Regular"
    (l2s (xfamily (applyOptions "Minion Pro" "regular" "regular" "regular"
                                ["kern"; "liga"; "fakenum"; "smcp"])))
    (cmdlineoptions (applyOptions "Minion Pro" "regular" "regular" "regular"
                                  ["kern"; "liga"; "fakenum"; "smcp"]))
  = ["LY1"; "MinionPro-Regular"; "kern"; "liga"; "smcp"]
  /\ (exists o, In o (breakout (myOptionList (fr_features sample_plain)))
                /\ In "fakenum" o)
  /\ (exists (ef' : ExplodedFonts) (leaf : ExplodedRecord),
         explodeCombination sample_plain_fonts "Demo-Regular" "regular"
                            "regular" "regular" ["kern"; "liga"; "fakenum"]
                            empty = Ok ef'
         /\ get4 "Demo" "m" "n" "" ef' = Some leaf
         /\ get "fontname" leaf = Some "LY1-Demo-Regular-kern-liga"
         /\ get "cmdlineoptions" leaf = Some "-fkern -fliga ")
  /\ (exists ef' : ExplodedFonts,
         explodeFont sample_plain_fonts "regular" "regular" "regular" empty
                     ("Demo-Regular", []) = Ok ef'
         /\ has_record "Demo" "m" "n" "" ef')
  /\ (exists ef : ExplodedFonts,
         populateFontDataStructures
           sample_plain_fonts
           [("Demo",
             [("regular",
               [("regular", [("regular", [("Demo-Regular", [])])])])])]
           empty = Ok ef
         /\ has_record "Demo" "m" "n" "" ef).
Proof.
  destruct fake_options_are_silent as [F1 [_ [_ [F4 [F5 [F6 F7]]]]]].
  split; [|split; [|split; [|split]]].
  - destruct (F1 "Minion Pro" "regular" "regular" "regular"
                 ["kern"; "liga"; "fakenum"; "smcp"])
      as [_ [toks [Hx [_ Hname]]]].
    rewrite (Hname "MinionPro-Regular").
    vm_compute in Hx. injection Hx as <-. reflexivity.
  - apply (F4 ["kern"; "liga"; "fakenum"]
              ["lnum"; "onum"; "swsh"; "sinf"; "sups"; "pnum"; "fakenum"]
              "fakenum").
    + vm_compute. auto.
    + vm_compute. auto 10.
    + discriminate.
    + vm_compute. auto.
  - destruct (F5 sample_plain_fonts "Demo-Regular" "regular" "regular"
                 "regular" ["kern"; "liga"; "fakenum"] empty sample_plain
                 "m" "n" eq_refl eq_refl eq_refl)
      as [ef' [leaf [H1 [H2 [_ [H3 H4]]]]]].
    exists ef', leaf. split; [exact H1|]. split; [exact H2|].
    split; [exact H3 | exact H4].
  - assert (Hempty : index_ok empty).
    { split; [intros k1 k2 k3 k4 leaf H; discriminate H
             | split; constructor]. }
    destruct (F6 sample_plain_fonts "regular" "regular" "regular" empty
                 ("Demo-Regular", []) sample_plain eq_refl)
      as [ef' [H1 H2]];
      [apply axis_key_mem; reflexivity | apply axis_key_mem; reflexivity
       | apply axis_key_mem; reflexivity | exact Hempty |].
    exists ef'. split; [exact H1|].
    destruct (H2 ["kern"; "liga"; "fakenum"]) as [series [shape [Hs [Hsh Hr]]]].
    + vm_compute. auto.
    + vm_compute in Hs. injection Hs as <-.
      vm_compute in Hsh. injection Hsh as <-. exact Hr.
  - assert (Hok : classified_ok
                    sample_plain_fonts
                    [("Demo",
                      [("regular",
                        [("regular",
                          [("regular", [("Demo-Regular", [])])])])])]).
    { destruct (addFonts_ok [sample_plain_info] empty empty
                            classified_ok_empty)
        as [fh [cf [Hadd Hcf]]].
      vm_compute in Hadd. injection Hadd as <- <-. exact Hcf. }
    destruct (F7 _ _ Hok) as [ef [H1 H2]].
    exists ef. split; [exact H1|].
    destruct (H2 "Demo" "regular" "regular" "regular"
                 [("Demo-Regular", [])] ("Demo-Regular", []) sample_plain
                 ["kern"; "liga"; "fakenum"])
      as [series [shape [Hs [Hsh Hr]]]].
    + reflexivity.
    + left. reflexivity.
    + reflexivity.
    + vm_compute. auto.
    + vm_compute in Hs. injection Hs as <-.
      vm_compute in Hsh. injection Hsh as <-. exact Hr.
Defined.

(** ** Last write wins *)

(** C8. In [explodedFonts] each (extended-family, series, shape,
    optical-range) key holds at most one result record at any time: every
    level holds each key once and every leaf has the five fields and no
    other; an insertion at an already-populated key overwrites all five
    fields (filename, family, vendor, fontname, cmdlineoptions) with the
    new values, so the leaf afterwards is the new record whatever the
    earlier one held, and no other key is touched.  Of two insertions at
    one key the record of the second is the one the key holds.  Over the
    indices that [addToFonthash] fills the population ends normally, and
    every leaf it leaves is the record of one combination of one font,
    never a mix of the fields of two insertions. *)
Theorem exploded_last_write_wins :
  (forall (fr : FontRecord) (name xfam series shape : string)
          (cmdl : list string) (ef : ExplodedFonts),
      index_ok ef ->
      exists ef' : ExplodedFonts,
        insertRecord fr name xfam series shape cmdl ef = Ok ef'
        /\ get4 xfam series shape (l2s (fr_opticalSize fr)) ef'
           = Some (new_record fr name xfam cmdl)
        /\ (forall j1 j2 j3 j4 : string,
               (j1, j2, j3, j4)
               <> (xfam, series, shape, l2s (fr_opticalSize fr)) ->
               get4 j1 j2 j3 j4 ef' = get4 j1 j2 j3 j4 ef)
        /\ index_ok ef')
  /\ (forall (fr : FontRecord) (name xfam : string) (cmdl : list string)
             (leaf : ExplodedRecord),
         exists leaf' : ExplodedRecord,
           writeRecord fr name xfam cmdl leaf = Ok leaf'
           /\ get "filename" leaf' = Some (fr_filename fr)
           /\ get "family" leaf' = Some (fr_family fr)
           /\ get "vendor" leaf' = Some (fr_vendor fr)
           /\ get "fontname" leaf'
              = Some (l2s (fontname_tokens name xfam cmdl))
           /\ get "cmdlineoptions" leaf'
              = Some (concat_all (map flag (tl (s2l xfam) ++ cmdl))))
  /\ (forall (fonthash : Fonthash) (cf : ClassifiedFonts)
             (ef' : ExplodedFonts),
         populateFontDataStructures fonthash cf empty = Ok ef' ->
         index_ok ef')
  /\ (forall (fr1 fr2 : FontRecord) (name1 name2 xfam series shape : string)
             (cmdl1 cmdl2 : list string) (ef : ExplodedFonts),
         index_ok ef ->
         l2s (fr_opticalSize fr1) = l2s (fr_opticalSize fr2) ->
         exists ef1 ef2 : ExplodedFonts,
           insertRecord fr1 name1 xfam series shape cmdl1 ef = Ok ef1
           /\ get4 xfam series shape (l2s (fr_opticalSize fr1)) ef1
              = Some (new_record fr1 name1 xfam cmdl1)
           /\ insertRecord fr2 name2 xfam series shape cmdl2 ef1 = Ok ef2
           /\ get4 xfam series shape (l2s (fr_opticalSize fr1)) ef2
              = Some (new_record fr2 name2 xfam cmdl2)
           /\ (forall j1 j2 j3 j4 : string,
                  (j1, j2, j3, j4)
                  <> (xfam, series, shape, l2s (fr_opticalSize fr1)) ->
                  get4 j1 j2 j3 j4 ef2 = get4 j1 j2 j3 j4 ef)
           /\ index_ok ef2)
  /\ (forall (fonthash : Fonthash) (cf : ClassifiedFonts),
         classified_ok fonthash cf ->
         exists ef' : ExplodedFonts,
           populateFontDataStructures fonthash cf empty = Ok ef'
           /\ index_ok ef'
           /\ whole_records fonthash ef').
Proof.
  split; [|split; [|split; [|split]]].
  - intros fr name xfam series shape cmdl ef Hok.
    eexists. split; [apply insertRecord_spec, Hok|]. split; [|split].
    + rewrite get4_upd4_same. reflexivity.
    + intros j1 j2 j3 j4 H. apply get4_upd4_other, H.
    + eapply insertRecord_index_ok; [exact Hok|].
      apply insertRecord_spec, Hok.
  - intros fr name xfam cmdl leaf. eexists.
    split; [apply writeRecord_spec|].
    repeat split;
      repeat (first [ apply get_set_same
                    | rewrite get_set_other by discriminate ]).
  - intros fonthash cf ef'. apply populate_index_ok, index_ok_empty.
  - intros fr1 fr2 name1 name2 xfam series shape cmdl1 cmdl2 ef Hok Hopt.
    pose proof (insertRecord_spec fr1 name1 xfam series shape cmdl1 ef
                                  (proj1 Hok)) as E1.
    pose proof (insertRecord_index_ok _ _ _ _ _ _ _ _ Hok E1) as Hok1.
    pose proof (insertRecord_spec fr2 name2 xfam series shape cmdl2 _
                                  (proj1 Hok1)) as E2.
    pose proof (insertRecord_index_ok _ _ _ _ _ _ _ _ Hok1 E2) as Hok2.
    eexists _, _. split; [exact E1|]. split; [|split; [exact E2|split]].
    + rewrite get4_upd4_same. reflexivity.
    + rewrite Hopt, get4_upd4_same. reflexivity.
    + split; [|exact Hok2].
      intros j1 j2 j3 j4 H.
      rewrite get4_upd4_other by (rewrite <- Hopt; exact H).
      apply get4_upd4_other, H.
  - intros fonthash cf Hcf.
    destruct (populate_total fonthash cf empty Hcf) as [ef' Hef'].
    exists ef'. split; [exact Hef'|].
    exact (populate_kept fonthash _ cf empty ef' (explodeFont_whole fonthash)
                         (conj index_ok_empty (whole_records_empty fonthash))
                         Hef').
Qed.

Lemma exploded_last_write_wins_witness :
  (exists ef1 ef2 : ExplodedFonts,
      insertRecord sample_regular "MinionPro-Regular" "Minion Pro-onum"
                   "m" "n" ["kern"; "liga"] empty = Ok ef1
      /\ get4 "Minion Pro-onum" "m" "n" "" ef1
         = Some (new_record sample_regular "MinionPro-Regular"
                            "Minion Pro-onum" ["kern"; "liga"])
      /\ insertRecord sample_display "MinionPro-Disp" "Minion Pro-onum"
                      "m" "n" ["kern"; "liga"] ef1 = Ok ef2
      /\ get4 "Minion Pro-onum" "m" "n" "" ef2
         = Some (new_record sample_display "MinionPro-Disp"
                            "Minion Pro-onum" ["kern"; "liga"])
      /\ get "fontname" (new_record sample_display "MinionPro-Disp"
                                    "Minion Pro-onum" ["kern"; "liga"])
         = Some "LY1-MinionPro-Disp-onum-kern-liga"
      /\ index_ok ef2)
  /\ (exists leaf : ExplodedRecord,
         writeRecord sample_display "MinionPro-Disp" "Minion Pro-onum"
                     ["kern"; "liga"]
                     (new_record sample_regular "MinionPro-Regular"
                                 "Minion Pro-onum" ["kern"; "liga"])
         = Ok leaf
         /\ get "filename" leaf = Some "fonts/MinionPro-Disp.otf"
         /\ get "fontname" leaf = Some "LY1-MinionPro-Disp-onum-kern-liga")
  /\ (exists ef1 : ExplodedFonts,
         populateFontDataStructures sample_fonthash sample_classified empty
         = Ok ef1
         /\ get4 "Minion Pro-onum" "m" "n" "" ef1
            = Some (new_record sample_regular "MinionPro-Regular"
                               "Minion Pro-onum" ["kern"; "liga"])
         /\ index_ok ef1)
  /\ (exists ef2 : ExplodedFonts,
         populateFontDataStructures sample_two_fonts sample_two_classified
                                    empty
         = Ok ef2
         /\ get4 "Minion Pro-onum" "m" "n" "" ef2
            = Some (new_record sample_display "MinionPro-Disp"
                               "Minion Pro-onum" ["kern"; "liga"])
         /\ index_ok ef2
         /\ whole_records sample_two_fonts ef2).
Proof.
  destruct exploded_last_write_wins as [L1 [L2 [L3 [L4 L5]]]].
  split; [|split; [|split]].
  - destruct (L4 sample_regular sample_display
                 "MinionPro-Regular" "MinionPro-Disp" "Minion Pro-onum"
                 "m" "n" ["kern"; "liga"] ["kern"; "liga"] empty
                 index_ok_empty eq_refl)
      as [ef1 [ef2 [H1 [H2 [H3 [H4 [_ H5]]]]]]].
    exists ef1, ef2. split; [exact H1|]. split; [exact H2|].
    split; [exact H3|]. split; [exact H4|]. split; [reflexivity | exact H5].
  - destruct (L2 sample_display "MinionPro-Disp" "Minion Pro-onum"
                 ["kern"; "liga"]
                 (new_record sample_regular "MinionPro-Regular"
                             "Minion Pro-onum" ["kern"; "liga"]))
      as [leaf [W1 [W2 [_ [_ [W3 _]]]]]].
    exists leaf. split; [exact W1|]. split; [exact W2 | exact W3].
  - eexists. split; [vm_compute; reflexivity|].
    split; [vm_compute; reflexivity|].
    apply (L3 sample_fonthash sample_classified). vm_compute. reflexivity.
  - assert (Hok : classified_ok sample_two_fonts sample_two_classified).
    { destruct (addFonts_ok [sample_regular_info; sample_display_info]
                            empty empty classified_ok_empty)
        as [fh [cf [Hadd Hcf]]].
      vm_compute in Hadd. injection Hadd as <- <-. exact Hcf. }
    destruct (L5 sample_two_fonts sample_two_classified Hok)
      as [ef2 [H1 [H2 H3]]].
    exists ef2. split; [exact H1|]. split; [|split; [exact H2 | exact H3]].
    vm_compute in H1. injection H1 as <-. vm_compute. reflexivity.
Defined.
